(** * Kafka exporter: scrape pipeline, lag estimator, coalescer and pruner

    A shallow embedding of [exporter/exporter.go] (the current exporter) and
    of the older variant of the same file kept in the repository (module
    [Legacy] below), with the properties of the specification stated and
    settled over it.

    Conventions of the embedding.
    - Go [int64] and [int32] values are [Z]; arithmetic that can wrap is
      written with [wrap64].
    - Go [float64] is Rocq's primitive binary64 [float]; [float64] is the Go
      conversion [float64(x)] of an [int64].
    - [time.Time] is the instant's reading in nanoseconds since the Unix
      epoch; [time.Duration] is a number of nanoseconds.
    - Go maps are [gmap]s; a [range] over a map visits [map_to_list] (Go
      leaves the order unspecified, and every statement below is
      insensitive to it).
    - A call of the Kafka client that returns [(value, err)] is an [option]:
      [None] stands for [err != nil] (and a nil value). Where the code reads
      the value whatever the error is ([Replicas], [InSyncReplicas],
      [ListConsumerGroupOffsets]), the call returns the value, [None] when it
      is nil, paired with [true] when [err != nil].
    - What a function sends on the metric channel, writes to the logger or
      applies to the offset timeline is returned as a list of [Event]s; the
      event [Panic] ends the list of a goroutine that dereferences a nil
      pointer. *)

From Stdlib Require Import ZArith Lia List Bool PrimFloat Uint63.
From stdpp Require Import gmap strings list pretty sorting.

Local Open Scope Z_scope.

(** ** Machine integers, floats and time *)

Definition int64_min : Z := - 2 ^ 63.
Definition int64_max : Z := 2 ^ 63 - 1.

Definition in_int64 (z : Z) : Prop := int64_min ≤ z ≤ int64_max.

(** Two's complement wrap-around of a mathematical result to [int64]. *)
Definition wrap64 (z : Z) : Z := (z + 2 ^ 63) `mod` 2 ^ 64 - 2 ^ 63.

Definition add64 (a b : Z) : Z := wrap64 (a + b).
Definition sub64 (a b : Z) : Z := wrap64 (a - b).
(** Go's [/] on integers truncates toward zero. *)
Definition div64 (a b : Z) : Z := wrap64 (a `quot` b).

(** [float64(x)] for [x : int64]: the nearest binary64, ties to even. *)
Definition float64 (z : Z) : float :=
  if z =? int64_min then
    PrimFloat.opp (PrimFloat.mul (PrimFloat.of_uint63 (Uint63.of_Z (2 ^ 62))) (PrimFloat.of_uint63 2))
  else if z <? 0 then PrimFloat.opp (PrimFloat.of_uint63 (Uint63.of_Z (- z)))
  else PrimFloat.of_uint63 (Uint63.of_Z z).

(** [time.Time]: nanoseconds since the epoch ([t.UnixNano()]). *)
Record Time := mkTime { UnixNano : Z }.

(** The zero value of [time.Time] (January 1, year 1), what a Go map of
    times returns for an absent key. *)
Definition zeroTime : Time := mkTime (-62135596800 * 1000000000).

(** [t.Sub(u)]: the duration [t-u], saturated to the range of [int64]. *)
Definition Sub (t u : Time) : Z :=
  let d := UnixNano t - UnixNano u in
  if d <? int64_min then int64_min else if int64_max <? d then int64_max else d.

(** [d.Milliseconds()]. *)
Definition Milliseconds (d : Z) : Z := d `quot` 1000000.

(** [t.After(u)]. *)
Definition After (t u : Time) : bool := UnixNano u <? UnixNano t.

(** [t.Add(d)]. *)
Definition Add (t : Time) (d : Z) : Time := mkTime (UnixNano t + d).

(** [t.UnixNano()/1000000], the millisecond reading used by the estimator. *)
Definition unixMillis (t : Time) : Z := div64 (UnixNano t) 1000000.

(** [strconv.FormatInt(int64(partition), 10)]. *)
Definition FormatInt (z : Z) : string := pretty z.

(** ** Metrics *)

(** The metric descriptors, process-wide variables of the package. *)
Inductive Desc :=
  | clusterBrokers | clusterBrokerInfo
  | topicPartitions | topicCurrentOffset | topicOldestOffset
  | topicPartitionLeader | topicPartitionReplicas | topicPartitionInSyncReplicas
  | topicPartitionUsesPreferredReplica | topicUnderReplicatedPartition
  | consumergroupCurrentOffset | consumergroupCurrentOffsetSum
  | consumergroupLag | consumergroupLagSum | consumergroupLagZookeeper
  | consumergroupMembers
  | topicPartitionLagMillis
  | lagDatapointUsedInterpolation | lagDatapointUsedExtrapolation.

Inductive ValueType := GaugeValue | CounterValue.

(** [prometheus.MustNewConstMetric(desc, valueType, value, labelValues...)]. *)
Record Metric := MustNewConstMetric {
  m_desc : Desc;
  m_type : ValueType;
  m_value : float;
  m_labels : list string
}.

(** What the code does to the outside while it runs. *)
Inductive Event :=
  | Emit (m : Metric)                                   (* ch <- m *)
  | LogError (msg : string)                             (* level.Error(e.logger).Log *)
  | CreateOrUpdate (group topic : string) (partition offset : Z)
      (* e.consumerGroupLagTable.createOrUpdate(group, topic, partition, offset) *)
  | Panic.                                              (* a run-time panic of the goroutine *)

(** The metrics sent on the channel, in order. *)
Definition emitted (evs : list Event) : list Metric :=
  omap (λ ev, match ev with Emit m => Some m | _ => None end) evs.

(** Some goroutine of the run panicked. *)
Definition panics (evs : list Event) : bool :=
  existsb (λ ev, match ev with Panic => true | _ => false end) evs.

(** ** Lag estimator *)

Module LagEstimator.

(** Loop of [getNextHigherOffset]: [index] and [max] are the loop variables.
    An index out of range is a run-time panic, [None]. *)
Fixpoint higherLoop (offsets : list Z) (k : Z) (index : nat) (max : Z) : option Z :=
  match index with
  | O => Some max
  | S index' =>
      if k <=? max then
        prev ← offsets !! index';
        if prev <? k then Some max
        else
          cur ← offsets !! index;
          higherLoop offsets k index' cur
      else Some max
  end.

Definition getNextHigherOffset (offsets : list Z) (k : Z) : option Z :=
  match length offsets with
  | O => None
  | S index => max ← offsets !! index; higherLoop offsets k index max
  end.

(** Loop of [getNextLowerOffset]. [rem] is [len(offsets)-1-index], the
    number of iterations the guard [index < len(offsets)-1] still allows. *)
Fixpoint lowerLoop (offsets : list Z) (k : Z) (rem index : nat) (min : Z) : option Z :=
  match rem with
  | O => Some min
  | S rem' =>
      if min <=? k then
        next ← offsets !! S index;
        if k <? next then Some min
        else
          cur ← offsets !! index;
          lowerLoop offsets k rem' (S index) cur
      else Some min
  end.

Definition getNextLowerOffset (offsets : list Z) (k : Z) : option Z :=
  min ← offsets !! 0%nat;
  lowerLoop offsets k (length offsets - 1)%nat 0%nat min.

(** The sampled instant of an offset, [offsets[o]] on the Go map. *)
Definition at_offset (offsets : gmap Z Time) (o : Z) : Time :=
  default zeroTime (offsets !! o).

(** The expression shared by both branches of [metricsForLag]:
    [float64(t(hi).UnixNano()/1000000)
       - float64(hi-c) * float64(t(hi).Sub(t(lo)).Milliseconds()) / float64(hi-lo)]. *)
Definition px (offsets : gmap Z Time) (hi lo c : Z) : float :=
  PrimFloat.sub
    (float64 (unixMillis (at_offset offsets hi)))
    (PrimFloat.div
       (PrimFloat.mul
          (float64 (sub64 hi c))
          (float64 (Milliseconds (Sub (at_offset offsets hi) (at_offset offsets lo)))))
       (float64 (sub64 hi lo))).

(** [lagMillis := float64(time.Now().UnixNano()/1000000) - px]. *)
Definition lagMillis (now : Time) (p : float) : float :=
  PrimFloat.sub (float64 (unixMillis now)) p.

(** The keys of the innermost map, sorted as [sort.Slice] with [<] does. *)
Definition producedOffsets (offsets : gmap Z Time) : list Z :=
  merge_sort Z.le (map_to_list offsets).*1.

Definition lagLabels (group topic : string) (partition : Z) : list string :=
  [group; topic; FormatInt partition].

(** Body of the innermost loop of [metricsForLag] for one partition:
    [offsets] is the timeline of the key, [latestConsumedOffset] the entry
    [response.Blocks[topic][partition]] when present, [now] the clock read
    by [time.Now()]. [None] is a run-time panic. *)
Definition lagForPartition (now : Time) (group topic : string) (partition : Z)
    (offsets : gmap Z Time) (latestConsumedOffset : option Z) : option (list Event) :=
  if (size offsets <? 2)%nat then Some []
  else
    match latestConsumedOffset with
    | Some c =>
        let produced := producedOffsets offsets in
        lowestOffset ← produced !! 0%nat;
        if c <? lowestOffset then
          highestOffset ← produced !! (length produced - 1)%nat;
          let lag := lagMillis now (px offsets highestOffset lowestOffset c) in
          Some [ Emit (MustNewConstMetric lagDatapointUsedExtrapolation CounterValue
                         (float64 1) (lagLabels group topic partition));
                 Emit (MustNewConstMetric topicPartitionLagMillis GaugeValue
                         lag (lagLabels group topic partition)) ]
        else
          nextHigherOffset ← getNextHigherOffset produced c;
          nextLowerOffset ← getNextLowerOffset produced c;
          let lag := lagMillis now (px offsets nextHigherOffset nextLowerOffset c) in
          Some [ Emit (MustNewConstMetric lagDatapointUsedInterpolation CounterValue
                         (float64 1) (lagLabels group topic partition));
                 Emit (MustNewConstMetric topicPartitionLagMillis GaugeValue
                         lag (lagLabels group topic partition)) ]
    | None =>
        Some [LogError "Could not get latest latest consumed offset"]
    end.

End LagEstimator.

(** ** The external collaborators: Kafka client, brokers, Zookeeper *)

Inductive KError := ErrNoError | KErr (code : Z).

Record OffsetFetchResponseBlock := mkBlock { Offset : Z; Err : KError }.

Record OffsetFetchResponse := mkResponse {
  Blocks : gmap string (gmap Z OffsetFetchResponseBlock)
}.

Record OffsetFetchRequest := mkRequest {
  ConsumerGroup : string;
  Version : Z;
  partitions : gmap string (list Z)
}.

(** [r.AddPartition(topic, partition)]:
    [r.partitions[topic] = append(r.partitions[topic], partition)]. *)
Definition AddPartition (r : OffsetFetchRequest) (topic : string) (partition : Z)
    : OffsetFetchRequest :=
  mkRequest (ConsumerGroup r) (Version r)
    (<[topic := default [] (partitions r !! topic) ++ [partition]]> (partitions r)).

(** What [member.GetMemberAssignment()] returns, a pointer and an error. *)
Inductive MemberAssignment :=
  | Assigned (topics : gmap string (list Z))
      (* an assignment and no error, reduced to [assignment.Topics] *)
  | NotAssigned
      (* [(nil, nil)]: the member carries no assignment *)
  | AssignmentError.
      (* [err != nil] *)

Record GroupMemberDescription := mkMember {
  GetMemberAssignment : MemberAssignment
}.

Record GroupDescription := mkGroup {
  GroupId : string;
  Members : list GroupMemberDescription
}.

Inductive OpenResult := OpenOk | ErrAlreadyConnected | OpenFailed.

Record Broker := mkBroker {
  ID : Z;
  Addr : string;
  Open : OpenResult;
  (** [groups.Groups] of the [ListGroups] response. *)
  ListGroups : option (gmap string string);
  DescribeGroups : list string → option (list GroupDescription);
  FetchOffset : OffsetFetchRequest → option OffsetFetchResponse
}.

Record ClusterAdmin := mkAdmin {
  (** The response, [None] when it is nil, and whether [err != nil]. *)
  ListConsumerGroupOffsets :
    string → gmap string (list Z) → option OffsetFetchResponse * bool
}.

Inductive OffsetTime := OffsetNewest | OffsetOldest.

Record Client := mkClient {
  Brokers : list Broker;
  (** [true] when [RefreshMetadata] returns no error. *)
  RefreshMetadata : bool;
  Topics : option (list string);
  Partitions : string → option (list Z);
  Leader : string → Z → option Broker;
  GetOffset : string → Z → OffsetTime → option Z;
  (** The slice, [None] when it is nil, and whether [err != nil]. *)
  Replicas : string → Z → option (list Z) * bool;
  InSyncReplicas : string → Z → option (list Z) * bool;
  (** [sarama.NewClusterAdminFromClient]; [None] for an error or nil. *)
  NewClusterAdminFromClient : option ClusterAdmin
}.

Record ZkConsumergroup := mkZkGroup {
  Name : string;
  ZkFetchOffset : string → Z → Z
}.

Record Kazoo := mkKazoo {
  (** The groups returned and whether an error came with them. *)
  Consumergroups : list ZkConsumergroup * bool
}.

(** The per-scrape map [offset : map[string]map[int32]int64]. *)
Abbreviation OffsetMap := (gmap string (gmap Z Z)).

(** [consumerGroupLagTable.iMap]:
    group -> topic -> partition -> producer offset -> instant. *)
Abbreviation IMap := (gmap string (gmap string (gmap Z (gmap Z Time)))).

(** The readings of the wall clock during one scrape: at entry of [collect],
    inside each [createOrUpdate] and at each lag computation. *)
Record Clock := mkClock {
  scrapeNow : Time;
  updateNow : string → string → Z → Time;
  lagNow : string → string → Z → Time
}.

Record Exporter := mkExporter {
  client : Client;
  (** [MatchString] of the four compiled regular expressions. *)
  topicFilter : string → bool;
  topicExclude : string → bool;
  groupFilter : string → bool;
  groupExclude : string → bool;
  useZooKeeperLag : bool;
  zookeeperClient : Kazoo;
  nextMetadataRefresh : Time;
  metadataRefreshInterval : Z;
  offsetShowAll : bool;
  topicWorkers : Z;
  allowConcurrent : bool;
  consumerGroupLagTable : IMap
}.

(** Modelled from the spec: [interpolationMap.createOrUpdate], defined in a
    file that is not among the sources. It inserts [offset -> now()],
    overwriting the instant of an offset already present, and creates any
    missing intermediate level. *)
Definition createOrUpdate (iMap : IMap) (group topic : string) (partition offset : Z)
    (now : Time) : IMap :=
  let topics := default ∅ (iMap !! group) in
  let parts := default ∅ (topics !! topic) in
  let offsets := default ∅ (parts !! partition) in
  <[group := <[topic := <[partition := <[offset := now]> offsets]> parts]> topics]> iMap.

(** The timeline after the [createOrUpdate] calls of a run. *)
Definition applyEvent (clk : Clock) (iMap : IMap) (ev : Event) : IMap :=
  match ev with
  | CreateOrUpdate g t p o => createOrUpdate iMap g t p o (updateNow clk g t p)
  | _ => iMap
  end.

Definition applyEvents (clk : Clock) (iMap : IMap) (evs : list Event) : IMap :=
  foldl (applyEvent clk) iMap evs.

(** ** Scrape pipeline of [exporter/exporter.go] *)

Definition gauge (d : Desc) (v : float) (labels : list string) : Event :=
  Emit (MustNewConstMetric d GaugeValue v labels).

Definition counter (d : Desc) (v : float) (labels : list string) : Event :=
  Emit (MustNewConstMetric d CounterValue v labels).

Definition float64_len {A} (l : list A) : float := float64 (Z.of_nat (length l)).

Definition flag (b : bool) : float := if b then float64 1 else float64 0.

(** [offset[topic][partition]] with the comma-ok form. *)
Definition lookupOffset (offset : OffsetMap) (topic : string) (partition : Z) : option Z :=
  offset !! topic ≫= λ m, m !! partition.

(** [offset[topic][partition] = v]. *)
Definition storeOffset (offset : OffsetMap) (topic : string) (partition v : Z) : OffsetMap :=
  <[topic := <[partition := v]> (default ∅ (offset !! topic))]> offset.

Module Pipeline.

Import LagEstimator.

Definition partitionLabels (topic : string) (partition : Z) : list string :=
  [topic; FormatInt partition].

(** The Zookeeper part of the partition loop of [getTopicMetrics]. *)
Definition zookeeperLag (e : Exporter) (topic : string) (partition currentOffset : Z)
    : list Event :=
  if useZooKeeperLag e then
    let '(ConsumerGroups, failed) := Consumergroups (zookeeperClient e) in
    (if failed then [LogError "Cannot get consumer group"] else []) ++
    flat_map (λ group,
        let offset := ZkFetchOffset group topic partition in
        if 0 <? offset then
          [gauge consumergroupLagZookeeper (float64 (sub64 currentOffset offset))
             [Name group; topic; FormatInt partition]]
        else [])
      ConsumerGroups
  else [].

(** One iteration of the partition loop of [getTopicMetrics]. *)
Definition topicPartitionMetrics (e : Exporter) (topic : string) (partition : Z)
    (offset : OffsetMap) : list Event * OffsetMap :=
  let labels := partitionLabels topic partition in
  let broker := Leader (client e) topic partition in
  let newest := GetOffset (client e) topic partition OffsetNewest in
  (* sarama returns -1 together with an error *)
  let currentOffset := default (-1) newest in
  let oldest := GetOffset (client e) topic partition OffsetOldest in
  let replicas := (Replicas (client e) topic partition).1 in
  let replicasErr := (Replicas (client e) topic partition).2 in
  let inSyncReplicas := (InSyncReplicas (client e) topic partition).1 in
  let inSyncReplicasErr := (InSyncReplicas (client e) topic partition).2 in
  ( match broker with
    | None => [LogError "Cannot get leader of topic"]
    | Some b => [gauge topicPartitionLeader (float64 (ID b)) labels]
    end ++
    match newest with
    | None => [LogError "Cannot get current offset of topic"]
    | Some v => [gauge topicCurrentOffset (float64 v) labels]
    end ++
    match oldest with
    | None => [LogError "Cannot get oldest offset of topic"]
    | Some v => [gauge topicOldestOffset (float64 v) labels]
    end ++
    (if replicasErr then [LogError "Cannot get replicas of topic"]
     else [gauge topicPartitionReplicas (float64_len (default [] replicas)) labels]) ++
    (if inSyncReplicasErr then [LogError "Cannot get in-sync replicas of topic"]
     else [gauge topicPartitionInSyncReplicas
             (float64_len (default [] inSyncReplicas)) labels]) ++
    [gauge topicPartitionUsesPreferredReplica
       (flag match broker, replicas with
             | Some b, Some (r0 :: _) => ID b =? r0
             | _, _ => false
             end) labels] ++
    [gauge topicUnderReplicatedPartition
       (flag match replicas, inSyncReplicas with
             | Some rs, Some isr => (length isr <? length rs)%nat
             | _, _ => false
             end) labels] ++
    zookeeperLag e topic partition currentOffset,
    match newest with
    | None => offset
    | Some v => storeOffset offset topic partition v
    end ).

(** The partition loop, threading the offset map. *)
Fixpoint topicPartitionsLoop (e : Exporter) (topic : string) (parts : list Z)
    (offset : OffsetMap) : list Event * OffsetMap :=
  match parts with
  | [] => ([], offset)
  | partition :: rest =>
      let '(evs, offset) := topicPartitionMetrics e topic partition offset in
      let '(evs', offset) := topicPartitionsLoop e topic rest offset in
      (evs ++ evs', offset)
  end.

(** The closure [getTopicMetrics] of [collect]. *)
Definition getTopicMetrics (e : Exporter) (topic : string) (offset : OffsetMap)
    : list Event * OffsetMap :=
  if negb (topicFilter e topic) || topicExclude e topic then ([], offset)
  else
    match Partitions (client e) topic with
    | None => ([LogError "Cannot get partitions of topic"], offset)
    | Some parts =>
        let '(evs, offset) := topicPartitionsLoop e topic parts (<[topic := ∅]> offset) in
        (gauge topicPartitions (float64_len parts) [topic] :: evs, offset)
    end.

(** The topics the producer loop of [collect] puts on [topicChannel]. *)
Definition enqueued (e : Exporter) (topics : list string) : list string :=
  filter (λ topic, topicFilter e topic && negb (topicExclude e topic) = true) topics.

(** The number of [loopTopics] goroutines [collect] starts. *)
Definition poolSize (e : Exporter) (topics : list string) : Z :=
  let N := Z.of_nat (length topics) in
  if 1 <? N then Z.min (N `quot` 2) (topicWorkers e) else N.

(** Every enqueued topic handed to a worker; the metrics of the workers are
    listed topic after topic (one of the possible interleavings). *)
Fixpoint topicPhase (e : Exporter) (queue : list string) (offset : OffsetMap)
    : list Event * OffsetMap :=
  match queue with
  | [] => ([], offset)
  | topic :: rest =>
      let '(evs, offset) := getTopicMetrics e topic offset in
      let '(evs', offset) := topicPhase e rest offset in
      (evs ++ evs', offset)
  end.

Definition addPartitions (req : OffsetFetchRequest) (topic : string) (parts : list Z)
    : OffsetFetchRequest :=
  foldl (λ r partition, AddPartition r topic partition) req parts.

Definition addTopics (req : OffsetFetchRequest) (topics : list (string * list Z))
    : OffsetFetchRequest :=
  foldl (λ r tp, addPartitions r tp.1 tp.2) req topics.

(** How the construction of the [OffsetFetchRequest] of a group ends. *)
Inductive RequestOutcome :=
  | Built (req : OffsetFetchRequest)
  | AssignmentFailed
      (* a member assignment came with an error: it is logged and
         [getConsumerGroupMetrics] returns *)
  | NilAssignment.
      (* [assignment.Topics] on a nil assignment: a nil pointer dereference *)

(** The loop over [group.Members]. *)
Fixpoint addMembers (req : OffsetFetchRequest) (members : list GroupMemberDescription)
    : RequestOutcome :=
  match members with
  | [] => Built req
  | member :: rest =>
      match GetMemberAssignment member with
      | AssignmentError => AssignmentFailed
      | NotAssigned => NilAssignment
      | Assigned topics => addMembers (addTopics req (map_to_list topics)) rest
      end
  end.

(** The [OffsetFetchRequest] built for one described group. *)
Definition offsetFetchRequest (e : Exporter) (offset : OffsetMap) (group : GroupDescription)
    : RequestOutcome :=
  let req := mkRequest (GroupId group) 1 ∅ in
  if offsetShowAll e then
    Built (addTopics req
             (map_to_list ((λ parts : gmap Z Z, (map_to_list parts).*1) <$> offset)))
  else addMembers req (Members group).

(** The request was built: every member assignment read was there. *)
Definition built (o : RequestOutcome) : Prop := ∃ req, o = Built req.

(** The value given to [consumergroupLag] for a committed offset, and what
    it adds to [lagSum]. *)
Definition partitionLag (newest committed : Z) : Z :=
  if committed =? -1 then -1 else sub64 newest committed.

Definition lagSumAfter (lagSum newest committed : Z) : Z :=
  if committed =? -1 then lagSum else add64 lagSum (sub64 newest committed).

(** One iteration of the loop over the partitions of a response block:
    the events, and the running [currentOffsetSum] and [lagSum]. *)
Definition groupPartitionMetrics (offset : OffsetMap) (group topic : string)
    (partition : Z) (block : OffsetFetchResponseBlock) (sums : Z * Z)
    : list Event * (Z * Z) :=
  let '(currentOffsetSum, lagSum) := sums in
  match Err block with
  | KErr _ => ([LogError "Error for  partition"], sums)
  | ErrNoError =>
      let currentOffset := Offset block in
      let labels := [group; topic; FormatInt partition] in
      ( gauge consumergroupCurrentOffset (float64 currentOffset) labels ::
        match lookupOffset offset topic partition with
        | Some newest =>
            [ CreateOrUpdate group topic partition newest;
              gauge consumergroupLag (float64 (partitionLag newest (Offset block))) labels ]
        | None => [LogError "No offset of topic, cannot get consumer group lag"]
        end,
        ( add64 currentOffsetSum currentOffset,
          match lookupOffset offset topic partition with
          | Some newest => lagSumAfter lagSum newest (Offset block)
          | None => lagSum
          end ) )
  end.

Fixpoint groupPartitionsLoop (offset : OffsetMap) (group topic : string)
    (blocks : list (Z * OffsetFetchResponseBlock)) (sums : Z * Z)
    : list Event * (Z * Z) :=
  match blocks with
  | [] => ([], sums)
  | (partition, block) :: rest =>
      let '(evs, sums) := groupPartitionMetrics offset group topic partition block sums in
      let '(evs', sums) := groupPartitionsLoop offset group topic rest sums in
      (evs ++ evs', sums)
  end.

(** One iteration of the loop over [offsetFetchResponse.Blocks]. *)
Definition groupTopicMetrics (e : Exporter) (offset : OffsetMap) (group topic : string)
    (parts : gmap Z OffsetFetchResponseBlock) : list Event :=
  if negb (topicFilter e topic) then []
  else if negb (existsb (λ pb, negb (Offset pb.2 =? -1)) (map_to_list parts)) then []
  else
    let '(evs, (currentOffsetSum, lagSum)) :=
      groupPartitionsLoop offset group topic (map_to_list parts) (0, 0) in
    evs ++
    [ gauge consumergroupCurrentOffsetSum (float64 currentOffsetSum) [group; topic];
      gauge consumergroupLagSum (float64 lagSum) [group; topic] ].

(** One iteration of the loop over [describeGroups.Groups], from the send
    of [consumergroupMembers] on: a failed [FetchOffset] skips the group. *)
Definition groupMetrics (e : Exporter) (offset : OffsetMap) (broker : Broker)
    (group : GroupDescription) (req : OffsetFetchRequest) : list Event :=
  gauge consumergroupMembers (float64_len (Members group)) [GroupId group] ::
  match FetchOffset broker req with
  | None => [LogError "Cannot get offset of group"]
  | Some response =>
      flat_map (λ tp, groupTopicMetrics e offset (GroupId group) tp.1 tp.2)
        (map_to_list (Blocks response))
  end.

(** The loop over [describeGroups.Groups]: a member assignment that came
    with an error leaves the function, a nil assignment makes the goroutine
    panic. *)
Fixpoint describeGroupsLoop (e : Exporter) (offset : OffsetMap) (broker : Broker)
    (groups : list GroupDescription) : list Event :=
  match groups with
  | [] => []
  | group :: rest =>
      match offsetFetchRequest e offset group with
      | AssignmentFailed => [LogError "Cannot get GetMemberAssignment of group member"]
      | NilAssignment => [Panic]
      | Built req =>
          groupMetrics e offset broker group req ++ describeGroupsLoop e offset broker rest
      end
  end.

Definition groupIds (e : Exporter) (groups : gmap string string) : list string :=
  filter (λ groupId, groupFilter e groupId && negb (groupExclude e groupId) = true)
    (map_to_list groups).*1.

(** The closure [getConsumerGroupMetrics] of [collect], for one broker. *)
Definition getConsumerGroupMetrics (e : Exporter) (offset : OffsetMap) (broker : Broker)
    : list Event :=
  match Open broker with
  | OpenFailed => [LogError "Cannot connect to broker"]
  | _ =>
      match ListGroups broker with
      | None => [LogError "Cannot get consumer group"]
      | Some groups =>
          match DescribeGroups broker (groupIds e groups) with
          | None => [LogError "Cannot get describe groups"]
          | Some describeGroups => describeGroupsLoop e offset broker describeGroups
          end
      end
  end.

(** The broker fan-out; the goroutines' events are listed broker after
    broker. A goroutine that panics ends the process: the events are then
    those of an execution in which the other goroutines had finished. *)
Definition groupPhase (e : Exporter) (offset : OffsetMap) : list Event :=
  match Brokers (client e) with
  | [] => [LogError "No valid broker, cannot get consumer group metrics"]
  | brokers => flat_map (getConsumerGroupMetrics e offset) brokers
  end.

(** A [range] loop whose body may panic: the events of the iterations in
    order, or the panic. *)
Fixpoint forEach {A} (body : A → option (list Event)) (l : list A) : option (list Event) :=
  match l with
  | [] => Some []
  | x :: rest =>
      evs ← body x;
      evs' ← forEach body rest;
      Some (evs ++ evs')
  end.

(** [metricsForLag]: the loop over the partitions of one (group, topic). *)
Definition lagForTopic (clk : Clock) (group topic : string)
    (partitionMap : gmap Z (gmap Z Time)) (response : OffsetFetchResponse)
    : option (list Event) :=
  forEach (λ po : Z * gmap Z Time,
             lagForPartition (lagNow clk group topic po.1) group topic po.1 po.2
               (Offset <$> (Blocks response !! topic ≫= λ m, m !! po.1)))
          (map_to_list partitionMap).

Definition lagForGroupTopic (admin : ClusterAdmin) (clk : Clock) (group topic : string)
    (partitionMap : gmap Z (gmap Z Time)) : option (list Event) :=
  let partitionKeys := (map_to_list partitionMap).*1 in
  let result := ListConsumerGroupOffsets admin group {[topic := partitionKeys]} in
  evs ← match result.1 with
        | None =>
            Some [LogError "Got nil response from ListConsumerGroupOffsets for group"]
        | Some response => lagForTopic clk group topic partitionMap response
        end;
  Some ((if result.2 then [LogError "Error listing offsets for"] else []) ++ evs).

(** [metricsForLag], on the timeline [iMap]; [None] is a run-time panic. *)
Definition metricsForLag (e : Exporter) (clk : Clock) (iMap : IMap) : option (list Event) :=
  match NewClusterAdminFromClient (client e) with
  | None => Some [LogError "Error creating cluster admin"]
  | Some admin =>
      forEach (λ gt : string * gmap string (gmap Z (gmap Z Time)),
                 forEach (λ tp : string * gmap Z (gmap Z Time),
                            lagForGroupTopic admin clk gt.1 tp.1 tp.2)
                         (map_to_list gt.2))
              (map_to_list iMap)
  end.

(** How a call of [collect] ends. *)
Inductive Status :=
  | Returned            (* the function returned *)
  | Blocked             (* the producer waits forever on [topicChannel] *)
  | Panicked.           (* a run-time panic *)

Record Scrape := mkScrape {
  status : Status;
  events : list Event;
  (** The exporter after the call: [nextMetadataRefresh] and the timeline. *)
  after : Exporter
}.

Definition brokerMetrics (e : Exporter) : list Event :=
  gauge clusterBrokers (float64_len (Brokers (client e))) [] ::
  map (λ b, gauge clusterBrokerInfo (float64 1) [FormatInt (ID b); Addr b])
      (Brokers (client e)).

Definition withRefresh (e : Exporter) (t : Time) : Exporter :=
  mkExporter (client e) (topicFilter e) (topicExclude e) (groupFilter e) (groupExclude e)
    (useZooKeeperLag e) (zookeeperClient e) t (metadataRefreshInterval e)
    (offsetShowAll e) (topicWorkers e) (allowConcurrent e) (consumerGroupLagTable e).

Definition withLagTable (e : Exporter) (iMap : IMap) : Exporter :=
  mkExporter (client e) (topicFilter e) (topicExclude e) (groupFilter e) (groupExclude e)
    (useZooKeeperLag e) (zookeeperClient e) (nextMetadataRefresh e)
    (metadataRefreshInterval e) (offsetShowAll e) (topicWorkers e) (allowConcurrent e) iMap.

(** The metadata refresh at the start of [collect]. *)
Definition refreshMetadata (e : Exporter) (now : Time) : list Event * Exporter :=
  if After now (nextMetadataRefresh e) then
    ( if RefreshMetadata (client e) then []
      else [LogError "Error refreshing topics. Using cached topic data"],
      withRefresh e (Add now (metadataRefreshInterval e)) )
  else ([], e).

(** [collect]. *)
Definition collect (e : Exporter) (clk : Clock) : Scrape :=
  let ev0 := brokerMetrics e in
  let '(ev1, e1) := refreshMetadata e (scrapeNow clk) in
  match Topics (client e) with
  | None => mkScrape Returned (ev0 ++ ev1 ++ [LogError "Error getting topics"]) e1
  | Some topics =>
      if (poolSize e topics <? 1) && negb (bool_decide (enqueued e topics = [])) then
        (* no goroutine receives from [topicChannel] *)
        mkScrape Blocked (ev0 ++ ev1) e1
      else
        let '(ev2, offset) := topicPhase e (enqueued e topics) ∅ in
        let ev3 := groupPhase e offset in
        let iMap := applyEvents clk (consumerGroupLagTable e) ev3 in
        let e2 := withLagTable e1 iMap in
        if panics ev3 then
          (* a goroutine of the consumer-group pass panicked: the process ends *)
          mkScrape Panicked (ev0 ++ ev1 ++ ev2 ++ ev3) e2
        else
          match metricsForLag e clk iMap with
          | None => mkScrape Panicked (ev0 ++ ev1 ++ ev2 ++ ev3) e2
          | Some ev4 => mkScrape Returned (ev0 ++ ev1 ++ ev2 ++ ev3 ++ ev4) e2
          end
  end.

End Pipeline.

(** ** The older variant of the exporter kept in the repository

    It has no exclude filters, does not filter the topics of a fetch
    response, updates the timeline before looking the partition up in the
    offset map, and fills [topicChannel] before it starts the workers. Only
    what differs from [Pipeline] is repeated here. *)

Module Legacy.

(** One iteration of the loop over the partitions of a response block. *)
Definition groupPartitionMetrics (offset : OffsetMap) (group topic : string)
    (partition : Z) (block : OffsetFetchResponseBlock) (sums : Z * Z)
    : list Event * (Z * Z) :=
  let '(currentOffsetSum, lagSum) := sums in
  match Err block with
  | KErr _ => ([LogError "Error for  partition"], sums)
  | ErrNoError =>
      let currentOffset := Offset block in
      let labels := [group; topic; FormatInt partition] in
      ( gauge consumergroupCurrentOffset (float64 currentOffset) labels ::
        CreateOrUpdate group topic partition currentOffset ::
        match lookupOffset offset topic partition with
        | Some newest =>
            [ gauge consumergroupLag
                (float64 (Pipeline.partitionLag newest (Offset block))) labels ]
        | None => [LogError "No offset of topic, cannot get consumer group lag"]
        end,
        ( add64 currentOffsetSum currentOffset,
          match lookupOffset offset topic partition with
          | Some newest => Pipeline.lagSumAfter lagSum newest (Offset block)
          | None => lagSum
          end ) )
  end.

Fixpoint groupPartitionsLoop (offset : OffsetMap) (group topic : string)
    (blocks : list (Z * OffsetFetchResponseBlock)) (sums : Z * Z)
    : list Event * (Z * Z) :=
  match blocks with
  | [] => ([], sums)
  | (partition, block) :: rest =>
      let '(evs, sums) := groupPartitionMetrics offset group topic partition block sums in
      let '(evs', sums) := groupPartitionsLoop offset group topic rest sums in
      (evs ++ evs', sums)
  end.

(** One iteration of the loop over [offsetFetchResponse.Blocks]. *)
Definition groupTopicMetrics (offset : OffsetMap) (group topic : string)
    (parts : gmap Z OffsetFetchResponseBlock) : list Event :=
  if negb (existsb (λ pb, negb (Offset pb.2 =? -1)) (map_to_list parts)) then []
  else
    let '(evs, (currentOffsetSum, lagSum)) :=
      groupPartitionsLoop offset group topic (map_to_list parts) (0, 0) in
    evs ++
    [ gauge consumergroupCurrentOffsetSum (float64 currentOffsetSum) [group; topic];
      gauge consumergroupLagSum (float64 lagSum) [group; topic] ].

(** The topics the producer loop puts on [topicChannel]. *)
Definition enqueued (e : Exporter) (topics : list string) : list string :=
  filter (λ topic, topicFilter e topic = true) topics.

End Legacy.

(** ** The topic worker pool of [collect]

    The producer (the goroutine running [collect]) and the [loopTopics]
    goroutines, synchronising on the unbuffered [topicChannel] and on the
    wait group. A state-transition system: the producer adds to the wait
    group before it sends, and a send happens only together with a receive
    of a worker blocked on the channel. *)

Module TopicPool.

(** What the producer still has to execute. *)
Inductive Instr :=
  | Spawn (n : Z)           (* for w := 1; w <= N; w++ { go loopTopics() } *)
  | Send (topic : string)   (* wg.Add(1); topicChannel <- topic *)
  | Sending (topic : string)
      (* what is left of [Send topic] after wg.Add(1): topicChannel <- topic *)
  | Close                   (* close(topicChannel) *)
  | Wait.                   (* wg.Wait() *)

(** A [loopTopics] goroutine. [deferred] counts the [wg.Done()] calls it
    has deferred to its return (the older variant defers them). *)
Inductive Worker :=
  | Receiving (deferred : nat)                   (* blocked in <-topicChannel *)
  | Working (deferred : nat) (topic : string)    (* inside getTopicMetrics *)
  | Exited.

Inductive Variant := Current | Old.

Record Pool := mkPool {
  prog : list Instr;
  workers : list Worker;
  closed : bool;
  wg : Z;
  handled : list string
}.

Inductive step (v : Variant) : Pool → Pool → Prop :=
  | step_spawn n rest ws cl w hd :
      step v (mkPool (Spawn n :: rest) ws cl w hd)
             (mkPool rest (ws ++ replicate (Z.to_nat n) (Receiving 0)) cl w hd)
  | step_add topic rest ws cl w hd :
      step v (mkPool (Send topic :: rest) ws cl w hd)
             (mkPool (Sending topic :: rest) ws cl (w + 1) hd)
  | step_send topic rest ws w hd i d :
      ws !! i = Some (Receiving d) →
      step v (mkPool (Sending topic :: rest) ws false w hd)
             (mkPool rest (<[i := Working d topic]> ws) false w hd)
  | step_finish p ws cl w hd i d topic :
      ws !! i = Some (Working d topic) →
      step v (mkPool p ws cl w hd)
             (match v with
              | Current => mkPool p (<[i := Receiving d]> ws) cl (w - 1) (hd ++ [topic])
              | Old => mkPool p (<[i := Receiving (S d)]> ws) cl w (hd ++ [topic])
              end)
  | step_close rest ws cl w hd :
      step v (mkPool (Close :: rest) ws cl w hd) (mkPool rest ws true w hd)
  | step_exit p ws w hd i d :
      ws !! i = Some (Receiving d) →
      step v (mkPool p ws true w hd)
             (mkPool p (<[i := Exited]> ws) true (w - Z.of_nat d) hd)
  | step_wait rest ws cl hd :
      step v (mkPool (Wait :: rest) ws cl 0 hd) (mkPool rest ws cl 0 hd).

(** Every execution from [s] brings the producer to the end of its
    program: no execution gets stuck before, none goes on forever. *)
Inductive terminates (v : Variant) : Pool → Prop :=
  | terminates_done s : prog s = [] → terminates v s
  | terminates_step s :
      (∃ s', step v s s') →
      (∀ s', step v s s' → terminates v s') →
      terminates v s.

Definition start (p : list Instr) : Pool := mkPool p [] false 0 [].

(** The producer of [exporter/exporter.go]: workers first. *)
Definition program (e : Exporter) (topics : list string) : list Instr :=
  Spawn (Pipeline.poolSize e topics) ::
  map Send (Pipeline.enqueued e topics) ++ [Close; Wait].

(** The producer of the older variant: it sends first. *)
Definition programOld (e : Exporter) (topics : list string) : list Instr :=
  map Send (Legacy.enqueued e topics) ++
  [Spawn (Pipeline.poolSize e topics); Close; Wait].

(** The measure that every step decreases. *)
Definition instrWeight (i : Instr) : nat :=
  match i with
  | Spawn n => S (Z.to_nat n)
  | Send _ => 3
  | Sending _ => 2
  | Close => 1
  | Wait => 1
  end.

Definition workerWeight (w : Worker) : nat :=
  match w with
  | Working _ _ => 2
  | Receiving _ => 1
  | Exited => 0
  end.

Definition weight (s : Pool) : nat :=
  (sum_list_with instrWeight (prog s) + sum_list_with workerWeight (workers s))%nat.

Definition busy (w : Worker) : nat :=
  match w with Working _ _ => 1 | _ => 0 end.

(** The number of workers inside [getTopicMetrics]. *)
Definition working (ws : list Worker) : nat := sum_list_with busy ws.

(** A worker of [exporter/exporter.go] that has not returned: it defers
    nothing. *)
Definition live (w : Worker) : Prop :=
  match w with
  | Receiving d | Working d _ => d = 0%nat
  | Exited => False
  end.

Definition calm (w : Worker) : Prop :=
  match w with
  | Receiving d | Working d _ => d = 0%nat
  | Exited => True
  end.

(** The states the pool of [exporter/exporter.go] goes through. *)
Inductive PoolInv : Pool → Prop :=
  | inv_start n sends hd :
      1 ≤ n ∨ sends = [] →
      PoolInv (mkPool (Spawn n :: map Send sends ++ [Close; Wait]) [] false 0 hd)
  | inv_sending sends ws hd :
      ws ≠ [] ∨ sends = [] → Forall live ws →
      PoolInv (mkPool (map Send sends ++ [Close; Wait]) ws false
                 (Z.of_nat (working ws)) hd)
  | inv_announced topic sends ws hd :
      ws ≠ [] → Forall live ws →
      PoolInv (mkPool (Sending topic :: map Send sends ++ [Close; Wait]) ws false
                 (Z.of_nat (working ws) + 1) hd)
  | inv_draining ws hd :
      Forall calm ws →
      PoolInv (mkPool [Wait] ws true (Z.of_nat (working ws)) hd)
  | inv_done ws cl w hd :
      PoolInv (mkPool [] ws cl w hd).

End TopicPool.

(** ** The body of [collectChans]: the helper goroutine and the replay

    [collectChans] runs [e.collect] on the unbuffered channel [original]; a
    helper goroutine receives from [original] and appends to the variable
    [container]; after [e.collect] has returned, the goroutine of
    [collectChans] sends, for each sink in turn, the metrics [container]
    holds at that moment. The helper and that goroutine share [container]
    without synchronisation, so their steps interleave freely. *)

Module CollectChans.

Record State := mkState {
  pendingSends : list Metric;   (* what e.collect still has to send on original *)
  held : option Metric;
    (* the metric the helper goroutine has received and not appended yet *)
  container : list Metric;      (* the variable container *)
  returned : bool;              (* e.collect has returned *)
  unserved : list nat;          (* the sinks of e.sgChans the replay has not reached *)
  replayed : list (nat * list Metric)   (* what each sink reached was sent *)
}.

Inductive Action :=
  | Send
      (* e.collect sends on original and the helper goroutine, blocked in the
         range over original, receives *)
  | Append
      (* the helper goroutine: container = append(container, metric) *)
  | Return
      (* e.collect returns; close(original); e.sgMutex.Lock() *)
  | Serve.
      (* for _, metric := range container { ch <- metric } for the next sink:
         the range evaluates container once, so an append during the loop
         does not change what this sink is sent *)

Definition step (s : State) (a : Action) : option State :=
  match a with
  | Send =>
      match returned s, pendingSends s, held s with
      | false, metric :: rest, None =>
          Some (mkState rest (Some metric) (container s) false (unserved s) (replayed s))
      | _, _, _ => None
      end
  | Append =>
      match held s with
      | Some metric =>
          Some (mkState (pendingSends s) None (container s ++ [metric]) (returned s)
                  (unserved s) (replayed s))
      | None => None
      end
  | Return =>
      match returned s, pendingSends s with
      | false, [] =>
          Some (mkState [] (held s) (container s) true (unserved s) (replayed s))
      | _, _ => None
      end
  | Serve =>
      match returned s, unserved s with
      | true, ch :: rest =>
          Some (mkState (pendingSends s) (held s) (container s) true rest
                  (replayed s ++ [(ch, container s)]))
      | _, _ => None
      end
  end.

Fixpoint run (s : State) (acts : list Action) : option State :=
  match acts with
  | [] => Some s
  | a :: rest => s' ← step s a; run s' rest
  end.

(** [collectChans] when the helper goroutine is started, for the metrics
    that [e.collect] is going to send and the sinks registered when the
    replay starts. *)
Definition start (metrics : list Metric) (chans : list nat) : State :=
  mkState metrics None [] false chans [].

(** The schedule in which the helper goroutine appends each of [n] metrics
    as soon as it has received it, except the last one, which it appends
    after [late] of the [k] sinks are served. *)
Definition lateAppend (n late k : nat) : list Action :=
  concat (replicate (n - 1) [Send; Append]) ++ [Send; Return] ++
  replicate late Serve ++ [Append] ++ replicate (k - late) Serve.

End CollectChans.

(** ** The scrape coalescer: [Collect] and [collectChans]

    The critical sections that [sgMutex] makes atomic are the transitions
    of a state machine. A sink is the channel a scraper passes to
    [Collect]; sinks and wait channels are named by numbers. *)

Module Coalescer.

Record State := mkState {
  sgChans : list nat;                  (* e.sgChans *)
  sgWaitCh : option nat;               (* e.sgWaitCh *)
  fresh : nat;                         (* the next channel make() returns *)
  closedChs : list nat;                (* wait channels closed so far *)
  running : list nat;                  (* collectChans goroutines, by their quit channel *)
  waiting : list (nat * option nat);   (* scrapers blocked in <-waiter: (sink, waiter) *)
  sent : list (nat * list Metric)      (* what each broadcast sent: (sink, metrics) *)
}.

Definition init : State := mkState [] None 0 [] [] [] [].

Inductive Action :=
  | Arrive (ch : nat)
      (* a scraper runs the critical section of Collect(ch) and blocks on the waiter *)
  | Finish (quit : nat) (collected : list Metric) (late : nat)
      (* collectChans(quit): e.collect has sent [collected] on [original]; the
         broadcast section runs, and the helper goroutine appends the last
         metric to [container] after [late] sinks have been served *)
  | Leave (ch : nat).
      (* a scraper blocked on a closed waiter returns from Collect *)

(** The critical section of [Collect] in serialized mode. *)
Definition arrive (s : State) (ch : nat) : State :=
  let chans := sgChans s ++ [ch] in
  if (length chans =? 1)%nat then
    let waiter := fresh s in
    mkState chans (Some waiter) (S (fresh s)) (closedChs s) (running s ++ [waiter])
      (waiting s ++ [(ch, Some waiter)]) (sent s)
  else
    mkState chans (sgWaitCh s) (fresh s) (closedChs s) (running s)
      (waiting s ++ [(ch, sgWaitCh s)]) (sent s).

(** The variable [container] of [collectChans] when the sink of position
    [i] in [e.sgChans] is served. The helper goroutine appends a metric
    after it has received it from [original] and before it receives the
    next one; nothing orders the append of the last metric with the return
    of [e.collect] and the loop over the sinks, which reads [container]
    anew for every sink. These are the outcomes of the executions of
    [CollectChans]. *)
Definition containerAt (collected : list Metric) (late i : nat) : list Metric :=
  if (i <? late)%nat then removelast collected else collected.

(** The critical section of [collectChans]: replay [container] to every
    registered sink, reset the slice, close [quit]. *)
Definition broadcast (s : State) (quit : nat) (collected : list Metric) (late : nat)
    : State :=
  mkState [] (sgWaitCh s) (fresh s) (closedChs s ++ [quit])
    (filter (λ q, q ≠ quit) (running s)) (waiting s)
    (sent s ++ imap (λ i ch, (ch, containerAt collected late i)) (sgChans s)).

(** The scraper of sink [ch] waits on a channel that is closed. *)
Definition released (s : State) (ch : nat) (cw : nat * option nat) : bool :=
  bool_decide (cw.1 = ch) &&
  match cw.2 with
  | Some waiter => bool_decide (waiter ∈ closedChs s)
  | None => false
  end.

Definition step (s : State) (a : Action) : option State :=
  match a with
  | Arrive ch => Some (arrive s ch)
  | Finish quit collected late =>
      if bool_decide (quit ∈ running s) then Some (broadcast s quit collected late)
      else None
  | Leave ch =>
      match list_find (λ cw, released s ch cw = true) (waiting s) with
      | Some (i, _) =>
          Some (mkState (sgChans s) (sgWaitCh s) (fresh s) (closedChs s) (running s)
                  (delete i (waiting s)) (sent s))
      | None => None
      end
  end.

Fixpoint run (s : State) (acts : list Action) : option State :=
  match acts with
  | [] => Some s
  | a :: rest => s' ← step s a; run s' rest
  end.

Definition reachable (s : State) : Prop := ∃ acts, run init acts = Some s.

(** Everything sent on a sink, in order. *)
Definition received (s : State) (ch : nat) : list Metric :=
  flat_map (λ cm, if bool_decide (cm.1 = ch) then cm.2 else []) (sent s).

(** Sinks are registered exactly while a collection is in flight, and
    [sgWaitCh] is the quit channel of that collection. *)
Definition CoalescerInv (s : State) : Prop :=
  match running s with
  | [] => sgChans s = []
  | [quit] => sgChans s ≠ [] ∧ sgWaitCh s = Some quit
  | _ => False
  end.

End Coalescer.

(** ** The pruner *)

Module Pruner.

(** What the [select] of [RunPruner] receives: a tick of the ticker, with
    the outcome of [sarama.NewClient] on that tick, or the quit signal. *)
Inductive Signal :=
  | Tick (session : option Client)
  | QuitSignal.

Inductive PrunerState :=
  | Selecting          (* in the loop, blocked in select *)
  | ReturnedOnError    (* returned after a failed NewClient; the ticker is not stopped *)
  | Stopped.           (* returned after quit, ticker stopped *)

Section RunPruner.

(** [interpolationMap.Prune(logger, client, maxOffsets)]; the file that
    defines [interpolationMap] is not among the sources, so the function is
    a parameter. *)
Variable Prune : Client → Z → IMap → IMap.

Variable MaxOffsets : Z.

Fixpoint RunPruner (signals : list Signal) (iMap : IMap) : IMap * PrunerState :=
  match signals with
  | [] => (iMap, Selecting)
  | Tick None :: _ => (iMap, ReturnedOnError)
  | Tick (Some client) :: rest => RunPruner rest (Prune client MaxOffsets iMap)
  | QuitSignal :: _ => (iMap, Stopped)
  end.

(** The loop the specification describes: a failed tick is skipped. *)
Fixpoint RunPrunerSpec (signals : list Signal) (iMap : IMap) : IMap * PrunerState :=
  match signals with
  | [] => (iMap, Selecting)
  | Tick None :: rest => RunPrunerSpec rest iMap
  | Tick (Some client) :: rest => RunPrunerSpec rest (Prune client MaxOffsets iMap)
  | QuitSignal :: _ => (iMap, Stopped)
  end.

End RunPruner.

End Pruner.

(** ** Construction of the exporter: [CanReadCertAndKey], [initializeMetrics]
    and [Describe] *)

Module Config.

(** [canReadFile]: whether [os.Open(path)] succeeds. The file system is the
    parameter [readable]. *)
Definition canReadFile (readable : string → bool) (path : string) : bool :=
  if readable path then true else false.

(** [CanReadCertAndKey]: the boolean and the error, [None] for [nil]. *)
Definition CanReadCertAndKey (readable : string → bool) (certPath keyPath : string)
    : bool * option string :=
  let certReadable := canReadFile readable certPath in
  let keyReadable := canReadFile readable keyPath in
  if negb certReadable && negb keyReadable then (false, None)
  else if negb certReadable then
    (false, Some ("error reading " ++ certPath ++
                  ", certificate and key must be supplied as a pair")%string)
  else if negb keyReadable then
    (false, Some ("error reading " ++ keyPath ++
                  ", certificate and key must be supplied as a pair")%string)
  else (true, None).

(** [strings.Split(s, sep)] for a separator of one byte: the substrings
    between the separators, a single [s] when there is none. The result is
    never empty, so the last branch is never taken. *)
Fixpoint Split (s : string) (sep : Ascii.ascii) : list string :=
  match s with
  | EmptyString => [EmptyString]
  | String c rest =>
      if Ascii.eqb c sep then EmptyString :: Split rest sep
      else
        match Split rest sep with
        | first :: others => String c first :: others
        | [] => [String c EmptyString]
        end
  end.

(** The bytes [,] and [=]. *)
Definition comma : Ascii.ascii := Ascii.ascii_of_nat 44.
Definition equals : Ascii.ascii := Ascii.ascii_of_nat 61.

(** The map [labels] that [initializeMetrics] builds from
    [e.kafkaOpts.Labels]. *)
Definition parseLabels (Labels : string) : gmap string string :=
  if String.eqb Labels "" then ∅
  else
    foldl (λ labels label,
             match Split label equals with
             | key :: value :: _ => <[key := value]> labels
             | _ => labels
             end)
          ∅ (Split Labels comma).

(** [prometheus.BuildFQName]. *)
Definition BuildFQName (namespace subsystem name : string) : string :=
  if String.eqb name "" then ""%string
  else if negb (String.eqb namespace "") && negb (String.eqb subsystem "") then
    (namespace ++ "_" ++ subsystem ++ "_" ++ name)%string
  else if negb (String.eqb namespace "") then (namespace ++ "_" ++ name)%string
  else if negb (String.eqb subsystem "") then (subsystem ++ "_" ++ name)%string
  else name.

Definition namespace : string := "kafka".

(** What [prometheus.NewDesc] is given. *)
Record DescInfo := NewDesc {
  fqName : string;
  help : string;
  variableLabels : list string;
  constLabels : gmap string string
}.

(** [initializeMetrics]: the descriptor assigned to each package variable. *)
Definition initializeMetrics (Labels : string) (d : Desc) : DescInfo :=
  let labels := parseLabels Labels in
  match d with
  | clusterBrokers =>
      NewDesc (BuildFQName namespace "" "brokers")
        "Number of Brokers in the Kafka Cluster." [] labels
  | clusterBrokerInfo =>
      NewDesc (BuildFQName namespace "" "broker_info")
        "Information about the Kafka Broker." ["id"; "address"] labels
  | topicPartitions =>
      NewDesc (BuildFQName namespace "topic" "partitions")
        "Number of partitions for this Topic" ["topic"] labels
  | topicCurrentOffset =>
      NewDesc (BuildFQName namespace "topic" "partition_current_offset")
        "Current Offset of a Broker at Topic/Partition" ["topic"; "partition"] labels
  | topicOldestOffset =>
      NewDesc (BuildFQName namespace "topic" "partition_oldest_offset")
        "Oldest Offset of a Broker at Topic/Partition" ["topic"; "partition"] labels
  | topicPartitionLeader =>
      NewDesc (BuildFQName namespace "topic" "partition_leader")
        "Leader Broker ID of this Topic/Partition" ["topic"; "partition"] labels
  | topicPartitionReplicas =>
      NewDesc (BuildFQName namespace "topic" "partition_replicas")
        "Number of Replicas for this Topic/Partition" ["topic"; "partition"] labels
  | topicPartitionInSyncReplicas =>
      NewDesc (BuildFQName namespace "topic" "partition_in_sync_replica")
        "Number of In-Sync Replicas for this Topic/Partition" ["topic"; "partition"] labels
  | topicPartitionUsesPreferredReplica =>
      NewDesc (BuildFQName namespace "topic" "partition_leader_is_preferred")
        "1 if Topic/Partition is using the Preferred Broker" ["topic"; "partition"] labels
  | topicUnderReplicatedPartition =>
      NewDesc (BuildFQName namespace "topic" "partition_under_replicated_partition")
        "1 if Topic/Partition is under Replicated" ["topic"; "partition"] labels
  | consumergroupCurrentOffset =>
      NewDesc (BuildFQName namespace "consumergroup" "current_offset")
        "Current Offset of a ConsumerGroup at Topic/Partition"
        ["consumergroup"; "topic"; "partition"] labels
  | consumergroupCurrentOffsetSum =>
      NewDesc (BuildFQName namespace "consumergroup" "current_offset_sum")
        "Current Offset of a ConsumerGroup at Topic for all partitions"
        ["consumergroup"; "topic"] labels
  | consumergroupLag =>
      NewDesc (BuildFQName namespace "consumergroup" "lag")
        "Current Approximate Lag of a ConsumerGroup at Topic/Partition"
        ["consumergroup"; "topic"; "partition"] labels
  | consumergroupLagZookeeper =>
      NewDesc (BuildFQName namespace "consumergroupzookeeper" "lag_zookeeper")
        "Current Approximate Lag(zookeeper) of a ConsumerGroup at Topic/Partition"
        ["consumergroup"; "topic"; "partition"] ∅
  | consumergroupLagSum =>
      NewDesc (BuildFQName namespace "consumergroup" "lag_sum")
        "Current Approximate Lag of a ConsumerGroup at Topic for all partitions"
        ["consumergroup"; "topic"] labels
  | consumergroupMembers =>
      NewDesc (BuildFQName namespace "consumergroup" "members")
        "Amount of members in a consumer group" ["consumergroup"] labels
  | topicPartitionLagMillis =>
      NewDesc (BuildFQName namespace "consumer_lag" "millis")
        "Current approximation of consumer lag for a ConsumerGroup at Topic/Partition"
        ["consumergroup"; "topic"; "partition"] labels
  | lagDatapointUsedInterpolation =>
      NewDesc (BuildFQName namespace "consumer_lag" "interpolation")
        "Indicates that a consumer group lag estimation used interpolation"
        ["consumergroup"; "topic"; "partition"] labels
  | lagDatapointUsedExtrapolation =>
      NewDesc (BuildFQName namespace "consumer_lag" "extrapolation")
        "Indicates that a consumer group lag estimation used extrapolation"
        ["consumergroup"; "topic"; "partition"] labels
  end.

(** [Describe]: the descriptors sent on the channel, in order. *)
Definition Describe : list Desc :=
  [ clusterBrokers; clusterBrokerInfo; topicPartitions; topicCurrentOffset;
    topicOldestOffset; topicPartitionLeader; topicPartitionReplicas;
    topicPartitionInSyncReplicas; topicPartitionUsesPreferredReplica;
    topicUnderReplicatedPartition; consumergroupCurrentOffset;
    consumergroupCurrentOffsetSum; consumergroupLag; consumergroupLagSum;
    consumergroupLagZookeeper; consumergroupMembers; topicPartitionLagMillis;
    lagDatapointUsedInterpolation; lagDatapointUsedExtrapolation ].

End Config.

(** * Definitions used to state the properties *)

Import LagEstimator Pipeline.

(** What [getNextHigherOffset] maintains for [max]: it is a sample of a
    position at least 1, and unless it is the last sample, the sample before
    it is already at least [k]. *)
Definition upper_inv (offsets : list Z) (k : Z) (x : Z) : Prop :=
  ∃ i, offsets !! i = Some x ∧ (1 ≤ i)%nat ∧
       (S i = length offsets ∨ ∃ prev, offsets !! (i - 1)%nat = Some prev ∧ k ≤ prev).

(** What [getNextLowerOffset] maintains for [min]. *)
Definition lower_inv (offsets : list Z) (k : Z) (x : Z) : Prop :=
  ∃ j, offsets !! j = Some x ∧ (S j < length offsets)%nat ∧
       (j = 0%nat ∨ ∃ next, offsets !! S j = Some next ∧ next ≤ k).

(** The bounds the specification describes, on an increasing list: the
    smallest sample at least [c] and the largest sample below [c]. *)
Definition tightUpper (offsets : list Z) (c : Z) : option Z :=
  head (filter (λ p, c ≤ p) offsets).

Definition tightLower (offsets : list Z) (c : Z) : option Z :=
  last (filter (λ p, p < c) offsets).

(** The extrapolation formula as the specification writes it,
    [t(H)_ms − (H − c)·(t(H) − t(L))_ms/(H − L)]: differences of offsets are
    int64 differences, the difference of instants is a duration, and the
    product and the quotient are taken in double precision. *)
Definition extrapolated_px (tH tL : Time) (H L c : Z) : float :=
  PrimFloat.sub (float64 (unixMillis tH))
    (PrimFloat.div
       (PrimFloat.mul (float64 (sub64 H c)) (float64 (Milliseconds (Sub tH tL))))
       (float64 (sub64 H L))).

(** The events of one iteration of the loop over the partitions of a block. *)
Definition partitionEvents (offset : OffsetMap) (group topic : string)
    (pb : Z * OffsetFetchResponseBlock) : list Event :=
  (Pipeline.groupPartitionMetrics offset group topic pb.1 pb.2 (0, 0)).1.

(** A metric labelled with the key (group, topic, partition). *)
Definition labelled (group topic : string) (partition : Z) (ev : Event) : Prop :=
  ∃ d ty v, ev = Emit (MustNewConstMetric d ty v [group; topic; FormatInt partition]).

(** Whether a metric is labelled with a key is decidable. *)
#[local] Instance labelled_dec group topic partition ev :
  Decision (labelled group topic partition ev).
Proof.
  destruct ev as [[d ty v labels] | msg | g t p o |].
  - destruct (decide (labels = [group; topic; FormatInt partition])) as [-> | Hne].
    + left. by exists d, ty, v.
    + right. intros (d' & ty' & v' & Heq). inversion Heq. by subst.
  - right. by intros (d' & ty' & v' & Heq).
  - right. by intros (d' & ty' & v' & Heq).
  - right. by intros (d' & ty' & v' & Heq).
Defined.

(** A call of [createOrUpdate]. *)
Definition is_update (ev : Event) : Prop :=
  match ev with CreateOrUpdate _ _ _ _ => True | _ => False end.

(** What [getTopicMetrics] emits and logs for a topic. *)
Definition topicEvents (e : Exporter) (topic : string) : list Event :=
  (Pipeline.getTopicMetrics e topic ∅).1.




(** The offset map that the topic pass of a scrape hands to the
    consumer-group pass. *)
Definition offsetsOf (e : Exporter) (topics : list string) : OffsetMap :=
  (Pipeline.topicPhase e (Pipeline.enqueued e topics) ∅).2.



(** [v] is the newest offset the client reports for a partition of a topic
    that the topic pass handles. *)
Definition newestOf (e : Exporter) (topic : string) (partition v : Z) : Prop :=
  topicFilter e topic = true ∧ topicExclude e topic = false ∧
  ∃ parts, Partitions (client e) topic = Some parts ∧ partition ∈ parts ∧
           GetOffset (client e) topic partition OffsetNewest = Some v.

(** ** A small cluster to evaluate the code on *)

Definition committedBlocks (committed : Z) (req : gmap string (list Z))
    : OffsetFetchResponse :=
  mkResponse
    ((λ parts : list Z,
        list_to_map (map (λ p, (p, mkBlock committed ErrNoError)) parts)) <$> req).

Definition sampleBroker : Broker :=
  mkBroker 1 "kafka-1:9092" OpenOk
    (Some {[ "g" := "consumer" ]})
    (λ ids, Some (map (λ id,
        mkGroup id [mkMember (Assigned {[ "orders" := [0]; "internal" := [0] ]})]) ids))
    (λ req, Some (committedBlocks 40 (partitions req))).

Definition sampleClient (topics : option (list string)) : Client :=
  mkClient [sampleBroker] true topics
    (λ _, Some [0])
    (λ _ _, Some sampleBroker)
    (λ _ _ kind, Some match kind with OffsetNewest => 100 | OffsetOldest => 0 end)
    (λ _ _, (Some [1; 2; 3], false))
    (λ _ _, (Some [1; 2; 3], false))
    (Some (mkAdmin (λ _ req, (Some (committedBlocks 40 req), false)))).

(** Include everything, exclude the topic ["internal"], 100 topic workers. *)
Definition sampleExporter (topics : option (list string)) (workers : Z) : Exporter :=
  mkExporter (sampleClient topics)
    (λ _, true) (String.eqb "internal") (λ _, true) (λ _, false)
    false (mkKazoo ([], false)) (mkTime 0) 30000000000 false workers false ∅.

Definition sampleClock : Clock :=
  mkClock (mkTime 1000000000) (λ _ _ _, mkTime 2000000000) (λ _ _ _, mkTime 3000000000).

(** The timeline of the interpolation and extrapolation scenarios of the
    specification: offsets 100, 200 and 300 sampled ten seconds apart. *)
Definition scenarioTimeline : gmap Z Time :=
  {[ 100 := mkTime 0; 200 := mkTime 10000000000; 300 := mkTime 20000000000 ]}.

(** A timeline table that holds that entry for the key (g, orders, 0). *)
Definition scenarioTable : IMap := {[ "g" := {[ "orders" := {[ 0 := scenarioTimeline ]} ]} ]}.

(** ** Counting samples *)

(** The number of samples below [k], and of samples at most [k]. *)
Definition samplesBelow (offsets : list Z) (k : Z) : nat :=
  length (filter (λ p, p < k) offsets).

Definition samplesUpTo (offsets : list Z) (k : Z) : nat :=
  length (filter (λ p, p ≤ k) offsets).

(** ** A client that only serves the lag pass *)

(** No broker and no topic; the cluster admin reports [committed] for every
    partition it is asked about. *)
Definition lagClient (committed : Z) : Client :=
  mkClient [] true None (λ _, None) (λ _ _, None) (λ _ _ _, None) (λ _ _, (None, true))
    (λ _ _, (None, true))
    (Some (mkAdmin (λ _ req, (Some (committedBlocks committed req), false)))).

Definition lagExporter (committed : Z) : Exporter :=
  mkExporter (lagClient committed) (λ _, true) (λ _, false) (λ _, true) (λ _, false)
    false (mkKazoo ([], false)) (mkTime 0) 0 false 1 false ∅.

(** A clock that reads thirty seconds at each lag computation. *)
Definition lagClock : Clock :=
  mkClock (mkTime 0) (λ _ _ _, mkTime 0) (λ _ _ _, mkTime 30000000000).

(** ** The consumer-group pass *)

(** [partition] is among the partitions an [OffsetFetchRequest] asks for
    under [topic]. *)
Definition requested (req : OffsetFetchRequest) (topic : string) (partition : Z) : Prop :=
  partition ∈ default [] (partitions req !! topic).

Definition sumZ (l : list Z) : Z := foldr Z.add 0 l.

(** The committed offsets of the blocks that carry no error. *)
Definition committedOffsets (blocks : list (Z * OffsetFetchResponseBlock)) : list Z :=
  omap (λ pb : Z * OffsetFetchResponseBlock,
          match Err pb.2 with
          | ErrNoError => Some (Offset pb.2)
          | KErr _ => None
          end) blocks.

(** The differences newest − committed of the blocks that carry no error,
    have a committed offset other than −1 and a partition recorded in the
    offset map. *)
Definition partitionLags (offset : OffsetMap) (topic : string)
    (blocks : list (Z * OffsetFetchResponseBlock)) : list Z :=
  omap (λ pb : Z * OffsetFetchResponseBlock,
          match Err pb.2, lookupOffset offset topic pb.1 with
          | ErrNoError, Some newest =>
              if Offset pb.2 =? -1 then None else Some (newest - Offset pb.2)
          | _, _ => None
          end) blocks.

(** Some partition of the response block has a committed offset. *)
Definition topicConsumed (parts : gmap Z OffsetFetchResponseBlock) : Prop :=
  ∃ p b, parts !! p = Some b ∧ Offset b ≠ -1.

(** ** Definitions used to state the properties of the construction *)

(** The byte [c] occurs in [s]. *)
Fixpoint occurs (c : Ascii.ascii) (s : string) : bool :=
  match s with
  | EmptyString => false
  | String c' rest => Ascii.eqb c' c || occurs c rest
  end.

(** A label key or value that contains neither separator. *)
Definition plain (s : string) : Prop := occurs Config.comma s = false ∧ occurs Config.equals s = false.

(** The [key=value] form of a label. *)
Definition renderLabel (kv : string * string) : string := (kv.1 ++ "=" ++ kv.2)%string.

(** The option string that spells out a list of labels. *)
Definition renderLabels (kvs : list (string * string)) : string :=
  String.concat "," (map renderLabel kvs).

(** A metric carries as many label values as its descriptor declares
    variable labels; [prometheus.MustNewConstMetric] panics otherwise. *)
Definition wellLabelled (Labels : string) (ev : Event) : Prop :=
  match ev with
  | Emit m =>
      length (m_labels m) =
      length (Config.variableLabels (Config.initializeMetrics Labels (m_desc m)))
  | _ => True
  end.

(** Equality of descriptors is decidable. *)
#[local] Instance Desc_eq_dec : EqDecision Desc.
Proof. solve_decision. Defined.

(** ** Where the topics of the pool are *)

(** The topic a worker is handling, if any. *)
Definition flight (w : TopicPool.Worker) : list string :=
  match w with
  | TopicPool.Working _ topic => [topic]
  | _ => []
  end.

(** The topics in the hands of the workers. *)
Definition inFlight (ws : list TopicPool.Worker) : list string := flat_map flight ws.

(** The topics the producer still has to send. *)
Definition toSend (p : list TopicPool.Instr) : list string :=
  flat_map (λ i, match i with
                 | TopicPool.Send topic | TopicPool.Sending topic => [topic]
                 | _ => []
                 end) p.

(** The calls of [wg.Add(1)] whose topic no worker has received yet: one
    while the producer is blocked in the send that follows the call. *)
Definition announced (p : list TopicPool.Instr) : nat :=
  match p with
  | TopicPool.Sending _ :: _ => 1
  | _ => 0
  end.

Definition notSending (i : TopicPool.Instr) : Prop :=
  match i with
  | TopicPool.Sending _ => False
  | _ => True
  end.

(** What the pool of [exporter/exporter.go] keeps true of the topics [queue]
    it was started for. *)
Definition Accounted (queue : list string) (s : TopicPool.Pool) : Prop :=
  TopicPool.handled s ++ inFlight (TopicPool.workers s) ++ toSend (TopicPool.prog s)
    ≡ₚ queue ∧
  TopicPool.wg s =
    Z.of_nat (length (inFlight (TopicPool.workers s)) + announced (TopicPool.prog s)) ∧
  Forall TopicPool.calm (TopicPool.workers s) ∧
  Forall notSending (tail (TopicPool.prog s)) ∧
  (TopicPool.prog s ≠ [] → last (TopicPool.prog s) = Some TopicPool.Wait) ∧
  (TopicPool.prog s = [] → inFlight (TopicPool.workers s) = []).

(** ** What the replay of [collectChans] keeps true *)

(** The metrics are in [container], in the hands of the helper goroutine or
    still to be sent, in their order. While the helper holds the last
    metric every sink served was sent the others; once it has appended it,
    the sinks served after the append are sent all of them. *)
Definition ReplayInv (metrics : list Metric) (chans : list nat) (s : CollectChans.State)
    : Prop :=
  ∃ served,
    chans = served ++ CollectChans.unserved s ∧
    CollectChans.container s ++ option_list (CollectChans.held s) ++
      CollectChans.pendingSends s = metrics ∧
    if CollectChans.returned s then
      CollectChans.pendingSends s = [] ∧
      match CollectChans.held s with
      | Some _ =>
          CollectChans.replayed s = map (λ ch, (ch, CollectChans.container s)) served
      | None =>
          ∃ late, (late ≤ length served)%nat ∧
                  CollectChans.replayed s =
                    imap (λ i ch, (ch, Coalescer.containerAt metrics late i)) served
      end
    else served = [] ∧ CollectChans.replayed s = [].

(** ** What the coalescer keeps true of the waiting scrapers *)

(** Wait channels are closed only after they were made; a collection in
    flight has an open quit channel; and a scraper waits on a channel that
    is closed, after a broadcast to its sink, or is the quit channel of a
    collection in flight that its sink is registered with. *)
Definition Served (s : Coalescer.State) : Prop :=
  (∀ w, w ∈ Coalescer.closedChs s → (w < Coalescer.fresh s)%nat) ∧
  (∀ q, q ∈ Coalescer.running s →
        (q < Coalescer.fresh s)%nat ∧ q ∉ Coalescer.closedChs s) ∧
  (∀ ch wo, (ch, wo) ∈ Coalescer.waiting s →
     ∃ w, wo = Some w ∧
          (w ∈ Coalescer.closedChs s → ∃ container, (ch, container) ∈ Coalescer.sent s) ∧
          (w ∉ Coalescer.closedChs s →
           w ∈ Coalescer.running s ∧ ch ∈ Coalescer.sgChans s)).

(** * Properties *)

(** ** Machine arithmetic *)

Lemma wrap64_exact z : in_int64 z → wrap64 z = z.
Proof.
  unfold in_int64, wrap64, int64_min, int64_max. intros Hz.
  rewrite Z.mod_small; lia.
Qed.

Lemma sub64_exact a b : in_int64 (a - b) → sub64 a b = a - b.
Proof. apply wrap64_exact. Qed.

Lemma sub64_nonzero a b : in_int64 a → in_int64 b → a ≠ b → sub64 a b ≠ 0.
Proof.
  unfold in_int64, sub64, wrap64, int64_min, int64_max. intros Ha Hb Hne Hz.
  pose proof (Z.div_mod (a - b + 2 ^ 63) (2 ^ 64) ltac:(lia)) as Hdm.
  pose proof (Z.mod_pos_bound (a - b + 2 ^ 63) (2 ^ 64) ltac:(lia)) as Hbd.
  lia.
Qed.

(** ** The bounds computed by the estimator *)

Section Bounds.

Variable offsets : list Z.
Variable k : Z.

Lemma higherLoop_inv index max :
  (index < length offsets)%nat → upper_inv offsets k max →
  ∃ U, higherLoop offsets k index max = Some U ∧ upper_inv offsets k U.
Proof.
  revert max. induction index as [|index IH]; intros max Hlt Hmax; simpl.
  - eauto.
  - destruct (k <=? max) eqn:Hk; [|eauto].
    destruct (lookup_lt_is_Some_2 offsets index ltac:(lia)) as [prev Hprev].
    rewrite Hprev. simpl.
    destruct (prev <? k) eqn:Hpk; [eauto|].
    destruct (lookup_lt_is_Some_2 offsets (S index) ltac:(lia)) as [cur Hcur].
    rewrite Hcur. simpl.
    apply IH; [lia|].
    exists (S index). split; [done|]. split; [lia|]. right.
    exists prev. replace (S index - 1)%nat with index by lia.
    split; [done|]. lia.
Qed.

Lemma getNextHigherOffset_inv :
  (2 ≤ length offsets)%nat →
  ∃ U, getNextHigherOffset offsets k = Some U ∧ upper_inv offsets k U.
Proof.
  intros Hlen. unfold getNextHigherOffset.
  destruct (length offsets) as [|index] eqn:Hl; [lia|].
  destruct (lookup_lt_is_Some_2 offsets index ltac:(lia)) as [max Hmax].
  rewrite Hmax. simpl. apply higherLoop_inv; [lia|].
  exists index. split; [done|]. split; [lia|]. left. lia.
Qed.

Lemma lowerLoop_inv rem index min :
  (rem + index + 1 = length offsets)%nat → lower_inv offsets k min →
  ∃ D, lowerLoop offsets k rem index min = Some D ∧ lower_inv offsets k D.
Proof.
  revert index min. induction rem as [|rem IH]; intros index min Hlen Hmin; simpl.
  - eauto.
  - destruct (min <=? k) eqn:Hk; [|eauto].
    destruct (lookup_lt_is_Some_2 offsets (S index) ltac:(lia)) as [next Hnext].
    rewrite Hnext. simpl.
    destruct (k <? next) eqn:Hkn; [eauto|].
    destruct (lookup_lt_is_Some_2 offsets index ltac:(lia)) as [cur Hcur].
    rewrite Hcur. simpl.
    apply IH; [lia|].
    exists index. split; [done|]. split; [lia|]. right.
    exists next. split; [done|]. lia.
Qed.

Lemma getNextLowerOffset_inv :
  (2 ≤ length offsets)%nat →
  ∃ D, getNextLowerOffset offsets k = Some D ∧ lower_inv offsets k D.
Proof.
  intros Hlen. unfold getNextLowerOffset.
  destruct (lookup_lt_is_Some_2 offsets 0 ltac:(lia)) as [min Hmin].
  rewrite Hmin. simpl. apply lowerLoop_inv; [lia|].
  exists 0%nat. split; [done|]. split; [lia|]. by left.
Qed.

End Bounds.

(** In a strictly increasing list, positions and values are ordered alike. *)
Lemma sorted_lookup_lt (l : list Z) i j x y :
  StronglySorted Z.lt l → l !! i = Some x → l !! j = Some y → (i < j)%nat → x < y.
Proof.
  intros Hs. revert i j. induction Hs as [|a l Hs IH Hall]; intros i j Hi Hj Hij.
  - done.
  - destruct j as [|j]; [lia|]. simpl in Hj.
    destruct i as [|i]; simpl in Hi.
    + inversion Hi; subst. rewrite Forall_forall in Hall. apply Hall.
      by eapply list_elem_of_lookup_2.
    + eapply IH; eauto. lia.
Qed.

Lemma sorted_lookup_le_inv (l : list Z) i j x y :
  StronglySorted Z.lt l → l !! i = Some x → l !! j = Some y → x ≤ y → (i ≤ j)%nat.
Proof.
  intros Hs Hi Hj Hxy. destruct (decide (i ≤ j)%nat) as [|Hn]; [done|].
  pose proof (sorted_lookup_lt l j i y x Hs Hj Hi ltac:(lia)). lia.
Qed.

(** The two bounds are distinct samples, the upper one the larger. *)
Lemma bounds_strict (offsets : list Z) (k : Z) :
  StronglySorted Z.lt offsets → (2 ≤ length offsets)%nat →
  ∃ U D, getNextHigherOffset offsets k = Some U ∧
         getNextLowerOffset offsets k = Some D ∧
         U ∈ offsets ∧ D ∈ offsets ∧ D < U.
Proof.
  intros Hs Hlen.
  destruct (getNextHigherOffset_inv offsets k Hlen) as (U & HU & iU & HiU & H1 & Hup).
  destruct (getNextLowerOffset_inv offsets k Hlen) as (D & HD & jD & HjD & H2 & Hlo).
  exists U, D. repeat split; try done.
  - by eapply list_elem_of_lookup_2.
  - by eapply list_elem_of_lookup_2.
  - eapply (sorted_lookup_lt offsets jD iU); eauto.
    destruct Hup as [Hlast | (prev & Hprev & Hkp)]; [lia|].
    destruct Hlo as [-> | (next & Hnext & Hnk)]; [lia|].
    pose proof (sorted_lookup_le_inv offsets (S jD) (iU - 1) next prev Hs Hnext Hprev ltac:(lia)).
    lia.
Qed.

(** Beyond the newest sample the bounds are the last two samples. *)
Lemma lowerLoop_all_below (offsets : list Z) (k : Z) rem index min :
  (rem + index + 1 = length offsets)%nat →
  Forall (λ p, p ≤ k) offsets → min ≤ k →
  lowerLoop offsets k rem index min =
    match rem with
    | O => Some min
    | S _ => offsets !! (length offsets - 2)%nat
    end.
Proof.
  revert index min. induction rem as [|rem IH]; intros index min Hlen Hall Hmin; simpl.
  - done.
  - destruct (min <=? k) eqn:Hk; [|lia].
    destruct (lookup_lt_is_Some_2 offsets (S index) ltac:(lia)) as [next Hnext].
    destruct (lookup_lt_is_Some_2 offsets index ltac:(lia)) as [cur Hcur].
    rewrite Hnext, Hcur. simpl.
    assert (next ≤ k) by (rewrite Forall_forall in Hall; apply Hall;
                          by eapply list_elem_of_lookup_2).
    assert (cur ≤ k) by (rewrite Forall_forall in Hall; apply Hall;
                         by eapply list_elem_of_lookup_2).
    destruct (k <? next) eqn:Hkn; [lia|].
    rewrite IH by (done || lia).
    destruct rem; [|done].
    rewrite <- Hcur. f_equal. lia.
Qed.

Lemma bounds_beyond_last (offsets : list Z) (c last prev : Z) :
  StronglySorted Z.lt offsets → (2 ≤ length offsets)%nat →
  offsets !! (length offsets - 1)%nat = Some last →
  offsets !! (length offsets - 2)%nat = Some prev →
  last ≤ c →
  getNextHigherOffset offsets c = Some last ∧ getNextLowerOffset offsets c = Some prev.
Proof.
  intros Hs Hlen Hlast Hprev Hc. split.
  - unfold getNextHigherOffset.
    destruct (length offsets) as [|index] eqn:Hl; [lia|].
    replace (S index - 1)%nat with index in Hlast by lia.
    rewrite Hlast. simpl.
    destruct index as [|index]; [lia|]. simpl.
    destruct (c <=? last) eqn:Hcl; [|done].
    replace (S (S index) - 2)%nat with index in Hprev by lia.
    rewrite Hprev. simpl.
    pose proof (sorted_lookup_lt offsets index (S index) prev last Hs Hprev Hlast ltac:(lia)).
    destruct (prev <? c) eqn:Hpc; [done|lia].
  - unfold getNextLowerOffset.
    destruct (lookup_lt_is_Some_2 offsets 0 ltac:(lia)) as [min Hmin].
    rewrite Hmin. simpl.
    assert (Hall : Forall (λ p, p ≤ c) offsets).
    { rewrite Forall_forall. intros p Hp.
      apply list_elem_of_lookup_1 in Hp as [i Hi].
      pose proof (lookup_lt_Some _ _ _ Hi).
      destruct (decide (i = length offsets - 1)%nat) as [->|Hne].
      - rewrite Hlast in Hi. inversion Hi. lia.
      - pose proof (sorted_lookup_lt offsets i (length offsets - 1) p last Hs Hi Hlast
                      ltac:(lia)). lia. }
    rewrite (lowerLoop_all_below offsets c (length offsets - 1) 0 min); [|lia|done|].
    + destruct (length offsets - 1)%nat eqn:E; [lia|done].
    + rewrite Forall_forall in Hall. apply Hall. by eapply list_elem_of_lookup_2.
Qed.

(** X3. Between the oldest and the newest sample the two bounds enclose
    the committed offset. *)
Lemma bounds_enclose (offsets : list Z) (c p0 last : Z) :
  StronglySorted Z.lt offsets → (2 ≤ length offsets)%nat →
  offsets !! 0%nat = Some p0 → offsets !! (length offsets - 1)%nat = Some last →
  p0 ≤ c ≤ last →
  ∃ U D, getNextHigherOffset offsets c = Some U ∧
         getNextLowerOffset offsets c = Some D ∧ D ≤ c ≤ U.
Proof.
  intros Hs Hlen Hp0 Hlast Hc.
  destruct (getNextHigherOffset_inv offsets c Hlen) as (U & HU & iU & HiU & H1 & Hup).
  destruct (getNextLowerOffset_inv offsets c Hlen) as (D & HD & jD & HjD & H2 & Hlo).
  exists U, D. split; [done|]. split; [done|]. split.
  - destruct Hlo as [-> | (next & Hnext & Hnk)].
    + rewrite Hp0 in HjD. inversion HjD. lia.
    + pose proof (sorted_lookup_lt offsets jD (S jD) D next Hs HjD Hnext ltac:(lia)). lia.
  - destruct Hup as [Hl | (prev & Hprev & Hkp)].
    + replace (length offsets - 1)%nat with iU in Hlast by lia.
      rewrite Hlast in HiU. inversion HiU. lia.
    + pose proof (sorted_lookup_lt offsets (iU - 1) iU prev U Hs Hprev HiU ltac:(lia)).
      lia.
Qed.

(** ** The sorted keys of a timeline entry *)

Lemma sorted_le_NoDup_lt (l : list Z) :
  StronglySorted Z.le l → NoDup l → StronglySorted Z.lt l.
Proof.
  induction 1 as [|a l Hs IH Hall]; intros Hnd; [constructor|].
  apply NoDup_cons in Hnd as [Hnotin Hnd].
  constructor; [auto|].
  rewrite Forall_forall in Hall |- *. intros x Hx.
  assert (a ≠ x) by (intros ->; done).
  specialize (Hall x Hx). lia.
Qed.

Lemma producedOffsets_perm (offsets : gmap Z Time) :
  producedOffsets offsets ≡ₚ (map_to_list offsets).*1.
Proof. apply merge_sort_Permutation. Qed.

Lemma producedOffsets_length (offsets : gmap Z Time) :
  length (producedOffsets offsets) = size offsets.
Proof.
  rewrite producedOffsets_perm, length_fmap. apply length_map_to_list.
Qed.

Lemma producedOffsets_sorted (offsets : gmap Z Time) :
  StronglySorted Z.lt (producedOffsets offsets).
Proof.
  apply sorted_le_NoDup_lt.
  - apply StronglySorted_merge_sort; apply _.
  - rewrite producedOffsets_perm. apply NoDup_fst_map_to_list.
Qed.

Lemma elem_of_producedOffsets (offsets : gmap Z Time) (o : Z) :
  o ∈ producedOffsets offsets ↔ is_Some (offsets !! o).
Proof.
  rewrite producedOffsets_perm, list_elem_of_fmap. split.
  - intros ([o' t] & -> & Hin). apply elem_of_map_to_list in Hin. eauto.
  - intros [t Ht]. exists (o, t). split; [done|]. by apply elem_of_map_to_list.
Qed.

(** The first sorted key is the smallest sampled offset, the last one the
    largest. *)
Lemma producedOffsets_first (offsets : gmap Z Time) (L : Z) :
  is_Some (offsets !! L) → (∀ o, is_Some (offsets !! o) → L ≤ o) →
  producedOffsets offsets !! 0%nat = Some L.
Proof.
  intros HL Hmin.
  apply elem_of_producedOffsets, list_elem_of_lookup_1 in HL as [i Hi].
  destruct (lookup_lt_is_Some_2 (producedOffsets offsets) 0) as [x Hx].
  { apply lookup_lt_Some in Hi. lia. }
  destruct i as [|i]; [done|].
  pose proof (sorted_lookup_lt _ 0 (S i) x L (producedOffsets_sorted offsets) Hx Hi
                ltac:(lia)).
  assert (L ≤ x); [|lia].
  apply Hmin, elem_of_producedOffsets. by eapply list_elem_of_lookup_2.
Qed.

Lemma producedOffsets_last (offsets : gmap Z Time) (H : Z) :
  is_Some (offsets !! H) → (∀ o, is_Some (offsets !! o) → o ≤ H) →
  producedOffsets offsets !! (length (producedOffsets offsets) - 1)%nat = Some H.
Proof.
  intros HH Hmax.
  apply elem_of_producedOffsets, list_elem_of_lookup_1 in HH as [i Hi].
  pose proof (lookup_lt_Some _ _ _ Hi) as Hlt.
  destruct (lookup_lt_is_Some_2 (producedOffsets offsets)
              (length (producedOffsets offsets) - 1)) as [x Hx]; [lia|].
  destruct (decide (i = length (producedOffsets offsets) - 1)%nat) as [->|Hne];
    [congruence|].
  pose proof (sorted_lookup_lt _ i _ H x (producedOffsets_sorted offsets) Hi Hx
                ltac:(lia)).
  assert (x ≤ H); [|lia].
  apply Hmax, elem_of_producedOffsets. by eapply list_elem_of_lookup_2.
Qed.

(** On every timeline entry with two samples or more the interpolation
    has a nonzero divisor. *)
Lemma interpolation_bounds_of_entry (offsets : gmap Z Time) (c : Z) :
  (2 ≤ size offsets)%nat →
  ∃ U D, getNextHigherOffset (producedOffsets offsets) c = Some U ∧
         getNextLowerOffset (producedOffsets offsets) c = Some D ∧
         is_Some (offsets !! U) ∧ is_Some (offsets !! D) ∧ D < U.
Proof.
  intros Hsz.
  destruct (bounds_strict (producedOffsets offsets) c (producedOffsets_sorted offsets))
    as (U & D & HU & HD & HUin & HDin & Hlt).
  { by rewrite producedOffsets_length. }
  exists U, D. by rewrite <- !elem_of_producedOffsets.
Qed.

(** [lagForPartition] never panics. *)
Lemma lagForPartition_total now group topic partition offsets latest :
  is_Some (lagForPartition now group topic partition offsets latest).
Proof.
  unfold lagForPartition.
  destruct (size offsets <? 2)%nat eqn:Hsz; [eauto|].
  apply Nat.ltb_ge in Hsz.
  destruct latest as [c|]; [|eauto].
  pose proof (producedOffsets_length offsets) as Hlen.
  destruct (lookup_lt_is_Some_2 (producedOffsets offsets) 0 ltac:(lia)) as [lo Hlo].
  rewrite Hlo. simpl.
  destruct (c <? lo).
  - destruct (lookup_lt_is_Some_2 (producedOffsets offsets)
                (length (producedOffsets offsets) - 1) ltac:(lia)) as [hi Hhi].
    rewrite Hhi. simpl. eauto.
  - destruct (getNextHigherOffset_inv (producedOffsets offsets) c ltac:(lia))
      as (U & -> & _).
    destruct (getNextLowerOffset_inv (producedOffsets offsets) c ltac:(lia))
      as (D & -> & _).
    simpl. eauto.
Qed.

(** C10. For a strictly increasing list of at least two int64 offsets and a
    committed offset [c] not below the first of them, [getNextHigherOffset]
    and [getNextLowerOffset] both return, the first a strictly larger value
    than the second, and the divisor [nextHigherOffset-nextLowerOffset] of
    the interpolation, computed in int64, is not zero. *)
Theorem C10_interpolation_divisor_nonzero (offsets : list Z) (c p0 : Z) :
  StronglySorted Z.lt offsets → (2 ≤ length offsets)%nat →
  Forall in_int64 offsets →
  offsets !! 0%nat = Some p0 → p0 ≤ c →
  ∃ U D, getNextHigherOffset offsets c = Some U ∧
         getNextLowerOffset offsets c = Some D ∧
         D < U ∧ sub64 U D ≠ 0.
Proof.
  intros Hs Hlen Hty _ _.
  destruct (bounds_strict offsets c Hs Hlen) as (U & D & HU & HD & HUin & HDin & Hlt).
  exists U, D. repeat split; try done.
  rewrite Forall_forall in Hty.
  apply sub64_nonzero; [by apply Hty | by apply Hty | lia].
Qed.

(** C10 on the timeline of the interpolation scenario. *)
Lemma C10_witness :
  ∃ U D, getNextHigherOffset [100; 200; 300] 250 = Some U ∧
         getNextLowerOffset [100; 200; 300] 250 = Some D ∧
         D < U ∧ sub64 U D ≠ 0.
Proof.
  apply (C10_interpolation_divisor_nonzero [100; 200; 300] 250 100).
  - repeat constructor; lia.
  - simpl. lia.
  - repeat constructor; unfold int64_min, int64_max; lia.
  - reflexivity.
  - lia.
Defined.

(** C1. The bounds used in the interpolation are not the nearest samples.
    On the timeline of the specification's interpolation scenario the lower
    bound used for [c = 250] is 100, although 200 is the largest sample
    below 250; with one more sample the upper bound used is 400, although
    300 is the smallest sample at least 250; and for a committed offset
    equal to the oldest sample the upper bound used is the second sample.
    ([bounds_beyond_last] is the part of C1 that holds, and
    [bounds_enclose] what the bounds do satisfy.) *)
Theorem C1_bounds_are_one_sample_off :
  getNextLowerOffset [100; 200; 300] 250 = Some 100 ∧
  tightLower [100; 200; 300] 250 = Some 200 ∧
  getNextHigherOffset [100; 200; 300; 400] 250 = Some 400 ∧
  tightUpper [100; 200; 300; 400] 250 = Some 300 ∧
  getNextHigherOffset [100; 200; 300] 100 = Some 200 ∧
  tightUpper [100; 200; 300] 100 = Some 100.
Proof. repeat split; reflexivity. Qed.

(** One iteration of the lag pass. A key with fewer than two samples gets
    no event. With at least two samples and a committed offset [c] below the
    smallest sampled offset [L], the iteration emits the extrapolation
    counter, once, and then [consumer_lag_millis = now_ms − px_ms], where
    [px_ms = t(H)_ms − (H − c)·(t(H) − t(L))_ms/(H − L)] and [H] is the
    largest sampled offset. *)
Lemma extrapolation_of_partition now group topic partition (offsets : gmap Z Time)
    (latest : option Z) :
  ((size offsets < 2)%nat →
     lagForPartition now group topic partition offsets latest = Some []) ∧
  (∀ c H L tH tL,
     (2 ≤ size offsets)%nat → latest = Some c →
     offsets !! H = Some tH → offsets !! L = Some tL →
     (∀ o, is_Some (offsets !! o) → L ≤ o ≤ H) →
     c < L →
     lagForPartition now group topic partition offsets latest =
       Some [ counter lagDatapointUsedExtrapolation (float64 1)
                [group; topic; FormatInt partition];
              gauge topicPartitionLagMillis
                (PrimFloat.sub (float64 (unixMillis now)) (extrapolated_px tH tL H L c))
                [group; topic; FormatInt partition] ]).
Proof.
  split.
  - intros Hsz. unfold lagForPartition.
    destruct (size offsets <? 2)%nat eqn:E; [done|]. apply Nat.ltb_ge in E. lia.
  - intros c H L tH tL Hsz -> HH HL Hbounds Hc. unfold lagForPartition.
    destruct (size offsets <? 2)%nat eqn:E; [apply Nat.ltb_lt in E; lia|].
    rewrite (producedOffsets_first offsets L); [|eauto|intros o Ho; by apply Hbounds].
    simpl. destruct (c <? L) eqn:HcL; [|lia].
    rewrite (producedOffsets_last offsets H); [|eauto|intros o Ho; by apply Hbounds].
    simpl. unfold px, lagMillis, extrapolated_px, at_offset, counter, gauge, lagLabels.
    by rewrite HH, HL.
Qed.

Lemma scenarioTimeline_keys o :
  is_Some (scenarioTimeline !! o) → 100 ≤ o ≤ 300.
Proof.
  unfold scenarioTimeline. intros [t Ht].
  repeat (rewrite lookup_insert in Ht; case_decide; [lia|]).
  rewrite lookup_singleton in Ht. case_decide; [lia|done].
Qed.

(** The extrapolation scenario of the specification: the lag is 35000 ms. *)
Example scenario_E_partition :
  lagForPartition (mkTime 30000000000) "g" "t" 0 scenarioTimeline (Some 50) =
    Some [ counter lagDatapointUsedExtrapolation (float64 1) ["g"; "t"; FormatInt 0];
           gauge topicPartitionLagMillis
             (PrimFloat.sub (float64 (unixMillis (mkTime 30000000000)))
                (extrapolated_px (mkTime 20000000000) (mkTime 0) 300 100 50))
             ["g"; "t"; FormatInt 0] ].
Proof.
  apply (proj2 (extrapolation_of_partition (mkTime 30000000000) "g" "t" 0
                  scenarioTimeline (Some 50))
           50 300 100 (mkTime 20000000000) (mkTime 0)).
  - vm_compute. lia.
  - reflexivity.
  - reflexivity.
  - reflexivity.
  - apply scenarioTimeline_keys.
  - lia.
Qed.

Example scenario_E_value :
  PrimFloat.sub (float64 (unixMillis (mkTime 30000000000)))
    (extrapolated_px (mkTime 20000000000) (mkTime 0) 300 100 50) = float64 35000.
Proof. vm_compute. reflexivity. Qed.

(** ** The consumer-group pass *)

Section GroupPass.

Variable offset : OffsetMap.
Variables group topic : string.

(** The events of one partition do not depend on the running sums. *)
Lemma groupPartitionMetrics_events partition block sums :
  (groupPartitionMetrics offset group topic partition block sums).1 =
  partitionEvents offset group topic (partition, block).
Proof.
  unfold partitionEvents, groupPartitionMetrics. destruct sums as [cs ls]. simpl.
  by destruct (Err block).
Qed.

Lemma groupPartitionsLoop_events blocks sums :
  (groupPartitionsLoop offset group topic blocks sums).1 = flat_map (partitionEvents offset group topic) blocks.
Proof.
  revert sums. induction blocks as [|[partition block] rest IH]; intros sums; simpl.
  - done.
  - pose proof (groupPartitionMetrics_events partition block sums) as Hev.
    destruct (groupPartitionMetrics offset group topic partition block sums)
      as [evs sums'].
    specialize (IH sums').
    destruct (groupPartitionsLoop offset group topic rest sums') as [evs' sums''].
    simpl in *. by rewrite Hev, IH.
Qed.

Lemma groupPartitionsLoop_cons partition block rest sums :
  groupPartitionsLoop offset group topic ((partition, block) :: rest) sums =
  let r := groupPartitionMetrics offset group topic partition block sums in
  let r' := groupPartitionsLoop offset group topic rest r.2 in
  (r.1 ++ r'.1, r'.2).
Proof.
  simpl. destruct (groupPartitionMetrics _ _ _ _ _ _) as [evs sums'].
  simpl. by destruct (groupPartitionsLoop _ _ _ _ _) as [evs' sums''].
Qed.

Lemma groupPartitionMetrics_sums partition block cs ls :
  (groupPartitionMetrics offset group topic partition block (cs, ls)).2 =
  match Err block with
  | KErr _ => (cs, ls)
  | ErrNoError =>
      ( add64 cs (Offset block),
        match lookupOffset offset topic partition with
        | Some newest => lagSumAfter ls newest (Offset block)
        | None => ls
        end )
  end.
Proof. unfold groupPartitionMetrics. by destruct (Err block). Qed.

(** [lagSum] does not depend on [currentOffsetSum], and a partition without
    a commit leaves it unchanged. *)
Lemma groupPartitionsLoop_lagSum blocks cs cs' ls :
  (groupPartitionsLoop offset group topic blocks (cs, ls)).2.2 =
  (groupPartitionsLoop offset group topic
     (filter (λ pb, Offset pb.2 ≠ -1) blocks) (cs', ls)).2.2.
Proof.
  revert cs cs' ls. induction blocks as [|[partition block] rest IH]; intros cs cs' ls.
  - done.
  - rewrite filter_cons, groupPartitionsLoop_cons. cbv zeta.
    rewrite groupPartitionMetrics_sums.
    destruct (decide (Offset (partition, block).2 ≠ -1)) as [Hc|Hc]; simpl in Hc.
    + rewrite groupPartitionsLoop_cons. cbv zeta.
      rewrite groupPartitionMetrics_sums.
      destruct (Err block); simpl; apply IH.
    + assert (Offset block = -1) as Hm by lia.
      assert (Hls : match lookupOffset offset topic partition with
                    | Some newest => lagSumAfter ls newest (Offset block)
                    | None => ls
                    end = ls).
      { unfold lagSumAfter. rewrite Hm. simpl. by destruct (lookupOffset _ _ _). }
      rewrite Hls. destruct (Err block); simpl; apply IH.
Qed.

End GroupPass.

Lemma elem_of_flat_map {A B} (f : A → list B) (l : list A) (y : B) :
  y ∈ flat_map f l ↔ ∃ x, x ∈ l ∧ y ∈ f x.
Proof.
  rewrite list_elem_of_In, in_flat_map. split.
  - intros (x & Hx & Hy). exists x. by rewrite !list_elem_of_In.
  - intros (x & Hx & Hy). exists x. by rewrite <- !list_elem_of_In.
Qed.

Lemma existsb_committed (parts : gmap Z OffsetFetchResponseBlock) :
  (∃ p b, parts !! p = Some b ∧ Offset b ≠ -1) →
  existsb (λ pb : Z * OffsetFetchResponseBlock, negb (Offset pb.2 =? -1))
    (map_to_list parts) = true.
Proof.
  intros (p & b & Hpb & Hc). apply existsb_exists. exists (p, b). split.
  - apply list_elem_of_In. by apply elem_of_map_to_list.
  - simpl. apply negb_true_iff, Z.eqb_neq. done.
Qed.

(** What [groupTopicMetrics] emits for a topic that passes the include
    filter and has a commit on some partition. *)
Lemma groupTopicMetrics_consumed e offset group topic
    (parts : gmap Z OffsetFetchResponseBlock) :
  topicFilter e topic = true →
  (∃ p b, parts !! p = Some b ∧ Offset b ≠ -1) →
  groupTopicMetrics e offset group topic parts =
    flat_map (partitionEvents offset group topic) (map_to_list parts) ++
    [ gauge consumergroupCurrentOffsetSum
        (float64 (groupPartitionsLoop offset group topic (map_to_list parts) (0, 0)).2.1)
        [group; topic];
      gauge consumergroupLagSum
        (float64 (groupPartitionsLoop offset group topic (map_to_list parts) (0, 0)).2.2)
        [group; topic] ].
Proof.
  intros Hf Hc. unfold groupTopicMetrics. rewrite Hf, (existsb_committed parts Hc). simpl.
  rewrite <- (groupPartitionsLoop_events offset group topic (map_to_list parts) (0, 0)).
  by destruct (groupPartitionsLoop offset group topic (map_to_list parts) (0, 0))
    as [evs [cs ls]].
Qed.

(** The events of one partition block. *)
Lemma elem_of_partitionEvents offset group topic partition block ev :
  ev ∈ partitionEvents offset group topic (partition, block) ↔
  match Err block with
  | KErr _ => ev = LogError "Error for  partition"
  | ErrNoError =>
      ev = gauge consumergroupCurrentOffset (float64 (Offset block))
             [group; topic; FormatInt partition] ∨
      match lookupOffset offset topic partition with
      | Some newest =>
          ev = CreateOrUpdate group topic partition newest ∨
          ev = gauge consumergroupLag (float64 (partitionLag newest (Offset block)))
                 [group; topic; FormatInt partition]
      | None => ev = LogError "No offset of topic, cannot get consumer group lag"
      end
  end.
Proof.
  unfold partitionEvents, groupPartitionMetrics. simpl.
  destruct (Err block); simpl.
  - destruct (lookupOffset offset topic partition); simpl;
      rewrite ?elem_of_cons, ?elem_of_nil; tauto.
  - rewrite ?elem_of_cons, ?elem_of_nil; tauto.
Qed.

Lemma FormatInt_inj a b : FormatInt a = FormatInt b → a = b.
Proof. unfold FormatInt. apply (inj pretty). Qed.

(** C6. For a (group, topic, partition) whose committed-offset metric is
    emitted (the block carries no error, the topic passes the include
    filter and is consumed by the group) and whose newest-offset metric is
    emitted (the scrape recorded [newest] for the partition):
    [kafka_consumergroup_lag] is emitted with exactly one value, -1 when the
    committed offset is -1 and [newest − committed] otherwise, and
    [kafka_consumergroup_lag_sum] of the (group, topic) is what the
    partitions with a commit add up to; those without contribute nothing. *)
Theorem C6_consumergroup_lag e offset group topic
    (parts : gmap Z OffsetFetchResponseBlock) partition block newest :
  topicFilter e topic = true →
  (∃ p b, parts !! p = Some b ∧ Offset b ≠ -1) →
  parts !! partition = Some block → Err block = ErrNoError →
  lookupOffset offset topic partition = Some newest →
  let evs := groupTopicMetrics e offset group topic parts in
  let labels := [group; topic; FormatInt partition] in
  gauge consumergroupCurrentOffset (float64 (Offset block)) labels ∈ evs ∧
  (∀ v, gauge consumergroupLag v labels ∈ evs ↔
        v = float64 (if decide (Offset block = -1) then -1
                     else sub64 newest (Offset block))) ∧
  (∀ v, gauge consumergroupLagSum v [group; topic] ∈ evs ↔
        v = float64 (groupPartitionsLoop offset group topic
                       (filter (λ pb, Offset pb.2 ≠ -1) (map_to_list parts)) (0, 0)).2.2).
Proof.
  intros Hf Hc Hpart Herr Hnew evs labels. subst evs labels.
  rewrite (groupTopicMetrics_consumed e offset group topic parts Hf Hc).
  assert (Hin : (partition, block) ∈ map_to_list parts) by by apply elem_of_map_to_list.
  assert (Hlag : partitionLag newest (Offset block) =
                 if decide (Offset block = -1) then -1 else sub64 newest (Offset block)).
  { unfold partitionLag. destruct (decide (Offset block = -1)) as [->|Hne]; [done|].
    by apply Z.eqb_neq in Hne as ->. }
  split; [|split].
  - apply elem_of_app. left. apply elem_of_flat_map.
    exists (partition, block). split; [done|].
    apply elem_of_partitionEvents. rewrite Herr. by left.
  - intros v. rewrite elem_of_app. split.
    + intros [Hev | Hev].
      * apply elem_of_flat_map in Hev as ([p' b'] & Hin' & Hev).
        apply elem_of_partitionEvents in Hev.
        apply elem_of_map_to_list in Hin'.
        destruct (Err b'); [|done].
        destruct Hev as [Hev | Hev]; [done|].
        destruct (lookupOffset offset topic p') as [newest'|] eqn:Hl'; [|done].
        destruct Hev as [Hev | Hev]; [done|].
        inversion Hev as [[Hv Hlab]]. apply FormatInt_inj in Hlab. subst p'.
        rewrite Hpart in Hin'. inversion Hin'; subst b'.
        rewrite Hnew in Hl'. inversion Hl'; subst newest'. by rewrite Hlag.
      * rewrite !elem_of_cons, elem_of_nil in Hev.
        destruct Hev as [Hev | [Hev | []]]; done.
    + intros ->. left. apply elem_of_flat_map.
      exists (partition, block). split; [done|].
      apply elem_of_partitionEvents. rewrite Herr, Hnew, Hlag. auto.
  - intros v.
    rewrite <- (groupPartitionsLoop_lagSum offset group topic (map_to_list parts) 0 0 0).
    rewrite elem_of_app. split.
    + intros [Hev | Hev].
      * apply elem_of_flat_map in Hev as ([p' b'] & Hin' & Hev).
        apply elem_of_partitionEvents in Hev.
        destruct (Err b'); [|done].
        destruct Hev as [Hev | Hev]; [done|].
        destruct (lookupOffset offset topic p'); [|done].
        by destruct Hev.
      * rewrite !elem_of_cons, elem_of_nil in Hev.
        destruct Hev as [Hev | [Hev | []]]; [done|]. by inversion Hev.
    + intros ->. right. rewrite !elem_of_cons. auto.
Qed.

(** ** Where the timeline is updated *)

Lemma update_in_groupTopicMetrics e offset group topic parts g t p v :
  CreateOrUpdate g t p v ∈ groupTopicMetrics e offset group topic parts →
  g = group ∧ t = topic ∧ lookupOffset offset t p = Some v.
Proof.
  unfold groupTopicMetrics.
  destruct (negb (topicFilter e topic)); [by rewrite elem_of_nil|].
  destruct (negb (existsb _ _)); [by rewrite elem_of_nil|].
  pose proof (groupPartitionsLoop_events offset group topic (map_to_list parts) (0, 0))
    as Hev.
  destruct (groupPartitionsLoop offset group topic (map_to_list parts) (0, 0))
    as [evs [cs ls]]. simpl in Hev. subst evs.
  rewrite elem_of_app, !elem_of_cons, elem_of_nil.
  intros [Hin | [Hin | [Hin | []]]]; [|done..].
  apply elem_of_flat_map in Hin as ([p' b'] & _ & Hin).
  apply elem_of_partitionEvents in Hin.
  destruct (Err b'); [|done].
  destruct Hin as [Hin | Hin]; [done|].
  destruct (lookupOffset offset topic p') as [newest|] eqn:Hl; [|done].
  destruct Hin as [Hin | Hin]; [|done].
  inversion Hin; subst. done.
Qed.

Lemma update_in_describeGroupsLoop e offset broker groups g t p v :
  CreateOrUpdate g t p v ∈ describeGroupsLoop e offset broker groups →
  lookupOffset offset t p = Some v.
Proof.
  induction groups as [|group rest IH]; [simpl; by rewrite elem_of_nil|].
  cbn [describeGroupsLoop].
  destruct (offsetFetchRequest e offset group) as [req| |];
    [|rewrite elem_of_cons, elem_of_nil; by intros [|]..].
  unfold groupMetrics.
  rewrite elem_of_app, elem_of_cons. intros [[Hin | Hin] | Hin]; [done| |auto].
  destruct (FetchOffset broker req) as [response|];
    [|rewrite elem_of_cons, elem_of_nil in Hin; by destruct Hin].
  apply elem_of_flat_map in Hin as ([topic parts] & _ & Hin).
  by apply update_in_groupTopicMetrics in Hin as (_ & _ & ?).
Qed.

(** In [exporter/exporter.go] every timeline update of the consumer-group
    pass carries the newest producer offset that the scrape recorded for the
    (topic, partition), and none is made for a partition the offset map
    lacks. *)
Lemma update_in_groupPhase e offset g t p v :
  CreateOrUpdate g t p v ∈ groupPhase e offset → lookupOffset offset t p = Some v.
Proof.
  unfold groupPhase. destruct (Brokers (client e)) as [|b bs] eqn:Hb.
  { rewrite elem_of_cons, elem_of_nil. by intros [|]. }
  intros Hin. apply elem_of_flat_map in Hin as (broker & _ & Hin).
  unfold getConsumerGroupMetrics in Hin.
  assert (Hlog : ∀ msg, CreateOrUpdate g t p v ∈ [LogError msg] → False).
  { intros msg. rewrite elem_of_cons, elem_of_nil. by intros [|]. }
  destruct (Open broker); try (by apply Hlog in Hin);
    (destruct (ListGroups broker) as [groups|]; [|by apply Hlog in Hin];
     destruct (DescribeGroups broker (groupIds e groups)) as [descr|];
       [|by apply Hlog in Hin];
     by eapply update_in_describeGroupsLoop).
Qed.

(** The events of a (group, topic) of a fetch response are among those of
    the broker's pass, provided the requests of the groups can be built. *)
Lemma describeGroupsLoop_includes e offset broker groups group req response topic parts ev :
  (∀ g, g ∈ groups → built (offsetFetchRequest e offset g)) →
  group ∈ groups →
  offsetFetchRequest e offset group = Built req →
  FetchOffset broker req = Some response →
  Blocks response !! topic = Some parts →
  ev ∈ groupTopicMetrics e offset (GroupId group) topic parts →
  ev ∈ describeGroupsLoop e offset broker groups.
Proof.
  intros Hall Hin Hreq Hresp Hblocks Hev.
  induction groups as [|g rest IH]; [by apply elem_of_nil in Hin|].
  cbn [describeGroupsLoop].
  destruct (Hall g ltac:(apply list_elem_of_here)) as [req' Hreq'].
  rewrite Hreq'. unfold groupMetrics. rewrite elem_of_app, elem_of_cons.
  apply elem_of_cons in Hin as [<- | Hin].
  - left. right. rewrite Hreq in Hreq'. inversion Hreq'; subst req'. rewrite Hresp.
    apply elem_of_flat_map. exists (topic, parts).
    split; [by apply elem_of_map_to_list | done].
  - right. apply IH; [|done]. intros g' Hg'. apply Hall. by apply list_elem_of_further.
Qed.

Lemma group_block_in_broker_pass e offset broker groups descr group req response topic
    parts ev :
  Open broker ≠ OpenFailed →
  ListGroups broker = Some groups →
  DescribeGroups broker (groupIds e groups) = Some descr →
  (∀ g, g ∈ descr → built (offsetFetchRequest e offset g)) →
  group ∈ descr →
  offsetFetchRequest e offset group = Built req →
  FetchOffset broker req = Some response →
  Blocks response !! topic = Some parts →
  ev ∈ groupTopicMetrics e offset (GroupId group) topic parts →
  ev ∈ getConsumerGroupMetrics e offset broker.
Proof.
  intros Hopen Hlist Hdescr Hall Hin Hreq Hresp Hblocks Hev.
  unfold getConsumerGroupMetrics. rewrite Hlist, Hdescr.
  destruct (Open broker); try done; by eapply describeGroupsLoop_includes.
Qed.

(** ** The topic pass *)

(** The events of a topic do not depend on the offset map handed in. *)
Lemma topicPartitionsLoop_events e topic parts offset :
  (topicPartitionsLoop e topic parts offset).1 =
  flat_map (λ partition, (topicPartitionMetrics e topic partition ∅).1) parts.
Proof.
  revert offset. induction parts as [|partition rest IH]; intros offset; simpl; [done|].
  specialize (IH match GetOffset (client e) topic partition OffsetNewest with
                 | Some v => storeOffset offset topic partition v
                 | None => offset
                 end).
  destruct (topicPartitionsLoop e topic rest _) as [evs' offset'].
  simpl in *. by rewrite IH.
Qed.

Lemma getTopicMetrics_events e topic offset :
  (getTopicMetrics e topic offset).1 = topicEvents e topic.
Proof.
  unfold topicEvents, getTopicMetrics.
  destruct (negb (topicFilter e topic) || topicExclude e topic); [done|].
  destruct (Partitions (client e) topic) as [parts|]; [|done].
  pose proof (topicPartitionsLoop_events e topic parts (<[topic:=∅]> offset)) as H1.
  pose proof (topicPartitionsLoop_events e topic parts (<[topic:=∅]> ∅)) as H2.
  destruct (topicPartitionsLoop e topic parts (<[topic:=∅]> offset)) as [evs o1].
  destruct (topicPartitionsLoop e topic parts (<[topic:=∅]> ∅)) as [evs' o2].
  simpl in *. by rewrite H1, H2.
Qed.

Lemma topicPhase_events e queue offset :
  (topicPhase e queue offset).1 = flat_map (topicEvents e) queue.
Proof.
  revert offset. induction queue as [|topic rest IH]; intros offset; simpl; [done|].
  pose proof (getTopicMetrics_events e topic offset) as Hev.
  destruct (getTopicMetrics e topic offset) as [evs offset'].
  specialize (IH offset').
  destruct (topicPhase e rest offset') as [evs' offset''].
  simpl in *. by rewrite Hev, IH.
Qed.


(** ** The lag pass *)

Lemma forEach_total {A} (body : A → option (list Event)) (l : list A) :
  (∀ x, is_Some (body x)) → is_Some (forEach body l).
Proof.
  intros Hbody. induction l as [|x rest [evs' IH]]; simpl; [eauto|].
  destruct (Hbody x) as [evs ->]. simpl. rewrite IH. simpl. eauto.
Qed.

Lemma elem_of_forEach {A} (body : A → option (list Event)) (l : list A) evs ev :
  forEach body l = Some evs →
  ev ∈ evs ↔ ∃ x evs', x ∈ l ∧ body x = Some evs' ∧ ev ∈ evs'.
Proof.
  revert evs. induction l as [|x rest IH]; simpl; intros evs Heq.
  - inversion Heq. rewrite elem_of_nil. split; [done|].
    intros (x & evs' & Hx & _). by apply elem_of_nil in Hx.
  - destruct (body x) as [e1|] eqn:Hb; [|done]. simpl in Heq.
    destruct (forEach body rest) as [e2|]; [|done]. simpl in Heq.
    inversion Heq; subst evs. rewrite elem_of_app, (IH e2 eq_refl). split.
    + intros [Hin | (y & evs' & Hy & Hby & Hin)].
      * exists x, e1. rewrite elem_of_cons. auto.
      * exists y, evs'. rewrite elem_of_cons. auto.
    + intros (y & evs' & Hy & Hby & Hin). apply elem_of_cons in Hy as [-> | Hy].
      * left. congruence.
      * right. eauto.
Qed.

Lemma lagForGroupTopic_total admin clk group topic partitionMap :
  is_Some (lagForGroupTopic admin clk group topic partitionMap).
Proof.
  unfold lagForGroupTopic.
  destruct (ListConsumerGroupOffsets admin _ _) as [[response|] failed]; cbn [fst snd].
  - destruct (forEach_total
                (λ po : Z * gmap Z Time,
                   lagForPartition (lagNow clk group topic po.1) group topic po.1 po.2
                     (Offset <$> (Blocks response !! topic ≫= λ m, m !! po.1)))
                (map_to_list partitionMap)) as [evs Hevs].
    { intros [p offsets]. apply lagForPartition_total. }
    unfold lagForTopic. rewrite Hevs. simpl. eauto.
  - simpl. eauto.
Qed.

(** The lag pass never panics: the guard on the number of samples keeps
    every index in range. *)
Lemma metricsForLag_total e clk (iMap : IMap) : is_Some (metricsForLag e clk iMap).
Proof.
  unfold metricsForLag.
  destruct (NewClusterAdminFromClient (client e)) as [admin|]; [|eauto].
  apply forEach_total. intros [group topics]. apply forEach_total.
  intros [topic partitionMap]. apply lagForGroupTopic_total.
Qed.

Lemma lagForPartition_no_update now group topic partition offsets latest evs ev :
  lagForPartition now group topic partition offsets latest = Some evs →
  ev ∈ evs → ¬ is_update ev.
Proof.
  unfold lagForPartition.
  destruct (size offsets <? 2)%nat.
  { intros [= <-] Hin. by apply elem_of_nil in Hin. }
  destruct latest as [c|].
  - destruct (producedOffsets offsets !! 0%nat) as [lo|]; [simpl|done].
    destruct (c <? lo).
    + destruct (producedOffsets offsets !! _) as [hi|]; [simpl|done].
      intros [= <-]. rewrite !elem_of_cons, elem_of_nil.
      intros [-> | [-> | []]]; tauto.
    + destruct (getNextHigherOffset _ _) as [U|]; [simpl|done].
      destruct (getNextLowerOffset _ _) as [D|]; [simpl|done].
      intros [= <-]. rewrite !elem_of_cons, elem_of_nil.
      intros [-> | [-> | []]]; tauto.
  - intros [= <-]. rewrite !elem_of_cons, elem_of_nil. intros [-> | []]. tauto.
Qed.

(** The events of one (group, topic) of the timeline: the log of a failed
    [ListConsumerGroupOffsets], then the log of a nil response or the events
    of the partitions. *)
Lemma elem_of_lagForGroupTopic admin clk group topic partitionMap evs ev :
  lagForGroupTopic admin clk group topic partitionMap = Some evs →
  ev ∈ evs ↔
  ((ListConsumerGroupOffsets admin group {[topic := (map_to_list partitionMap).*1]}).2
     = true ∧ ev = LogError "Error listing offsets for") ∨
  match (ListConsumerGroupOffsets admin group
           {[topic := (map_to_list partitionMap).*1]}).1 with
  | None => ev = LogError "Got nil response from ListConsumerGroupOffsets for group"
  | Some response =>
      ∃ partition offsets evs',
        partitionMap !! partition = Some offsets ∧
        lagForPartition (lagNow clk group topic partition) group topic partition offsets
          (Offset <$> (Blocks response !! topic ≫= λ m, m !! partition)) = Some evs' ∧
        ev ∈ evs'
  end.
Proof.
  unfold lagForGroupTopic.
  destruct (ListConsumerGroupOffsets admin _ _) as [[response|] failed]; cbn [fst snd].
  - destruct (lagForTopic clk group topic partitionMap response) as [e3|] eqn:H3;
      simpl; [|done].
    intros [= <-]. rewrite elem_of_app. split.
    + intros [Hin | Hin].
      * left. destruct failed; [|by apply elem_of_nil in Hin].
        apply list_elem_of_singleton in Hin. done.
      * right. apply (elem_of_forEach _ _ _ ev H3) in Hin
          as ([partition offsets] & e' & Hp & Heq & Hin).
        apply elem_of_map_to_list in Hp. eauto 10.
    + intros [[-> ->] | (partition & offsets & evs' & Hp & Hlag & Hin)].
      * left. apply list_elem_of_here.
      * right. apply (elem_of_forEach _ _ _ ev H3).
        exists (partition, offsets), evs'. split; [by apply elem_of_map_to_list|done].
  - simpl. intros [= <-]. rewrite elem_of_app. split.
    + intros [Hin | Hin].
      * left. destruct failed; [|by apply elem_of_nil in Hin].
        apply list_elem_of_singleton in Hin. done.
      * right. by apply list_elem_of_singleton in Hin.
    + intros [[-> ->] | ->].
      * left. apply list_elem_of_here.
      * right. apply list_elem_of_here.
Qed.

Lemma metricsForLag_no_update e clk (iMap : IMap) evs ev :
  metricsForLag e clk iMap = Some evs → ev ∈ evs → ¬ is_update ev.
Proof.
  unfold metricsForLag.
  destruct (NewClusterAdminFromClient (client e)) as [admin|].
  - intros Heq Hin.
    apply (elem_of_forEach _ _ _ ev Heq) in Hin as ([group topics] & e1 & _ & Heq1 & Hin).
    apply (elem_of_forEach _ _ _ ev Heq1) in Hin
      as ([topic partitionMap] & e2 & _ & Heq2 & Hin).
    simpl in Heq2.
    apply (elem_of_lagForGroupTopic _ _ _ _ _ _ ev Heq2) in Hin as [[_ ->] | Hin]; [tauto|].
    destruct (ListConsumerGroupOffsets admin _ _).1 as [response|].
    + destruct Hin as (partition & offsets & e3 & _ & Heq3 & Hin).
      by eapply lagForPartition_no_update.
    + subst ev. tauto.
  - intros [= <-]. rewrite elem_of_cons, elem_of_nil. intros [-> | []]. tauto.
Qed.

Lemma lagForPartition_labels now group topic partition offsets latest evs ev :
  lagForPartition now group topic partition offsets latest = Some evs → ev ∈ evs →
  (∃ msg, ev = LogError msg) ∨ labelled group topic partition ev.
Proof.
  unfold lagForPartition, labelled, lagLabels.
  destruct (size offsets <? 2)%nat.
  { intros [= <-] Hin. by apply elem_of_nil in Hin. }
  destruct latest as [c|].
  - destruct (producedOffsets offsets !! 0%nat) as [lo|]; [simpl|done].
    destruct (c <? lo).
    + destruct (producedOffsets offsets !! _) as [hi|]; [simpl|done].
      intros [= <-]. rewrite !elem_of_cons, elem_of_nil.
      intros [-> | [-> | []]]; right; eauto.
    + destruct (getNextHigherOffset _ _) as [U|]; [simpl|done].
      destruct (getNextLowerOffset _ _) as [D|]; [simpl|done].
      intros [= <-]. rewrite !elem_of_cons, elem_of_nil.
      intros [-> | [-> | []]]; right; eauto.
  - intros [= <-]. rewrite !elem_of_cons, elem_of_nil. intros [-> | []]. left. eauto.
Qed.

(** The events of the lag pass, entry by entry of the timeline. *)
Lemma elem_of_metricsForLag e clk (iMap : IMap) admin evs ev :
  NewClusterAdminFromClient (client e) = Some admin →
  metricsForLag e clk iMap = Some evs →
  ev ∈ evs ↔
  ∃ group topics topic partitionMap,
    iMap !! group = Some topics ∧ topics !! topic = Some partitionMap ∧
    (((ListConsumerGroupOffsets admin group {[topic := (map_to_list partitionMap).*1]}).2
        = true ∧ ev = LogError "Error listing offsets for") ∨
     match (ListConsumerGroupOffsets admin group
              {[topic := (map_to_list partitionMap).*1]}).1 with
     | None => ev = LogError "Got nil response from ListConsumerGroupOffsets for group"
     | Some response =>
         ∃ partition offsets evs',
           partitionMap !! partition = Some offsets ∧
           lagForPartition (lagNow clk group topic partition) group topic partition offsets
             (Offset <$> (Blocks response !! topic ≫= λ m, m !! partition)) = Some evs' ∧
           ev ∈ evs'
     end).
Proof.
  intros Hadmin. unfold metricsForLag. rewrite Hadmin. intros Heq.
  rewrite (elem_of_forEach _ _ _ ev Heq). split.
  - intros ([group topics] & e1 & Hg & Heq1 & Hin). simpl in *.
    apply elem_of_map_to_list in Hg.
    apply (elem_of_forEach _ _ _ ev Heq1) in Hin
      as ([topic partitionMap] & e2 & Ht & Heq2 & Hin). simpl in *.
    apply elem_of_map_to_list in Ht.
    exists group, topics, topic, partitionMap. split; [done|]. split; [done|].
    by apply (elem_of_lagForGroupTopic _ _ _ _ _ _ ev Heq2).
  - intros (group & topics & topic & partitionMap & Hg & Ht & Hev).
    destruct (forEach_total
                (λ tp : string * gmap Z (gmap Z Time),
                   lagForGroupTopic admin clk group tp.1 tp.2) (map_to_list topics))
      as [e1 Heq1].
    { intros [t pm]. apply lagForGroupTopic_total. }
    exists (group, topics), e1. split; [by apply elem_of_map_to_list|].
    split; [done|].
    apply (elem_of_forEach _ _ _ ev Heq1).
    destruct (lagForGroupTopic_total admin clk group topic partitionMap) as [e2 Heq2].
    exists (topic, partitionMap), e2. split; [by apply elem_of_map_to_list|].
    split; [done|].
    by apply (elem_of_lagForGroupTopic _ _ _ _ _ _ ev Heq2).
Qed.

(** The events of the lag pass that are labelled with a key are those of
    the iteration for that key. *)
Lemma lag_pass_of_key e clk (iMap : IMap) admin response failed evs group topics topic
    partitionMap partition offsets ev :
  NewClusterAdminFromClient (client e) = Some admin →
  iMap !! group = Some topics → topics !! topic = Some partitionMap →
  partitionMap !! partition = Some offsets →
  ListConsumerGroupOffsets admin group {[topic := (map_to_list partitionMap).*1]}
    = (Some response, failed) →
  metricsForLag e clk iMap = Some evs →
  ev ∈ evs ∧ labelled group topic partition ev ↔
  ∃ evs', lagForPartition (lagNow clk group topic partition) group topic partition offsets
            (Offset <$> (Blocks response !! topic ≫= λ m, m !! partition)) = Some evs' ∧
          ev ∈ evs' ∧ labelled group topic partition ev.
Proof.
  intros Hadmin Hg Ht Hp Hresp Heq.
  rewrite (elem_of_metricsForLag e clk iMap admin evs ev Hadmin Heq). split.
  - intros [(g' & ts' & t' & pm' & Hg' & Ht' & Hev) Hlab].
    destruct Hev as [[_ ->] | Hev]; [by destruct Hlab as (? & ? & ? & ?)|].
    destruct (ListConsumerGroupOffsets admin g' _) as [[response'|] failed'] eqn:Hresp';
      cbn [fst] in Hev.
    + destruct Hev as (p' & offsets' & evs' & Hp' & Hlag & Hin).
      destruct (lagForPartition_labels _ _ _ _ _ _ _ _ Hlag Hin)
        as [[msg ->] | (d & ty & v & ->)].
      { by destruct Hlab as (? & ? & ? & ?). }
      destruct Hlab as (d' & ty' & v' & Heqm). inversion Heqm; subst.
      match goal with H : FormatInt _ = FormatInt _ |- _ =>
        apply (inj pretty) in H; subst end.
      rewrite Hg in Hg'. inversion Hg'; subst ts'.
      rewrite Ht in Ht'. inversion Ht'; subst pm'.
      rewrite Hp in Hp'. inversion Hp'; subst offsets'.
      rewrite Hresp in Hresp'. inversion Hresp'; subst response'.
      exists evs'. split; [done|]. split; [done|]. by exists d', ty', v'.
    + subst ev. by destruct Hlab as (? & ? & ? & ?).
  - intros (evs' & Hlag & Hin & Hlab). split; [|done].
    exists group, topics, topic, partitionMap. split; [done|]. split; [done|].
    right. rewrite Hresp. cbn [fst]. eauto 10.
Qed.

(** *** The metrics of a key, with their multiplicity *)

Lemma forEach_flat_map {A} (body : A → option (list Event)) (l : list A) evs :
  forEach body l = Some evs → evs = flat_map (λ x, default [] (body x)) l.
Proof.
  revert evs. induction l as [|x rest IH]; simpl; intros evs Heq.
  - by inversion Heq.
  - destruct (body x) as [e1|]; [|done]. simpl in Heq.
    destruct (forEach body rest) as [e2|]; [|done]. simpl in Heq.
    inversion Heq; subst evs. simpl. by rewrite (IH e2 eq_refl).
Qed.

Lemma filter_none (P : Event → Prop) `{∀ ev, Decision (P ev)} (l : list Event) :
  (∀ ev, ev ∈ l → ¬ P ev) → filter P l = [].
Proof.
  induction l as [|ev l IH]; intros Hall; [done|].
  rewrite filter_cons. destruct (decide (P ev)) as [HP | _].
  - destruct (Hall ev ltac:(apply list_elem_of_here) HP).
  - apply IH. intros ev' Hin. apply Hall. by apply list_elem_of_further.
Qed.

Lemma filter_all (P : Event → Prop) `{∀ ev, Decision (P ev)} (l : list Event) :
  (∀ ev, ev ∈ l → P ev) → filter P l = l.
Proof.
  induction l as [|ev l IH]; intros Hall; [done|].
  rewrite filter_cons. destruct (decide (P ev)) as [_ | HP].
  - f_equal. apply IH. intros ev' Hin. apply Hall. by apply list_elem_of_further.
  - destruct HP. apply Hall. apply list_elem_of_here.
Qed.

(** In a loop whose iterations run over distinct items, what the filter
    keeps is what it keeps of one iteration when it keeps nothing of the
    others. *)
Lemma filter_flat_map_once {A} (P : Event → Prop) `{∀ ev, Decision (P ev)}
    (f : A → list Event) (l : list A) (x : A) :
  NoDup l → x ∈ l →
  (∀ y, y ∈ l → y ≠ x → ∀ ev, ev ∈ f y → ¬ P ev) →
  filter P (flat_map f l) = filter P (f x).
Proof.
  induction l as [|a l IH]; intros Hnd Hin Hothers; [by apply elem_of_nil in Hin|].
  apply NoDup_cons in Hnd as [Ha Hnd]. cbn [flat_map]. rewrite filter_app.
  apply elem_of_cons in Hin as [-> | Hin].
  - rewrite (filter_none P (flat_map f l)); [by rewrite app_nil_r|].
    intros ev Hev. apply elem_of_flat_map in Hev as (y & Hy & Hev).
    apply (Hothers y); [by apply list_elem_of_further | by intros -> | done].
  - rewrite (filter_none P (f a)).
    + simpl. apply IH; [done..|].
      intros y Hy. apply Hothers. by apply list_elem_of_further.
    + apply Hothers; [apply list_elem_of_here | by intros ->].
Qed.

Lemma labelled_inj group topic partition group' topic' partition' ev :
  labelled group topic partition ev → labelled group' topic' partition' ev →
  group = group' ∧ topic = topic' ∧ partition = partition'.
Proof.
  intros (d & ty & v & ->) (d' & ty' & v' & Heq). inversion Heq; subst.
  split; [done|]. split; [done|]. by apply FormatInt_inj.
Qed.

Lemma lagForGroupTopic_labels admin clk group topic partitionMap evs ev :
  lagForGroupTopic admin clk group topic partitionMap = Some evs → ev ∈ evs →
  (∃ msg, ev = LogError msg) ∨ ∃ partition, labelled group topic partition ev.
Proof.
  intros Heq Hin.
  apply (elem_of_lagForGroupTopic _ _ _ _ _ _ ev Heq) in Hin as [[_ ->] | Hin]; [eauto|].
  destruct (ListConsumerGroupOffsets admin _ _).1 as [response|]; [|eauto].
  destruct Hin as (partition & offsets & evs' & _ & Hlag & Hin).
  destruct (lagForPartition_labels _ _ _ _ _ _ _ _ Hlag Hin); eauto.
Qed.

(** The events of the lag pass labelled with a key, in the order of the
    pass and as often as they are sent: those of the one iteration for that
    key. *)
Lemma lag_pass_filter e clk (iMap : IMap) admin response failed evs group topics topic
    partitionMap partition offsets :
  NewClusterAdminFromClient (client e) = Some admin →
  iMap !! group = Some topics → topics !! topic = Some partitionMap →
  partitionMap !! partition = Some offsets →
  ListConsumerGroupOffsets admin group {[topic := (map_to_list partitionMap).*1]}
    = (Some response, failed) →
  metricsForLag e clk iMap = Some evs →
  filter (labelled group topic partition) evs =
  filter (labelled group topic partition)
    (default [] (lagForPartition (lagNow clk group topic partition) group topic partition
                   offsets (Offset <$> (Blocks response !! topic ≫= λ m, m !! partition)))).
Proof.
  intros Hadmin Hg Ht Hp Hresp Heq.
  unfold metricsForLag in Heq. rewrite Hadmin in Heq.
  apply forEach_flat_map in Heq. subst evs.
  rewrite (filter_flat_map_once _ _ _ (group, topics));
    [|apply NoDup_map_to_list|by apply elem_of_map_to_list|].
  2:{ intros [g' ts'] Hin Hne ev Hev Hlab. cbn [fst snd] in Hev.
      apply elem_of_map_to_list in Hin.
      destruct (forEach_total
                  (λ tp : string * gmap Z (gmap Z Time),
                     lagForGroupTopic admin clk g' tp.1 tp.2) (map_to_list ts'))
        as [e1 Heq1].
      { intros [t pm]. apply lagForGroupTopic_total. }
      rewrite Heq1 in Hev. simpl in Hev.
      apply (elem_of_forEach _ _ _ ev Heq1) in Hev as ([t' pm'] & e2 & _ & Heq2 & Hev).
      destruct (lagForGroupTopic_labels _ _ _ _ _ _ _ Heq2 Hev) as [[msg ->] | [p' Hlab']].
      { by destruct Hlab as (? & ? & ? & ?). }
      destruct (labelled_inj _ _ _ _ _ _ _ Hlab Hlab') as (<- & _ & _).
      apply Hne. f_equal. congruence. }
  cbn [fst snd].
  destruct (forEach_total
              (λ tp : string * gmap Z (gmap Z Time),
                 lagForGroupTopic admin clk group tp.1 tp.2) (map_to_list topics))
    as [e1 Heq1].
  { intros [t pm]. apply lagForGroupTopic_total. }
  rewrite Heq1. simpl. apply forEach_flat_map in Heq1. subst e1.
  rewrite (filter_flat_map_once _ _ _ (topic, partitionMap));
    [|apply NoDup_map_to_list|by apply elem_of_map_to_list|].
  2:{ intros [t' pm'] Hin Hne ev Hev Hlab. cbn [fst snd] in Hev.
      apply elem_of_map_to_list in Hin.
      destruct (lagForGroupTopic_total admin clk group t' pm') as [e2 Heq2].
      rewrite Heq2 in Hev. simpl in Hev.
      destruct (lagForGroupTopic_labels _ _ _ _ _ _ _ Heq2 Hev) as [[msg ->] | [p' Hlab']].
      { by destruct Hlab as (? & ? & ? & ?). }
      destruct (labelled_inj _ _ _ _ _ _ _ Hlab Hlab') as (_ & <- & _).
      apply Hne. f_equal. congruence. }
  cbn [fst snd]. unfold lagForGroupTopic. rewrite Hresp. cbn [fst snd].
  destruct (forEach_total
              (λ po : Z * gmap Z Time,
                 lagForPartition (lagNow clk group topic po.1) group topic po.1 po.2
                   (Offset <$> (Blocks response !! topic ≫= λ m, m !! po.1)))
              (map_to_list partitionMap)) as [e3 Heq3].
  { intros [p o]. apply lagForPartition_total. }
  unfold lagForTopic. rewrite Heq3. simpl. rewrite filter_app.
  rewrite (filter_none _ (if failed then _ else _)).
  2:{ intros ev Hev Hlab. destruct failed; [|by apply elem_of_nil in Hev].
      apply list_elem_of_singleton in Hev. subst ev. by destruct Hlab as (? & ? & ? & ?). }
  simpl. apply forEach_flat_map in Heq3. subst e3.
  rewrite (filter_flat_map_once _ _ _ (partition, offsets));
    [done|apply NoDup_map_to_list|by apply elem_of_map_to_list|].
  intros [p' o'] Hin Hne ev Hev Hlab. cbn [fst snd] in Hev.
  apply elem_of_map_to_list in Hin.
  destruct (lagForPartition_total (lagNow clk group topic p') group topic p' o'
              (Offset <$> (Blocks response !! topic ≫= λ m, m !! p'))) as [e4 Heq4].
  rewrite Heq4 in Hev. simpl in Hev.
  destruct (lagForPartition_labels _ _ _ _ _ _ _ _ Heq4 Hev) as [[msg ->] | Hlab'].
  { by destruct Hlab as (? & ? & ? & ?). }
  destruct (labelled_inj _ _ _ _ _ _ _ Hlab Hlab') as (_ & _ & <-).
  apply Hne. f_equal. congruence.
Qed.

(** C5. For a key of the timeline whose committed offset the lag pass
    obtains, the pass returns, and of the events it sends those labelled
    with the key are, in order and as often as they are sent: none when the
    key has fewer than two samples; with two samples or more and a committed
    offset [c] below the smallest sampled offset [L], the extrapolation
    counter, once, and then, once,
    [consumer_lag_millis = now_ms − px_ms], where
    [px_ms = t(H)_ms − (H − c)·(t(H) − t(L))_ms/(H − L)] and [H] is the
    largest sampled offset. *)
Theorem C5_extrapolation_branch e clk (iMap : IMap) admin response failed group topics
    topic partitionMap partition (offsets : gmap Z Time) :
  NewClusterAdminFromClient (client e) = Some admin →
  iMap !! group = Some topics → topics !! topic = Some partitionMap →
  partitionMap !! partition = Some offsets →
  ListConsumerGroupOffsets admin group {[topic := (map_to_list partitionMap).*1]}
    = (Some response, failed) →
  ∃ evs,
    metricsForLag e clk iMap = Some evs ∧
    ((size offsets < 2)%nat → filter (labelled group topic partition) evs = []) ∧
    (∀ block H L tH tL,
       (2 ≤ size offsets)%nat →
       Blocks response !! topic ≫= (λ m, m !! partition) = Some block →
       offsets !! H = Some tH → offsets !! L = Some tL →
       (∀ o, is_Some (offsets !! o) → L ≤ o ≤ H) →
       Offset block < L →
       filter (labelled group topic partition) evs =
         [ counter lagDatapointUsedExtrapolation (float64 1)
             [group; topic; FormatInt partition];
           gauge topicPartitionLagMillis
             (PrimFloat.sub
                (float64 (unixMillis (lagNow clk group topic partition)))
                (extrapolated_px tH tL H L (Offset block)))
             [group; topic; FormatInt partition] ]).
Proof.
  intros Hadmin Hg Ht Hp Hresp.
  destruct (metricsForLag_total e clk iMap) as [evs Heq].
  exists evs. split; [done|].
  rewrite (lag_pass_filter e clk iMap admin response failed evs group topics topic
             partitionMap partition offsets Hadmin Hg Ht Hp Hresp Heq).
  split.
  - intros Hsz. by rewrite (proj1 (extrapolation_of_partition _ _ _ _ _ _) Hsz).
  - intros block H L tH tL Hsz Hblock HH HL Hbounds Hc.
    rewrite Hblock. simpl.
    rewrite (proj2 (extrapolation_of_partition _ _ _ _ _ _) (Offset block) H L tH tL
               Hsz eq_refl HH HL Hbounds Hc).
    simpl. apply filter_all. intros ev.
    rewrite !elem_of_cons, elem_of_nil.
    intros [-> | [-> | []]]; unfold labelled, counter, gauge; eauto.
Qed.

(** C5 on the timeline of the extrapolation scenario, with committed offset
    40 read three seconds after the first sample: the lag is 9000 ms. *)
Lemma C5_witness :
  ∃ evs,
    metricsForLag (sampleExporter None 100) sampleClock scenarioTable = Some evs ∧
    filter (labelled "g" "orders" 0) evs =
      [ counter lagDatapointUsedExtrapolation (float64 1) ["g"; "orders"; FormatInt 0];
        gauge topicPartitionLagMillis
          (PrimFloat.sub (float64 (unixMillis (lagNow sampleClock "g" "orders" 0)))
             (extrapolated_px (mkTime 20000000000) (mkTime 0) 300 100
                (Offset (mkBlock 40 ErrNoError))))
          ["g"; "orders"; FormatInt 0] ] ∧
    PrimFloat.sub (float64 (unixMillis (lagNow sampleClock "g" "orders" 0)))
      (extrapolated_px (mkTime 20000000000) (mkTime 0) 300 100
         (Offset (mkBlock 40 ErrNoError))) = float64 9000.
Proof.
  destruct (C5_extrapolation_branch (sampleExporter None 100) sampleClock scenarioTable
              (mkAdmin (λ _ req, (Some (committedBlocks 40 req), false)))
              (committedBlocks 40 {[ "orders" := [0] ]}) false
              "g" {[ "orders" := {[ 0 := scenarioTimeline ]} ]} "orders"
              {[ 0 := scenarioTimeline ]} 0 scenarioTimeline
              eq_refl eq_refl eq_refl eq_refl eq_refl)
    as (evs & Heq & _ & Hex).
  exists evs. split; [exact Heq|]. split; [|reflexivity].
  apply (Hex (mkBlock 40 ErrNoError) 300 100 (mkTime 20000000000) (mkTime 0)).
  - vm_compute. lia.
  - reflexivity.
  - reflexivity.
  - reflexivity.
  - apply scenarioTimeline_keys.
  - simpl. lia.
Defined.

Lemma topicEvents_no_update e topic ev : ev ∈ topicEvents e topic → ¬ is_update ev.
Proof.
  unfold topicEvents, getTopicMetrics.
  destruct (negb (topicFilter e topic) || topicExclude e topic);
    [simpl; by rewrite elem_of_nil|].
  destruct (Partitions (client e) topic) as [parts|];
    [|simpl; rewrite elem_of_cons, elem_of_nil; intros [-> | []]; tauto].
  pose proof (topicPartitionsLoop_events e topic parts (<[topic:=∅]> ∅)) as H1.
  destruct (topicPartitionsLoop e topic parts (<[topic:=∅]> ∅)) as [evs o1].
  simpl in *. subst evs. rewrite elem_of_cons.
  intros [-> | Hin]; [tauto|].
  apply elem_of_flat_map in Hin as (p & _ & Hin).
  unfold topicPartitionMetrics, zookeeperLag in Hin. simpl in Hin.
  rewrite !elem_of_app in Hin.
  repeat match type of Hin with
         | _ ∨ _ => destruct Hin as [Hin | Hin]
         end.
  - destruct (Leader _ _ _); apply elem_of_cons in Hin as [-> | Hin];
      (tauto || by apply elem_of_nil in Hin).
  - destruct (GetOffset _ _ _ OffsetNewest); apply elem_of_cons in Hin as [-> | Hin];
      (tauto || by apply elem_of_nil in Hin).
  - destruct (GetOffset _ _ _ OffsetOldest); apply elem_of_cons in Hin as [-> | Hin];
      (tauto || by apply elem_of_nil in Hin).
  - destruct (Replicas _ _ _).2; apply elem_of_cons in Hin as [-> | Hin];
      (tauto || by apply elem_of_nil in Hin).
  - destruct (InSyncReplicas _ _ _).2; apply elem_of_cons in Hin as [-> | Hin];
      (tauto || by apply elem_of_nil in Hin).
  - apply elem_of_cons in Hin as [-> | Hin]; [tauto|].
    apply elem_of_cons in Hin as [-> | Hin]; [tauto|].
    destruct (useZooKeeperLag e); [|by apply elem_of_nil in Hin].
    destruct (Consumergroups (zookeeperClient e)) as [groups failed].
    apply elem_of_app in Hin as [Hin | Hin].
    + destruct failed; [|by apply elem_of_nil in Hin].
      apply elem_of_cons in Hin as [-> | Hin]; (tauto || by apply elem_of_nil in Hin).
    + apply elem_of_flat_map in Hin as (zg & _ & Hin).
      destruct (0 <? _); [|by apply elem_of_nil in Hin].
      apply elem_of_cons in Hin as [-> | Hin]; (tauto || by apply elem_of_nil in Hin).
Qed.

(** ** The filters *)

Lemma topicEvents_filtered e topic :
  topicEvents e topic ≠ [] → topicFilter e topic = true ∧ topicExclude e topic = false.
Proof.
  unfold topicEvents, getTopicMetrics.
  destruct (topicFilter e topic), (topicExclude e topic); simpl; done.
Qed.


Lemma groupIds_filtered e groups groupId :
  groupId ∈ groupIds e groups ↔
  is_Some (groups !! groupId) ∧ groupFilter e groupId = true ∧ groupExclude e groupId = false.
Proof.
  unfold groupIds. rewrite list_elem_of_filter, andb_true_iff, negb_true_iff.
  rewrite list_elem_of_fmap. split.
  - intros (Hf & [g v] & -> & Hin). apply elem_of_map_to_list in Hin. simpl in *.
    split; [eauto|done].
  - intros ([v Hv] & Hf). split; [done|]. exists (groupId, v). split; [done|].
    by apply elem_of_map_to_list.
Qed.

(** ** The whole scrape *)

Lemma panics_spec evs : panics evs = true ↔ Panic ∈ evs.
Proof.
  unfold panics. rewrite existsb_exists. split.
  - intros (ev & Hin & Hev). destruct ev; try done. by apply list_elem_of_In.
  - intros Hin. exists Panic. split; [by apply list_elem_of_In | done].
Qed.

Lemma no_panic_groupTopicMetrics e offset group topic parts :
  Panic ∉ groupTopicMetrics e offset group topic parts.
Proof.
  unfold groupTopicMetrics.
  destruct (negb (topicFilter e topic)); [apply not_elem_of_nil|].
  destruct (negb (existsb _ _)); [apply not_elem_of_nil|].
  pose proof (groupPartitionsLoop_events offset group topic (map_to_list parts) (0, 0))
    as Hev.
  destruct (groupPartitionsLoop offset group topic (map_to_list parts) (0, 0))
    as [evs [cs ls]]. simpl in Hev. subst evs.
  rewrite elem_of_app, !elem_of_cons, elem_of_nil.
  intros [Hin | [Hin | [Hin | []]]]; [|done..].
  apply elem_of_flat_map in Hin as ([p' b'] & _ & Hin).
  apply elem_of_partitionEvents in Hin.
  destruct (Err b'); [|done].
  destruct Hin as [Hin | Hin]; [done|].
  destruct (lookupOffset offset topic p') as [newest|] eqn:Hl; [|done].
  by destruct Hin as [Hin | Hin].
Qed.

Lemma no_panic_groupMetrics e offset broker group req :
  Panic ∉ groupMetrics e offset broker group req.
Proof.
  unfold groupMetrics. rewrite elem_of_cons. intros [Hin | Hin]; [done|].
  destruct (FetchOffset broker req) as [response|].
  - apply elem_of_flat_map in Hin as ([topic parts] & _ & Hin).
    by apply no_panic_groupTopicMetrics in Hin.
  - by apply list_elem_of_singleton in Hin.
Qed.

(** The pass over the groups of a broker panics exactly when it reaches a
    group with a member that has no assignment. *)
Lemma panic_in_describeGroupsLoop e offset broker groups :
  Panic ∈ describeGroupsLoop e offset broker groups ↔
  ∃ pre group post,
    groups = pre ++ group :: post ∧
    (∀ g, g ∈ pre → built (offsetFetchRequest e offset g)) ∧
    offsetFetchRequest e offset group = NilAssignment.
Proof.
  induction groups as [|group rest IH]; cbn [describeGroupsLoop].
  - rewrite elem_of_nil. split; [done|].
    intros (pre & g & post & Heq & _). by destruct pre.
  - destruct (offsetFetchRequest e offset group) as [req| |] eqn:Hreq.
    + rewrite elem_of_app, IH. split.
      * intros [Hin | (pre & g & post & -> & Hpre & Hnil)].
        { by apply no_panic_groupMetrics in Hin. }
        exists (group :: pre), g, post. split; [done|]. split; [|done].
        intros g' Hg'. apply elem_of_cons in Hg' as [-> | Hg']; [by exists req | auto].
      * intros (pre & g & post & Heq & Hpre & Hnil). right.
        destruct pre as [|g0 pre]; simpl in Heq; inversion Heq; subst.
        { congruence. }
        exists pre, g, post. split; [done|]. split; [|done].
        intros g' Hg'. apply Hpre. by apply list_elem_of_further.
    + rewrite list_elem_of_singleton. split; [done|].
      intros (pre & g & post & Heq & Hpre & Hnil).
      destruct pre as [|g0 pre]; simpl in Heq; inversion Heq; subst.
      * congruence.
      * destruct (Hpre g0 ltac:(apply list_elem_of_here)) as [req Hb]. congruence.
    + split; [|intros _; apply list_elem_of_here].
      intros _. exists [], group, rest. split; [done|]. split; [|done].
      intros g Hg. by apply elem_of_nil in Hg.
Qed.

Lemma panic_in_groupPhase e offset :
  Panic ∈ groupPhase e offset ↔
  ∃ broker groups pre group post,
    broker ∈ Brokers (client e) ∧ Open broker ≠ OpenFailed ∧
    ListGroups broker = Some groups ∧
    DescribeGroups broker (groupIds e groups) = Some (pre ++ group :: post) ∧
    (∀ g, g ∈ pre → built (offsetFetchRequest e offset g)) ∧
    offsetFetchRequest e offset group = NilAssignment.
Proof.
  assert (Hbroker : ∀ broker,
            Panic ∈ getConsumerGroupMetrics e offset broker ↔
            ∃ groups pre group post,
              Open broker ≠ OpenFailed ∧ ListGroups broker = Some groups ∧
              DescribeGroups broker (groupIds e groups) = Some (pre ++ group :: post) ∧
              (∀ g, g ∈ pre → built (offsetFetchRequest e offset g)) ∧
              offsetFetchRequest e offset group = NilAssignment).
  { intros broker. unfold getConsumerGroupMetrics.
    assert (Hlog : ∀ msg, Panic ∈ [LogError msg] ↔ False).
    { intros msg. rewrite list_elem_of_singleton. done. }
    assert (Hgo : Panic ∈ match ListGroups broker with
                          | Some groups =>
                              match DescribeGroups broker (groupIds e groups) with
                              | Some describeGroups =>
                                  describeGroupsLoop e offset broker describeGroups
                              | None => [LogError "Cannot get describe groups"]
                              end
                          | None => [LogError "Cannot get consumer group"]
                          end ↔
                  ∃ groups pre group post,
                    ListGroups broker = Some groups ∧
                    DescribeGroups broker (groupIds e groups) = Some (pre ++ group :: post) ∧
                    (∀ g, g ∈ pre → built (offsetFetchRequest e offset g)) ∧
                    offsetFetchRequest e offset group = NilAssignment).
    { destruct (ListGroups broker) as [groups|].
      - destruct (DescribeGroups broker (groupIds e groups)) as [descr|] eqn:Hd.
        + rewrite panic_in_describeGroupsLoop. split.
          * intros (pre & g & post & -> & Hpre & Hnil). by exists groups, pre, g, post.
          * intros (groups' & pre & g & post & [= <-] & Hd' & Hpre & Hnil).
            rewrite Hd in Hd'. inversion Hd'; subst. by exists pre, g, post.
        + rewrite Hlog. split; [done|].
          intros (groups' & pre & g & post & [= <-] & Hd' & _). congruence.
      - rewrite Hlog. split; [done|]. by intros (groups' & pre & g & post & [=] & _). }
    destruct (Open broker) eqn:Ho.
    - rewrite Hgo. split.
      + intros (groups & pre & g & post & H). by exists groups, pre, g, post.
      + intros (groups & pre & g & post & _ & H). by exists groups, pre, g, post.
    - rewrite Hgo. split.
      + intros (groups & pre & g & post & H). by exists groups, pre, g, post.
      + intros (groups & pre & g & post & _ & H). by exists groups, pre, g, post.
    - rewrite Hlog. split; [done|]. by intros (groups & pre & g & post & Hne & _). }
  unfold groupPhase. destruct (Brokers (client e)) as [|b bs] eqn:Hb.
  - rewrite list_elem_of_singleton. split; [done|].
    intros (broker & groups & pre & g & post & Hin & _). by apply elem_of_nil in Hin.
  - rewrite elem_of_flat_map. split.
    + intros (broker & Hin & Hp). apply Hbroker in Hp as (groups & pre & g & post & Hp).
      by exists broker, groups, pre, g, post.
    + intros (broker & groups & pre & g & post & Hin & Hp). exists broker. split; [done|].
      apply Hbroker. by exists groups, pre, g, post.
Qed.

(** A request ends in the dereference of a nil assignment exactly when the
    members are read and one without assignment comes before any whose
    assignment has an error. *)
Lemma addMembers_nil req members :
  addMembers req members = NilAssignment ↔
  ∃ pre member post,
    members = pre ++ member :: post ∧
    (∀ m, m ∈ pre → ∃ topics, GetMemberAssignment m = Assigned topics) ∧
    GetMemberAssignment member = NotAssigned.
Proof.
  revert req. induction members as [|m rest IH]; intros req; cbn [addMembers].
  - split; [done|]. intros (pre & member & post & Heq & _). by destruct pre.
  - destruct (GetMemberAssignment m) as [topics| |] eqn:Hm.
    + rewrite IH. split.
      * intros (pre & member & post & -> & Hpre & Hnil).
        exists (m :: pre), member, post. split; [done|]. split; [|done].
        intros m' Hm'. apply elem_of_cons in Hm' as [-> | Hm']; [by exists topics | auto].
      * intros (pre & member & post & Heq & Hpre & Hnil).
        destruct pre as [|m0 pre]; simpl in Heq; inversion Heq; subst.
        { congruence. }
        exists pre, member, post. split; [done|]. split; [|done].
        intros m' Hm'. apply Hpre. by apply list_elem_of_further.
    + split; [|done]. intros _. exists [], m, rest. split; [done|]. split; [|done].
      intros m' Hm'. by apply elem_of_nil in Hm'.
    + split; [done|]. intros (pre & member & post & Heq & Hpre & Hnil).
      destruct pre as [|m0 pre]; simpl in Heq; inversion Heq; subst.
      * congruence.
      * destruct (Hpre m0 ltac:(apply list_elem_of_here)) as [topics Ht]. congruence.
Qed.

Lemma offsetFetchRequest_nil e offset group :
  offsetFetchRequest e offset group = NilAssignment ↔
  offsetShowAll e = false ∧
  ∃ pre member post,
    Members group = pre ++ member :: post ∧
    (∀ m, m ∈ pre → ∃ topics, GetMemberAssignment m = Assigned topics) ∧
    GetMemberAssignment member = NotAssigned.
Proof.
  unfold offsetFetchRequest. destruct (offsetShowAll e).
  - split; [done|]. by intros [? _].
  - rewrite addMembers_nil. split; [by intros ? | by intros [_ ?]].
Qed.


(** [collect] when the topic list is obtained, the pool can take the
    topics and no goroutine of the consumer-group pass panics. *)
Lemma collect_unfold e clk topics :
  Topics (client e) = Some topics →
  1 ≤ poolSize e topics ∨ enqueued e topics = [] →
  Panic ∉ groupPhase e (topicPhase e (enqueued e topics) ∅).2 →
  ∃ lag,
    metricsForLag e clk
      (applyEvents clk (consumerGroupLagTable e)
         (groupPhase e (topicPhase e (enqueued e topics) ∅).2)) = Some lag ∧
    collect e clk =
      mkScrape Returned
        (brokerMetrics e ++ (refreshMetadata e (scrapeNow clk)).1 ++
         flat_map (topicEvents e) (enqueued e topics) ++
         groupPhase e (topicPhase e (enqueued e topics) ∅).2 ++ lag)
        (withLagTable (refreshMetadata e (scrapeNow clk)).2
           (applyEvents clk (consumerGroupLagTable e)
              (groupPhase e (topicPhase e (enqueued e topics) ∅).2))).
Proof.
  intros Ht Hpool Hcalm. unfold collect. rewrite Ht.
  destruct (refreshMetadata e (scrapeNow clk)) as [ev1 e1].
  assert ((poolSize e topics <? 1) && negb (bool_decide (enqueued e topics = [])) = false)
    as ->.
  { destruct Hpool as [Hn | Hq].
    - apply andb_false_iff. left. apply Z.ltb_ge. lia.
    - apply andb_false_iff. right. by rewrite bool_decide_eq_true_2. }
  pose proof (topicPhase_events e (enqueued e topics) ∅) as Hev.
  destruct (topicPhase e (enqueued e topics) ∅) as [ev2 offset]. simpl in *.
  destruct (panics (groupPhase e offset)) eqn:Hp.
  { apply panics_spec in Hp. done. }
  destruct (metricsForLag_total e clk
              (applyEvents clk (consumerGroupLagTable e) (groupPhase e offset)))
    as [lag Hlag].
  exists lag. split; [done|]. rewrite Hlag. by rewrite Hev.
Qed.

(** [collect] when a goroutine of the consumer-group pass panics. *)
Lemma collect_panicked e clk topics :
  Topics (client e) = Some topics →
  1 ≤ poolSize e topics ∨ enqueued e topics = [] →
  Panic ∈ groupPhase e (topicPhase e (enqueued e topics) ∅).2 →
  status (collect e clk) = Panicked.
Proof.
  intros Ht Hpool Hpanic. unfold collect. rewrite Ht.
  destruct (refreshMetadata e (scrapeNow clk)) as [ev1 e1].
  assert ((poolSize e topics <? 1) && negb (bool_decide (enqueued e topics = [])) = false)
    as ->.
  { destruct Hpool as [Hn | Hq].
    - apply andb_false_iff. left. apply Z.ltb_ge. lia.
    - apply andb_false_iff. right. by rewrite bool_decide_eq_true_2. }
  destruct (topicPhase e (enqueued e topics) ∅) as [ev2 offset]. simpl in *.
  apply panics_spec in Hpanic. by rewrite Hpanic.
Qed.

(** Every timeline update of a scrape carries the newest producer offset
    the scrape recorded for that (topic, partition). *)
Lemma update_in_collect e clk g t p v :
  CreateOrUpdate g t p v ∈ events (collect e clk) →
  ∃ topics, Topics (client e) = Some topics ∧
            lookupOffset (topicPhase e (enqueued e topics) ∅).2 t p = Some v.
Proof.
  assert (Hb : CreateOrUpdate g t p v ∉ brokerMetrics e).
  { unfold brokerMetrics, gauge. rewrite elem_of_cons. intros [Heq | Hin].
    - discriminate Heq.
    - apply list_elem_of_In, in_map_iff in Hin as (b & Heq & _). discriminate Heq. }
  assert (Hr : CreateOrUpdate g t p v ∉ (refreshMetadata e (scrapeNow clk)).1).
  { unfold refreshMetadata. destruct (After _ _); simpl; [|apply not_elem_of_nil].
    destruct (RefreshMetadata (client e)); [apply not_elem_of_nil|].
    rewrite elem_of_cons, elem_of_nil. by intros [|]. }
  intros Hin. destruct (Topics (client e)) as [topics|] eqn:Ht.
  - exists topics. split; [done|].
    unfold collect in Hin. rewrite Ht in Hin.
    destruct (refreshMetadata e (scrapeNow clk)) as [ev1 e1]. cbn [fst] in Hr.
    destruct ((poolSize e topics <? 1) && _).
    { cbn [events] in Hin. rewrite elem_of_app in Hin. tauto. }
    pose proof (topicPhase_events e (enqueued e topics) ∅) as Hev.
    destruct (topicPhase e (enqueued e topics) ∅) as [ev2 offset]. cbn [fst snd] in *.
    assert (Ht2 : CreateOrUpdate g t p v ∉ ev2).
    { rewrite Hev. intros Hin2. apply elem_of_flat_map in Hin2 as (topic & _ & Hin2).
      by apply topicEvents_no_update in Hin2. }
    destruct (panics (groupPhase e offset)).
    { cbn [events] in Hin. rewrite !elem_of_app in Hin.
      destruct Hin as [? | [? | [? | Hin]]]; try done.
      by eapply update_in_groupPhase. }
    destruct (metricsForLag e clk _) as [lag|] eqn:Hlag; cbn [events] in Hin;
      rewrite !elem_of_app in Hin.
    + destruct Hin as [? | [? | [? | [Hin | Hin]]]]; try done.
      * by eapply update_in_groupPhase.
      * by apply (metricsForLag_no_update _ _ _ _ _ Hlag) in Hin.
    + destruct Hin as [? | [? | [? | Hin]]]; try done.
      by eapply update_in_groupPhase.
  - unfold collect in Hin. rewrite Ht in Hin.
    destruct (refreshMetadata e (scrapeNow clk)) as [ev1 e1].
    cbn [events fst] in Hin, Hr.
    rewrite !elem_of_app, elem_of_cons, elem_of_nil in Hin.
    destruct Hin as [? | [? | [? | []]]]; done.
Qed.

(** ** What the offset map records *)

Lemma lookupOffset_storeOffset (offset : OffsetMap) t p v t' p' :
  lookupOffset (storeOffset offset t p v) t' p' =
  if decide (t' = t ∧ p' = p) then Some v else lookupOffset offset t' p'.
Proof.
  unfold lookupOffset, storeOffset.
  destruct (decide (t' = t)) as [->|Hne].
  - rewrite lookup_insert_eq. simpl.
    destruct (decide (p' = p)) as [->|Hp].
    + rewrite lookup_insert_eq. by rewrite decide_True.
    + rewrite lookup_insert_ne by done. rewrite decide_False by tauto.
      by destruct (offset !! t).
  - rewrite lookup_insert_ne by done. by rewrite decide_False by tauto.
Qed.

Lemma lookupOffset_reset (offset : OffsetMap) t t' p' :
  lookupOffset (<[t := ∅]> offset) t' p' =
  if decide (t' = t) then None else lookupOffset offset t' p'.
Proof.
  unfold lookupOffset. destruct (decide (t' = t)) as [->|Hne].
  - by rewrite lookup_insert_eq.
  - by rewrite lookup_insert_ne.
Qed.

Lemma topicPartitionsLoop_offset e topic parts (offset : OffsetMap) t' p' :
  lookupOffset (topicPartitionsLoop e topic parts offset).2 t' p' =
  if decide (t' = topic ∧ p' ∈ parts ∧
             is_Some (GetOffset (client e) topic p' OffsetNewest))
  then GetOffset (client e) topic p' OffsetNewest
  else lookupOffset offset t' p'.
Proof.
  revert offset. induction parts as [|partition rest IH]; intros offset; simpl.
  - rewrite decide_False; [done|]. intros (_ & Hin & _). by apply elem_of_nil in Hin.
  - specialize (IH match GetOffset (client e) topic partition OffsetNewest with
                   | Some v => storeOffset offset topic partition v
                   | None => offset
                   end).
    destruct (topicPartitionsLoop e topic rest _) as [evs' offset']. simpl in *.
    rewrite IH. clear IH.
    destruct (decide (t' = topic ∧ p' ∈ rest ∧ _)) as [(-> & Hin & Hs)|Hn].
    + rewrite decide_True; [done|]. rewrite elem_of_cons. tauto.
    + destruct (GetOffset (client e) topic partition OffsetNewest) as [v|] eqn:Hg.
      * rewrite lookupOffset_storeOffset.
        destruct (decide (t' = topic ∧ p' = partition)) as [[-> ->]|Hn'].
        -- rewrite decide_True; [by rewrite Hg|]. rewrite elem_of_cons, Hg. eauto.
        -- rewrite decide_False; [done|]. rewrite elem_of_cons. tauto.
      * rewrite decide_False; [done|]. rewrite elem_of_cons.
        intros (-> & [-> | Hin] & Hs); [|tauto]. rewrite Hg in Hs. by destruct Hs.
Qed.

Lemma getTopicMetrics_offset e topic (offset : OffsetMap) t' p' :
  lookupOffset (getTopicMetrics e topic offset).2 t' p' =
  if negb (topicFilter e topic) || topicExclude e topic then lookupOffset offset t' p'
  else
    match Partitions (client e) topic with
    | None => lookupOffset offset t' p'
    | Some parts =>
        if decide (t' = topic) then
          if decide (p' ∈ parts) then GetOffset (client e) topic p' OffsetNewest else None
        else lookupOffset offset t' p'
    end.
Proof.
  unfold getTopicMetrics.
  destruct (negb (topicFilter e topic) || topicExclude e topic); [done|].
  destruct (Partitions (client e) topic) as [parts|]; [|done].
  pose proof (topicPartitionsLoop_offset e topic parts (<[topic:=∅]> offset) t' p') as Hl.
  destruct (topicPartitionsLoop e topic parts (<[topic:=∅]> offset)) as [evs offset'].
  simpl in *. rewrite Hl, lookupOffset_reset. clear Hl.
  destruct (decide (t' = topic)) as [->|Hne].
  - destruct (decide (p' ∈ parts)) as [Hin|Hnin].
    + destruct (GetOffset (client e) topic p' OffsetNewest) as [v|] eqn:Hg.
      * rewrite decide_True; eauto.
      * rewrite decide_False; [done|]. intros (_ & _ & Hs). by destruct Hs.
    + rewrite decide_False; [done|]. tauto.
  - rewrite decide_False; [done|]. tauto.
Qed.

(** The offset map holds, for a (topic, partition), the newest offset the
    client reported in this scrape, and nothing else. *)
Lemma recorded_sound e queue (offset : OffsetMap) t p v :
  (∀ t p v, lookupOffset offset t p = Some v → newestOf e t p v) →
  lookupOffset (topicPhase e queue offset).2 t p = Some v → newestOf e t p v.
Proof.
  revert offset. induction queue as [|topic rest IH]; intros offset Hinv; simpl.
  - apply Hinv.
  - pose proof (λ t' p', getTopicMetrics_offset e topic offset t' p') as Hl.
    destruct (getTopicMetrics e topic offset) as [evs offset1].
    specialize (IH offset1).
    destruct (topicPhase e rest offset1) as [evs' offset2]. simpl in *.
    apply IH. intros t' p' v'. rewrite Hl.
    destruct (topicFilter e topic) eqn:Hf, (topicExclude e topic) eqn:Hx; simpl;
      try apply Hinv.
    destruct (Partitions (client e) topic) as [parts|] eqn:Hp; [|apply Hinv].
    destruct (decide (t' = topic)) as [->|Hne]; [|apply Hinv].
    destruct (decide (p' ∈ parts)) as [Hin|]; [|done].
    intros Hg. unfold newestOf. eauto 10.
Qed.

Lemma recorded_complete e queue (offset : OffsetMap) t p v :
  newestOf e t p v →
  t ∈ queue ∨ lookupOffset offset t p = Some v →
  lookupOffset (topicPhase e queue offset).2 t p = Some v.
Proof.
  intros (Hf & Hx & parts & Hp & Hin & Hg).
  revert offset. induction queue as [|topic rest IH]; intros offset Hq; simpl.
  - destruct Hq as [Hq | Hq]; [by apply elem_of_nil in Hq | done].
  - pose proof (getTopicMetrics_offset e topic offset t p) as Hl.
    destruct (getTopicMetrics e topic offset) as [evs offset1].
    specialize (IH offset1).
    destruct (topicPhase e rest offset1) as [evs' offset2]. simpl in *.
    destruct (decide (t = topic)) as [->|Hne].
    + apply IH. right. rewrite Hl, Hf, Hx, Hp. cbn [negb orb].
      repeat (rewrite decide_True by done). done.
    + apply IH. destruct Hq as [Hq | Hq].
      * apply elem_of_cons in Hq as [? | Hq]; [done | by left].
      * right. rewrite Hl.
        destruct (negb (topicFilter e topic) || topicExclude e topic); [done|].
        by destruct (Partitions (client e) topic).
Qed.

(** The newest-offset metric of a partition is emitted from the value the
    offset map records for it. *)
Lemma recorded_is_emitted e queue t p v :
  lookupOffset (topicPhase e queue ∅).2 t p = Some v →
  t ∈ queue →
  gauge topicCurrentOffset (float64 v) [t; FormatInt p] ∈ flat_map (topicEvents e) queue.
Proof.
  intros Hl Hq.
  apply recorded_sound in Hl as (Hf & Hx & parts & Hp & Hin & Hg); [|done].
  apply elem_of_flat_map. exists t. split; [done|].
  unfold topicEvents, getTopicMetrics. rewrite Hf, Hx, Hp. simpl.
  pose proof (topicPartitionsLoop_events e t parts (<[t:=∅]> ∅)) as Hev.
  destruct (topicPartitionsLoop e t parts (<[t:=∅]> ∅)) as [evs o1]. simpl in *.
  subst evs. apply elem_of_cons. right. apply elem_of_flat_map. exists p.
  split; [done|]. unfold topicPartitionMetrics. rewrite Hg.
  cbn [fst]. rewrite !elem_of_app. right. left. apply list_elem_of_here.
Qed.

(** ** The filters, continued *)

(** The consumer-group pass consults the include filter of topics only. *)
Lemma groupTopicMetrics_filtered e offset group topic parts :
  groupTopicMetrics e offset group topic parts ≠ [] → topicFilter e topic = true.
Proof. unfold groupTopicMetrics. by destruct (topicFilter e topic). Qed.

(** C7. The exclude filter is not applied to consumer-group metrics: the
    topic ["internal"] matches the include and the exclude filter; the topic
    pass emits nothing for it, but the consumer-group pass emits the
    committed offset and the sums of group ["g"] labelled with it. *)
Theorem C7_excluded_topic_in_group_metrics :
  let e := sampleExporter (Some ["orders"; "internal"]) 100 in
  topicFilter e "internal" = true ∧ topicExclude e "internal" = true ∧
  topicEvents e "internal" = [] ∧
  gauge consumergroupCurrentOffset (float64 40) ["g"; "internal"; "0"]
    ∈ events (collect e sampleClock) ∧
  gauge consumergroupLagSum (float64 0) ["g"; "internal"]
    ∈ events (collect e sampleClock).
Proof.
  repeat split; try reflexivity.
  - apply list_elem_of_In. vm_compute. tauto.
  - apply list_elem_of_In. vm_compute. tauto.
Qed.

(** C2. The older variant updates the timeline with the committed offset:
    with newest offset 100 recorded for (orders, 0) and committed offset 40
    it calls [createOrUpdate] with 40, and it calls it as well when the
    offset map has no entry for the partition. On the same input
    [exporter/exporter.go] calls it with 100 ([update_in_collect] is the
    general statement for that file). *)
Theorem C2_old_variant_updates_with_committed_offset :
  Legacy.groupTopicMetrics {[ "orders" := {[ 0 := 100 ]} ]} "g" "orders"
      {[ 0 := mkBlock 40 ErrNoError ]} =
    [ gauge consumergroupCurrentOffset (float64 40) ["g"; "orders"; "0"];
      CreateOrUpdate "g" "orders" 0 40;
      gauge consumergroupLag (float64 60) ["g"; "orders"; "0"];
      gauge consumergroupCurrentOffsetSum (float64 40) ["g"; "orders"];
      gauge consumergroupLagSum (float64 60) ["g"; "orders"] ] ∧
  Legacy.groupTopicMetrics ∅ "g" "orders" {[ 0 := mkBlock 40 ErrNoError ]} =
    [ gauge consumergroupCurrentOffset (float64 40) ["g"; "orders"; "0"];
      CreateOrUpdate "g" "orders" 0 40;
      LogError "No offset of topic, cannot get consumer group lag";
      gauge consumergroupCurrentOffsetSum (float64 40) ["g"; "orders"];
      gauge consumergroupLagSum (float64 0) ["g"; "orders"] ] ∧
  groupTopicMetrics (sampleExporter None 100) {[ "orders" := {[ 0 := 100 ]} ]}
      "g" "orders" {[ 0 := mkBlock 40 ErrNoError ]} =
    [ gauge consumergroupCurrentOffset (float64 40) ["g"; "orders"; "0"];
      CreateOrUpdate "g" "orders" 0 100;
      gauge consumergroupLag (float64 60) ["g"; "orders"; "0"];
      gauge consumergroupCurrentOffsetSum (float64 40) ["g"; "orders"];
      gauge consumergroupLagSum (float64 60) ["g"; "orders"] ].
Proof. repeat split; vm_compute; reflexivity. Qed.

(** ** Which calls decide which metrics *)

Lemma recorded_in_queue e queue (offset : OffsetMap) t p v :
  lookupOffset (topicPhase e queue offset).2 t p = Some v →
  t ∈ queue ∨ lookupOffset offset t p = Some v.
Proof.
  revert offset. induction queue as [|topic rest IH]; intros offset; simpl; [by right|].
  pose proof (getTopicMetrics_offset e topic offset t p) as Hl.
  destruct (getTopicMetrics e topic offset) as [evs offset1].
  specialize (IH offset1).
  destruct (topicPhase e rest offset1) as [evs' offset2]. simpl in *.
  intros Hv. destruct (IH Hv) as [Hin|Hv1]; [left; by apply list_elem_of_further|].
  rewrite Hl in Hv1.
  destruct (negb (topicFilter e topic) || topicExclude e topic); [by right|].
  destruct (Partitions (client e) topic); [|by right].
  destruct (decide (t = topic)) as [->|]; [left; apply list_elem_of_here|by right].
Qed.





(** While the requests can be built, the loop over the described groups
    handles the groups one after the other. *)
Lemma describeGroupsLoop_app e offset broker pre rest :
  (∀ g, g ∈ pre → built (offsetFetchRequest e offset g)) →
  describeGroupsLoop e offset broker (pre ++ rest) =
  describeGroupsLoop e offset broker pre ++ describeGroupsLoop e offset broker rest.
Proof.
  intros Hpre. induction pre as [|g pre IH]; [done|].
  cbn [app describeGroupsLoop].
  destruct (Hpre g ltac:(apply list_elem_of_here)) as [req Hreq]. rewrite Hreq.
  rewrite IH; [|intros g' Hg'; apply Hpre; by apply list_elem_of_further].
  by rewrite app_assoc.
Qed.








(** C6 on a partition with newest offset 100 and committed offset 40. *)
Lemma C6_witness :
  let offset : OffsetMap := {[ "orders" := {[ 0 := 100 ]} ]} in
  let evs := groupTopicMetrics (sampleExporter None 100) offset "g" "orders"
               {[ 0 := mkBlock 40 ErrNoError ]} in
  let labels := ["g"; "orders"; FormatInt 0] in
  gauge consumergroupCurrentOffset (float64 (Offset (mkBlock 40 ErrNoError))) labels ∈ evs ∧
  (∀ v, gauge consumergroupLag v labels ∈ evs ↔
        v = float64 (if decide (Offset (mkBlock 40 ErrNoError) = -1) then -1
                     else sub64 100 (Offset (mkBlock 40 ErrNoError)))) ∧
  (∀ v, gauge consumergroupLagSum v ["g"; "orders"] ∈ evs ↔
        v = float64 (groupPartitionsLoop offset "g" "orders"
                       (filter (λ pb, Offset pb.2 ≠ -1)
                          (map_to_list ({[ 0 := mkBlock 40 ErrNoError ]}
                                          : gmap Z OffsetFetchResponseBlock)))
                       (0, 0)).2.2).
Proof.
  apply (C6_consumergroup_lag (sampleExporter None 100) {[ "orders" := {[ 0 := 100 ]} ]}
           "g" "orders" {[ 0 := mkBlock 40 ErrNoError ]} 0 (mkBlock 40 ErrNoError) 100).
  - reflexivity.
  - exists 0, (mkBlock 40 ErrNoError). split; [reflexivity | simpl; lia].
  - reflexivity.
  - reflexivity.
  - reflexivity.
Defined.

Import TopicPool.

(** ** The topic worker pool *)

Lemma sum_list_insert (f : Worker → nat) (ws : list Worker) i x y :
  ws !! i = Some x →
  (sum_list_with f (<[i := y]> ws) + f x = sum_list_with f ws + f y)%nat.
Proof.
  revert i. induction ws as [|w ws IH]; intros i Hi; [done|].
  destruct i as [|i]; simpl in *.
  - inversion Hi; subst. lia.
  - specialize (IH i Hi). lia.
Qed.

Lemma sum_list_with_replicate (f : Worker → nat) n w :
  sum_list_with f (replicate n w) = (n * f w)%nat.
Proof. induction n as [|n IH]; simpl; lia. Qed.

(** Every step uses up some of the weight: no execution is infinite. *)
Lemma step_weight v s s' : step v s s' → (weight s' < weight s)%nat.
Proof.
  destruct 1; unfold weight; simpl.
  - rewrite sum_list_with_app, sum_list_with_replicate. simpl. lia.
  - lia.
  - pose proof (sum_list_insert workerWeight ws i _ (Working d topic) H) as Hs.
    simpl in Hs. lia.
  - destruct v; simpl.
    + pose proof (sum_list_insert workerWeight ws i _ (Receiving d) H) as Hs.
      simpl in Hs. lia.
    + pose proof (sum_list_insert workerWeight ws i _ (Receiving (S d)) H) as Hs.
      simpl in Hs. lia.
  - lia.
  - pose proof (sum_list_insert workerWeight ws i _ Exited H) as Hs.
    simpl in Hs. lia.
  - lia.
Qed.

Ltac prog_head :=
  match goal with
  | H : _ :: _ = map Send ?sends ++ _ |- _ =>
      destruct sends as [|? ?]; simpl in H; inversion H; subst; clear H
  end.

Lemma insert_nonempty (ws : list Worker) i w x : ws !! i = Some w → <[i := x]> ws ≠ [].
Proof.
  intros Hget Hnil. apply (f_equal length) in Hnil. rewrite length_insert in Hnil.
  apply lookup_lt_Some in Hget. simpl in Hnil. lia.
Qed.

Lemma working_insert (ws : list Worker) i w x :
  ws !! i = Some w →
  Z.of_nat (working (<[i := x]> ws)) = Z.of_nat (working ws) - Z.of_nat (busy w) + Z.of_nat (busy x).
Proof.
  intros Hget. pose proof (sum_list_insert busy ws i w x Hget). unfold working. lia.
Qed.

Lemma PoolInv_step s s' : PoolInv s → step Current s s' → PoolInv s'.
Proof.
  intros Hinv Hstep.
  destruct Hinv as [n sends hd Hn | sends ws hd Hws Hlive | topic sends ws hd Hws Hlive
                   | ws hd Hcalm | ];
    inversion Hstep; subst; simpl in *; try prog_head.
  all: try match goal with H : [] !! _ = Some _ |- _ => by rewrite lookup_nil in H end.
  all: try match goal with
       | Hl : Forall live ?ws, H : ?ws !! _ = Some _ |- _ =>
           pose proof (Forall_lookup_1 _ _ _ _ Hl H) as Hd; simpl in Hd; subst
       | Hl : Forall calm ?ws, H : ?ws !! _ = Some (Receiving _) |- _ =>
           pose proof (Forall_lookup_1 _ _ _ _ Hl H) as Hd; simpl in Hd; subst
       | Hl : Forall calm ?ws, H : ?ws !! _ = Some (Working _ _) |- _ =>
           pose proof (Forall_lookup_1 _ _ _ _ Hl H) as Hd; simpl in Hd; subst
       end.
  all: try match goal with
       | H : ?ws !! ?i = Some ?w |- PoolInv (mkPool _ (<[?i := ?x]> ?ws) _ ?wg _) =>
           pose proof (working_insert ws i w x H) as Hw; simpl in Hw
       end.
  - (* spawn *)
    replace 0 with (Z.of_nat (working (replicate (Z.to_nat n) (Receiving 0))))
      by (unfold working; rewrite sum_list_with_replicate; simpl; lia).
    apply (inv_sending sends (replicate (Z.to_nat n) (Receiving 0)) hd).
    + destruct Hn as [Hn | ->]; [left | by right].
      destruct (Z.to_nat n) eqn:E; [lia | done].
    + apply Forall_replicate. done.
  - (* wg.Add(1) *)
    apply inv_announced; [by destruct Hws | done].
  - (* a worker returns from getTopicMetrics *)
    replace (Z.of_nat (working ws) - 1) with (Z.of_nat (working (<[i:=Receiving 0]> ws)))
      by lia.
    apply inv_sending; [left; by eapply insert_nonempty | by apply Forall_insert].
  - (* close *)
    apply inv_draining. eapply Forall_impl; [exact Hlive|]. by intros [].
  - (* the send meets a receive *)
    replace (Z.of_nat (working ws) + 1)
      with (Z.of_nat (working (<[i:=Working 0 topic]> ws))) by lia.
    apply inv_sending; [left; by eapply insert_nonempty | by apply Forall_insert].
  - (* a worker returns while the producer is blocked in the send *)
    replace (Z.of_nat (working ws) + 1 - 1)
      with (Z.of_nat (working (<[i:=Receiving 0]> ws)) + 1) by lia.
    apply inv_announced; [by eapply insert_nonempty | by apply Forall_insert].
  - (* a worker returns while the producer waits *)
    replace (Z.of_nat (working ws) - 1) with (Z.of_nat (working (<[i:=Receiving 0]> ws)))
      by lia.
    apply inv_draining. by apply Forall_insert.
  - (* exit *)
    replace (Z.of_nat (working ws) - Z.of_nat 0) with (Z.of_nat (working (<[i:=Exited]> ws)))
      by lia.
    apply inv_draining. by apply Forall_insert.
  - (* wait *)
    apply inv_done.
  - apply inv_done.
  - apply inv_done.
Qed.

Lemma working_positive (ws : list Worker) :
  (0 < working ws)%nat → ∃ i d topic, ws !! i = Some (Working d topic).
Proof.
  induction ws as [|w ws IH]; unfold working; simpl; [lia|].
  destruct w as [d | d topic |]; simpl.
  - intros Hpos. destruct (IH Hpos) as (i & d' & t & Hi). by exists (S i), d', t.
  - intros _. by exists 0%nat, d, topic.
  - intros Hpos. destruct (IH Hpos) as (i & d' & t & Hi). by exists (S i), d', t.
Qed.

(** In a state of the invariant the producer is at the end of its program
    or some goroutine can move. *)
Lemma PoolInv_progress s : PoolInv s → prog s = [] ∨ ∃ s', step Current s s'.
Proof.
  destruct 1 as [n sends hd Hn | sends ws hd Hws Hlive | topic sends ws hd Hws Hlive
                | ws hd Hcalm | ].
  - right. eexists. apply step_spawn.
  - right. destruct sends as [|topic sends]; simpl.
    + eexists. apply step_close.
    + eexists. apply step_add.
  - right. destruct ws as [|w ws]; [done|].
    apply Forall_cons in Hlive as [Hw _].
    destruct w as [d | d topic' |]; [| |done].
    + eexists. by apply (step_send Current topic _ (Receiving d :: ws) _ _ 0%nat d).
    + eexists.
      by apply (step_finish Current _ (Working d topic' :: ws) _ _ _ 0%nat d topic').
  - right. destruct (working ws) as [|k] eqn:Hk.
    + eexists. apply step_wait.
    + destruct (working_positive ws ltac:(lia)) as (i & d & topic & Hi).
      eexists. by apply (step_finish Current _ ws _ _ _ i d topic).
  - by left.
Qed.

Lemma PoolInv_terminates s : PoolInv s → terminates Current s.
Proof.
  remember (weight s) as k eqn:Hk. revert s Hk.
  induction (lt_wf k) as [k _ IH]. intros s -> Hinv.
  destruct (PoolInv_progress s Hinv) as [Hdone | Hstep].
  - by apply terminates_done.
  - apply terminates_step; [done|].
    intros s' Hs'. eapply IH; [by eapply step_weight | done | by eapply PoolInv_step].
Qed.

(** A state that is not final and has no step does not terminate. *)
Lemma blocked_not_terminates v s :
  prog s ≠ [] → (∀ s', ¬ step v s s') → ¬ terminates v s.
Proof. intros Hprog Hstuck Ht. destruct Ht as [s Hd | s [s' Hs] _]; [done | by eapply Hstuck]. Qed.

Lemma terminates_step_inv v s s' :
  terminates v s → prog s ≠ [] → step v s s' → terminates v s'.
Proof. intros Ht Hprog Hs. destruct Ht as [s Hd | s _ Hall]; [done | auto]. Qed.

(** With nobody to receive, a send never happens: the producer adds to the
    wait group and waits on the channel forever. *)
Lemma send_without_worker_blocks v topic rest hd :
  ¬ terminates v (mkPool (Send topic :: rest) [] false 0 hd).
Proof.
  intros Ht. eapply terminates_step_inv in Ht; [|done|apply step_add].
  revert Ht. apply blocked_not_terminates; [done|].
  intros s' Hs. inversion Hs; subst;
    match goal with H : [] !! _ = Some _ |- _ => by rewrite lookup_nil in H end.
Qed.

Lemma poolSize_positive e topics :
  1 ≤ topicWorkers e → 1 ≤ poolSize e topics ∨ enqueued e topics = [].
Proof.
  intros Hw. unfold poolSize. destruct topics as [|t1 [|t2 rest]].
  - by right.
  - left. simpl. lia.
  - left. destruct (1 <? Z.of_nat (length (t1 :: t2 :: rest))) eqn:E; [|apply Z.ltb_ge in E; simpl in E; lia].
    assert (1 ≤ Z.of_nat (length (t1 :: t2 :: rest)) `quot` 2).
    { apply Z.quot_le_lower_bound; simpl length; lia. }
    lia.
Qed.

(** When the workers are started first, the topic phase ends exactly when
    a worker exists or nothing is enqueued: what [collect] reports as
    [Blocked]. *)
Lemma topic_phase_terminates_iff e topics :
  terminates Current (start (program e topics)) ↔
  1 ≤ poolSize e topics ∨ enqueued e topics = [].
Proof.
  split.
  - intros Ht. destruct (decide (1 ≤ poolSize e topics)) as [|Hn]; [by left|].
    destruct (enqueued e topics) as [|topic queue] eqn:Hq; [by right|]. exfalso.
    unfold start, program in Ht. rewrite Hq in Ht. simpl in Ht.
    eapply terminates_step_inv in Ht; [|done|apply step_spawn].
    replace (Z.to_nat (poolSize e topics)) with 0%nat in Ht by lia. simpl in Ht.
    by eapply send_without_worker_blocks.
  - intros Hpool. apply PoolInv_terminates. by apply inv_start.
Qed.

(** C8, amended. In [exporter/exporter.go] the producer starts
    [N] workers, [N = min(len(topics)/2, topicWorkers)] for more than one
    topic and [N = len(topics)] otherwise, before it sends the first topic;
    with at least one topic worker configured every execution of the topic
    phase reaches the end of [wg.Wait()]. *)
Theorem C8_topic_phase_terminates e topics :
  1 ≤ topicWorkers e →
  program e topics =
    Spawn (if 1 <? Z.of_nat (length topics)
           then Z.min (Z.of_nat (length topics) `quot` 2) (topicWorkers e)
           else Z.of_nat (length topics)) ::
    map Send (enqueued e topics) ++ [Close; Wait] ∧
  terminates Current (start (program e topics)).
Proof.
  intros Hw. split; [done|].
  apply topic_phase_terminates_iff. by apply poolSize_positive.
Qed.

(** C8 for two topics and 100 topic workers. *)
Lemma C8_witness :
  let e := sampleExporter (Some ["orders"; "payments"]) 100 in
  program e ["orders"; "payments"] =
    Spawn (if 1 <? Z.of_nat (length ["orders"; "payments"])
           then Z.min (Z.of_nat (length ["orders"; "payments"]) `quot` 2) (topicWorkers e)
           else Z.of_nat (length ["orders"; "payments"])) ::
    map Send (enqueued e ["orders"; "payments"]) ++ [Close; Wait] ∧
  terminates Current (start (program e ["orders"; "payments"])).
Proof.
  apply (C8_topic_phase_terminates (sampleExporter (Some ["orders"; "payments"]) 100)
           ["orders"; "payments"]).
  simpl. lia.
Defined.

(** C8 does not hold without a topic worker: with [topicWorkers = 0] and
    two topics that pass the filters no worker is started, the first send
    never completes, and [collect] does not return. *)
Lemma C8_no_worker_blocks :
  let e := sampleExporter (Some ["orders"; "payments"]) 0 in
  enqueued e ["orders"; "payments"] = ["orders"; "payments"] ∧
  poolSize e ["orders"; "payments"] = 0 ∧
  ¬ terminates Current (start (program e ["orders"; "payments"])) ∧
  status (collect e sampleClock) = Blocked.
Proof.
  split; [reflexivity|]. split; [reflexivity|]. split; [|reflexivity].
  rewrite topic_phase_terminates_iff. intros [Hp | Hq].
  - vm_compute in Hp. by apply Hp.
  - discriminate Hq.
Qed.

(** X23. The older variant sends before it starts a worker: whenever a
    topic passes the filter the producer waits forever on the first send. *)
Lemma old_variant_blocks e topics :
  Legacy.enqueued e topics ≠ [] → ¬ terminates Old (start (programOld e topics)).
Proof.
  intros Hq. unfold start, programOld.
  destruct (Legacy.enqueued e topics) as [|topic queue]; [done|]. simpl.
  apply send_without_worker_blocks.
Qed.

Import Coalescer.

Local Close Scope Z_scope.

(** ** The coalescer *)

Lemma CoalescerInv_init : CoalescerInv init.
Proof. done. Qed.

Lemma arrive_idle s ch :
  sgChans s = [] →
  arrive s ch =
    mkState [ch] (Some (fresh s)) (S (fresh s)) (closedChs s) (running s ++ [fresh s])
      (waiting s ++ [(ch, Some (fresh s))]) (sent s).
Proof. intros Hc. unfold arrive. by rewrite Hc. Qed.

Lemma arrive_busy s ch :
  sgChans s ≠ [] →
  arrive s ch =
    mkState (sgChans s ++ [ch]) (sgWaitCh s) (fresh s) (closedChs s) (running s)
      (waiting s ++ [(ch, sgWaitCh s)]) (sent s).
Proof.
  intros Hc. unfold arrive. rewrite length_app. simpl.
  destruct (sgChans s) as [|c cs]; [done|]. simpl.
  replace (length cs + 1)%nat with (S (length cs)) by lia. done.
Qed.

Lemma CoalescerInv_step s a s' : CoalescerInv s → step s a = Some s' → CoalescerInv s'.
Proof.
  unfold CoalescerInv. intros Hinv Hstep.
  destruct a as [ch | quit collected late | ch]; simpl in Hstep.
  - inversion Hstep; subst s'; clear Hstep.
    destruct (running s) as [|q [|q' rest]] eqn:Hr; [| |done].
    + rewrite (arrive_idle s ch Hinv). simpl. rewrite Hr. simpl. done.
    + destruct Hinv as [Hne Hw]. rewrite (arrive_busy s ch Hne). simpl. rewrite Hr.
      split; [|done]. by destruct (sgChans s).
  - case_bool_decide as Hq; [|done]. inversion Hstep; subst s'; clear Hstep. simpl.
    destruct (running s) as [|q [|q' rest]] eqn:Hr; [by apply elem_of_nil in Hq| |done].
    apply list_elem_of_singleton in Hq as ->.
    rewrite filter_cons, decide_False by (intros Hne; by apply Hne). done.
  - destruct (list_find _ _) as [[i cw]|]; [|done].
    by inversion Hstep; subst s'.
Qed.

Lemma CoalescerInv_run s acts s' : CoalescerInv s → run s acts = Some s' → CoalescerInv s'.
Proof.
  revert s. induction acts as [|a acts IH]; simpl; intros s Hinv Hrun.
  - by inversion Hrun; subst.
  - destruct (step s a) as [s1|] eqn:Hs; [|done]. simpl in Hrun.
    eapply IH; [|done]. by eapply CoalescerInv_step.
Qed.

Lemma reachable_inv s : reachable s → CoalescerInv s.
Proof. intros [acts Hrun]. eapply CoalescerInv_run; [apply CoalescerInv_init | done]. Qed.

(** Arrivals during a collection only register their sink and capture the
    waiter of that collection. *)
Lemma run_arrivals s quit chs :
  running s = [quit] → sgChans s ≠ [] → sgWaitCh s = Some quit →
  ∃ s1, run s (map Arrive chs) = Some s1 ∧
        running s1 = [quit] ∧ sgWaitCh s1 = Some quit ∧
        sgChans s1 = sgChans s ++ chs ∧
        sent s1 = sent s ∧ closedChs s1 = closedChs s ∧
        waiting s1 = waiting s ++ map (λ ch, (ch, Some quit)) chs.
Proof.
  revert s. induction chs as [|ch chs IH]; intros s Hr Hne Hw; simpl.
  - exists s. by rewrite !app_nil_r.
  - destruct (IH (arrive s ch)) as (s1 & Hrun & Hr1 & Hw1 & Hc1 & Hs1 & Hcl1 & Hwt1).
    + by rewrite (arrive_busy s ch Hne).
    + rewrite (arrive_busy s ch Hne). simpl. by destruct (sgChans s).
    + by rewrite (arrive_busy s ch Hne).
    + exists s1. rewrite Hrun, Hr1, Hw1, Hc1, Hs1, Hcl1, Hwt1.
      rewrite (arrive_busy s ch Hne). simpl. rewrite Hw, <- !app_assoc. done.
Qed.

(** *** The replay of [collectChans] *)

Lemma ReplayInv_start metrics chans :
  ReplayInv metrics chans (CollectChans.start metrics chans).
Proof. by exists []. Qed.

(** While the helper goroutine holds the last metric, what the sinks are
    sent is the collection without it. *)
Lemma replay_before_append (metrics held : list Metric) m (served : list nat) :
  held ++ [m] = metrics →
  map (λ ch, (ch, held)) served =
  imap (λ i ch, (ch, containerAt metrics (length served) i)) served.
Proof.
  intros <-. rewrite <- (imap_const (λ ch, (ch, held))). apply imap_ext.
  intros i ch Hi. apply lookup_lt_Some in Hi. unfold containerAt. simpl.
  destruct (i <? length served) eqn:E; [|apply Nat.ltb_ge in E; lia].
  by rewrite removelast_last.
Qed.

Lemma ReplayInv_step metrics chans s a s' :
  ReplayInv metrics chans s → CollectChans.step s a = Some s' → ReplayInv metrics chans s'.
Proof.
  intros (served & Hch & Hsum & Hrest) Hstep.
  destruct s as [ps h c r u out]. simpl in *. destruct a; simpl in Hstep.
  - (* a metric goes from e.collect to the helper *)
    destruct r; [done|]. destruct ps as [|m rest]; [done|]. destruct h; [done|].
    inversion Hstep; subst s'. exists served. simpl in *. done.
  - (* the helper appends *)
    destruct h as [m|]; [|done]. inversion Hstep; subst s'.
    exists served. simpl in *. split; [done|].
    split; [by rewrite <- Hsum, <- app_assoc|].
    destruct r; [|done]. destruct Hrest as [-> Hout]. split; [done|].
    exists (length served). split; [lia|]. rewrite Hout.
    apply (replay_before_append metrics c m). simpl in Hsum. by rewrite ?app_nil_r in Hsum.
  - (* e.collect returns *)
    destruct r; [done|]. destruct ps; [|done]. inversion Hstep; subst s'.
    exists served. simpl in *. destruct Hrest as [-> ->].
    split; [done|]. split; [done|]. split; [done|].
    destruct h; [done|]. exists 0. split; [simpl; lia|done].
  - (* a sink is served *)
    destruct r; [|done]. destruct u as [|ch rest]; [done|].
    inversion Hstep; subst s'. exists (served ++ [ch]). simpl in *.
    split; [by rewrite <- app_assoc|]. split; [done|].
    destruct Hrest as [-> Hout]. split; [done|].
    destruct h as [m|].
    + by rewrite Hout, map_app.
    + destruct Hout as (late & Hle & ->). exists late.
      split; [rewrite length_app; simpl; lia|].
      rewrite imap_app. simpl. f_equal. f_equal. f_equal.
      unfold containerAt.
      destruct (length served + 0 <? late) eqn:E; [apply Nat.ltb_lt in E; lia|].
      simpl in Hsum. by rewrite ?app_nil_r in Hsum.
Qed.

Lemma ReplayInv_run metrics chans s acts s' :
  ReplayInv metrics chans s → CollectChans.run s acts = Some s' → ReplayInv metrics chans s'.
Proof.
  revert s. induction acts as [|a acts IH]; simpl; intros s Hinv Hrun.
  - by inversion Hrun; subst.
  - destruct (CollectChans.step s a) as [s1|] eqn:Hs; [|done]. simpl in Hrun.
    eapply IH; [|done]. by eapply ReplayInv_step.
Qed.

(** However the helper goroutine and the replay interleave, when the replay
    is over the sink of position [i] has been sent what [containerAt] says,
    for the number [late] of sinks served before the last append. *)
Lemma replay_outcomes metrics chans acts s :
  CollectChans.run (CollectChans.start metrics chans) acts = Some s →
  CollectChans.returned s = true → CollectChans.unserved s = [] →
  ∃ late, CollectChans.replayed s = imap (λ i ch, (ch, containerAt metrics late i)) chans.
Proof.
  intros Hrun Hret Hdone.
  destruct (ReplayInv_run metrics chans _ acts s (ReplayInv_start metrics chans) Hrun)
    as (served & Hch & Hsum & Hrest).
  rewrite Hdone, app_nil_r in Hch. subst served.
  rewrite Hret in Hrest. destruct Hrest as [Hps Hout].
  destruct (CollectChans.held s) as [m|].
  - exists (length chans). rewrite Hout.
    apply (replay_before_append metrics _ m). rewrite Hps in Hsum. simpl in Hsum.
    by rewrite ?app_nil_r in Hsum.
  - destruct Hout as (late & _ & Hout). by exists late.
Qed.

(** What a sink that is registered once receives from a broadcast: what
    [container] holds when the sink is served. *)
Lemma received_replay (g : nat → list Metric) (chans : list nat) i ch :
  NoDup chans → chans !! i = Some ch →
  flat_map (λ cm : nat * list Metric, if bool_decide (cm.1 = ch) then cm.2 else [])
    (imap (λ j c, (c, g j)) chans) = g i.
Proof.
  revert g i. induction chans as [|c cs IH]; intros g i Hnd Hi; [done|].
  apply NoDup_cons in Hnd as [Hnotin Hnd]. cbn [imap flat_map fst snd].
  destruct i as [|i]; simpl in Hi.
  - inversion Hi; subst c. rewrite bool_decide_eq_true_2 by done.
    assert (∀ (h : nat → list Metric),
              flat_map (λ cm : nat * list Metric,
                          if bool_decide (cm.1 = ch) then cm.2 else [])
                (imap (λ j c, (c, h j)) cs) = []) as Hrest.
    { clear IH Hnd Hi. induction cs as [|c' cs IH]; intros h; [done|].
      apply not_elem_of_cons in Hnotin as [Hne Hnotin]. cbn [imap flat_map fst snd].
      rewrite bool_decide_eq_false_2 by done. simpl. exact (IH Hnotin (h ∘ S)). }
    etrans; [apply (f_equal (app (g 0))); exact (Hrest (g ∘ S)) | apply app_nil_r].
  - rewrite bool_decide_eq_false_2.
    + simpl. exact (IH (g ∘ S) i Hnd Hi).
    + intros ->. apply Hnotin. by eapply list_elem_of_lookup_2.
Qed.

Lemma received_broadcast s quit collected late i ch :
  NoDup (sgChans s) → sgChans s !! i = Some ch →
  received (broadcast s quit collected late) ch =
  received s ch ++ containerAt collected late i.
Proof.
  unfold received, broadcast. simpl. rewrite flat_map_app. intros Hnd Hi. f_equal.
  by apply (received_replay (containerAt collected late)).
Qed.

Lemma leave_enabled s ch quit :
  (ch, Some quit) ∈ waiting s → quit ∈ closedChs s → is_Some (step s (Leave ch)).
Proof.
  intros Hw Hc. simpl.
  destruct (list_find (λ cw, released s ch cw = true) (waiting s)) as [[i cw]|] eqn:Hf;
    [eauto|].
  apply list_find_None in Hf. rewrite Forall_forall in Hf. specialize (Hf _ Hw).
  exfalso. apply Hf. unfold released. simpl.
  by rewrite !bool_decide_eq_true_2.
Qed.

(** What holds of the claim. In serialized mode at most one collection is in
    flight in every reachable state. If scrapers with sinks [chs] arrive
    while the collection with quit channel [quit] is in flight, no other
    collection is started; when that collection finishes, every registered
    sink is served and the scrapers that arrived can return. The sink of
    position [i] receives what [container] holds when it is served: the
    metrics collected, or all but the last one. *)
Lemma serialized_scrapes_share_one_collection s quit chs collected late :
  reachable s → running s = [quit] → NoDup (sgChans s ++ chs) →
  (∀ s', reachable s' → length (running s') ≤ 1) ∧
  ∃ s1 s2,
    run s (map Arrive chs) = Some s1 ∧ running s1 = [quit] ∧
    step s1 (Finish quit collected late) = Some s2 ∧ running s2 = [] ∧
    (∀ i ch, (sgChans s ++ chs) !! i = Some ch →
       received s2 ch = received s ch ++ containerAt collected late i) ∧
    (∀ ch, ch ∈ chs → is_Some (step s2 (Leave ch))).
Proof.
  intros Hreach Hr Hnd. split.
  - intros s' Hs'. apply reachable_inv in Hs'. unfold CoalescerInv in Hs'.
    destruct (running s') as [|q [|q' rest]]; simpl; [lia | lia | done].
  - pose proof (reachable_inv s Hreach) as Hinv. unfold CoalescerInv in Hinv.
    rewrite Hr in Hinv. destruct Hinv as [Hne Hw].
    destruct (run_arrivals s quit chs Hr Hne Hw)
      as (s1 & Hrun & Hr1 & Hw1 & Hc1 & Hs1 & Hcl1 & Hwt1).
    exists s1, (broadcast s1 quit collected late). split; [done|]. split; [done|].
    split; [|split; [|split]].
    + simpl. rewrite Hr1. by rewrite bool_decide_eq_true_2 by apply list_elem_of_here.
    + simpl. rewrite Hr1, filter_cons, decide_False by (intros Hq; by apply Hq). done.
    + intros i ch Hi. rewrite (received_broadcast _ _ _ _ i) by (by rewrite Hc1).
      unfold received. by rewrite Hs1.
    + intros ch Hin. apply (leave_enabled _ ch quit).
      * simpl. rewrite Hwt1. apply elem_of_app. right.
        apply list_elem_of_fmap. eauto.
      * simpl. apply elem_of_app. right. apply list_elem_of_here.
Qed.

(** C9. In serialized mode at most one collection is in flight in every
    reachable state, but the scrapers that share a collection do not all
    receive the same metrics. [collectChans] replays the variable
    [container], which a helper goroutine fills from the channel that
    [e.collect] writes to; the replay reads [container] anew for every sink,
    and nothing makes it wait for the helper to append the metric it
    received last. Scrapers on the sinks 7 and 8 share a collection of the
    sample cluster, which sends 18 metrics: in the execution of
    [collectChans] in which the helper appends the last metric after the
    first sink is served, sink 8 receives every metric of the collection
    and sink 7 all but the last one, [m]. *)
Theorem C9_scrapers_of_one_collection_differ :
  let collected :=
    emitted (events (collect (sampleExporter (Some ["orders"]) 100) sampleClock)) in
  (∀ s, reachable s → length (running s) ≤ 1) ∧
  length collected = 18 ∧
  ∃ s1 replay s2 m,
    run init [Arrive 7; Arrive 8] = Some s1 ∧
    running s1 = [0] ∧ sgChans s1 = [7; 8] ∧
    CollectChans.run (CollectChans.start collected (sgChans s1))
      (CollectChans.lateAppend 18 1 2) = Some replay ∧
    CollectChans.returned replay = true ∧ CollectChans.unserved replay = [] ∧
    CollectChans.held replay = None ∧
    step s1 (Finish 0 collected 1) = Some s2 ∧
    sent s2 = CollectChans.replayed replay ∧
    running s2 = [] ∧
    received s2 8 = collected ∧
    received s2 8 = received s2 7 ++ [m] ∧
    is_Some (step s2 (Leave 7)) ∧ is_Some (step s2 (Leave 8)).
Proof.
  intros collected. split.
  - intros s Hs. apply reachable_inv in Hs. unfold CoalescerInv in Hs.
    destruct (running s) as [|q [|q' rest]]; simpl; [lia | lia | done].
  - split; [subst collected; vm_compute; reflexivity|].
    exists (arrive (arrive init 7) 8),
           (CollectChans.mkState [] None collected true []
              [(7, removelast collected); (8, collected)]),
           (broadcast (arrive (arrive init 7) 8) 0 collected 1),
           (MustNewConstMetric consumergroupLagSum GaugeValue (float64 0) ["g"; "internal"]).
    split; [reflexivity|]. split; [reflexivity|]. split; [reflexivity|].
    split; [subst collected; vm_compute; reflexivity|].
    split; [reflexivity|]. split; [reflexivity|]. split; [reflexivity|].
    split; [reflexivity|]. split; [reflexivity|]. split; [reflexivity|].
    split; [subst collected; vm_compute; reflexivity|].
    split; [subst collected; vm_compute; reflexivity|].
    split; by eexists.
Qed.

Local Open Scope Z_scope.

(** ** The pruner *)

(** C3. A tick on which the session cannot be constructed leaves the
    timeline unchanged, but it ends the pruner, whatever signals follow; the
    loop the specification describes would go on. With a [Prune] that
    empties the timeline, a failed tick followed by a good one leaves the
    timeline as it was. *)
Theorem C3_failed_session_ends_pruner :
  (∀ Prune MaxOffsets rest (iMap : IMap),
     Pruner.RunPruner Prune MaxOffsets (Pruner.Tick None :: rest) iMap =
       (iMap, Pruner.ReturnedOnError)) ∧
  let timeline : IMap := {[ "g" := {[ "orders" := {[ 0 := scenarioTimeline ]} ]} ]} in
  let signals := [Pruner.Tick None; Pruner.Tick (Some (sampleClient None))] in
  Pruner.RunPruner (λ _ _ _, ∅) 2 signals timeline = (timeline, Pruner.ReturnedOnError) ∧
  Pruner.RunPrunerSpec (λ _ _ _, ∅) 2 signals timeline = (∅, Pruner.Selecting).
Proof. split; [done|]. split; reflexivity. Qed.

(** * Further properties of the code *)

(** ** The bound functions on any list *)

Lemma higherLoop_sample (offsets : list Z) (k : Z) index max :
  (index < length offsets)%nat → max ∈ offsets →
  ∃ U, higherLoop offsets k index max = Some U ∧ U ∈ offsets.
Proof.
  revert max. induction index as [|index IH]; intros max Hlt Hmax; simpl; [eauto|].
  destruct (k <=? max); [|eauto].
  destruct (lookup_lt_is_Some_2 offsets index ltac:(lia)) as [prev Hprev].
  rewrite Hprev. simpl. destruct (prev <? k); [eauto|].
  destruct (lookup_lt_is_Some_2 offsets (S index) ltac:(lia)) as [cur Hcur].
  rewrite Hcur. simpl. apply IH; [lia|]. by eapply list_elem_of_lookup_2.
Qed.

Lemma lowerLoop_sample (offsets : list Z) (k : Z) rem index min :
  (rem + index + 1 = length offsets)%nat → min ∈ offsets →
  ∃ D, lowerLoop offsets k rem index min = Some D ∧ D ∈ offsets.
Proof.
  revert index min. induction rem as [|rem IH]; intros index min Hlen Hmin; simpl; [eauto|].
  destruct (min <=? k); [|eauto].
  destruct (lookup_lt_is_Some_2 offsets (S index) ltac:(lia)) as [next Hnext].
  rewrite Hnext. simpl. destruct (k <? next); [eauto|].
  destruct (lookup_lt_is_Some_2 offsets index ltac:(lia)) as [cur Hcur].
  rewrite Hcur. simpl. apply IH; [lia|]. by eapply list_elem_of_lookup_2.
Qed.

(** X1. On an empty slice both bound functions panic (index out of range);
    on every other slice, sorted or not, both return, and what they return
    is an element of the slice. *)
Theorem bounds_are_samples (offsets : list Z) (k : Z) :
  match offsets with
  | [] => getNextHigherOffset offsets k = None ∧ getNextLowerOffset offsets k = None
  | _ :: _ =>
      ∃ U D, getNextHigherOffset offsets k = Some U ∧
             getNextLowerOffset offsets k = Some D ∧ U ∈ offsets ∧ D ∈ offsets
  end.
Proof.
  destruct offsets as [|p0 rest] eqn:E; [done|]. rewrite <- E.
  assert (Hlen : (0 < length offsets)%nat) by (subst; simpl; lia).
  clear E.
  destruct (lookup_lt_is_Some_2 offsets (length offsets - 1) ltac:(lia)) as [max Hmax].
  destruct (lookup_lt_is_Some_2 offsets 0 ltac:(lia)) as [min Hmin].
  destruct (higherLoop_sample offsets k (length offsets - 1) max ltac:(lia)
              ltac:(by eapply list_elem_of_lookup_2)) as (U & HU & HUin).
  destruct (lowerLoop_sample offsets k (length offsets - 1) 0 min ltac:(lia)
              ltac:(by eapply list_elem_of_lookup_2)) as (D & HD & HDin).
  exists U, D. unfold getNextHigherOffset, getNextLowerOffset.
  destruct (length offsets) as [|n] eqn:El; [lia|].
  replace (S n - 1)%nat with n in * by lia.
  rewrite Hmax, Hmin. simpl. replace (n - 0)%nat with n by lia. done.
Qed.

(** ** The bound functions on an increasing list *)

(** On an increasing list the samples below [k] are the first ones. *)
Lemma sorted_below (l : list Z) (k : Z) i x :
  StronglySorted Z.lt l → l !! i = Some x →
  x < k ↔ (i < samplesBelow l k)%nat.
Proof.
  unfold samplesBelow.
  intros Hs. revert i. induction Hs as [|a l Hs IH Hall]; intros i Hi; [done|].
  rewrite filter_cons. destruct (decide (a < k)) as [Ha|Ha].
  - destruct i as [|i]; simpl in *.
    + inversion Hi; subst. split; intros; [lia|done].
    + rewrite IH by done. lia.
  - assert (Hnone : filter (λ p, p < k) l = []).
    { clear -Hall Ha. induction l as [|b l IHl]; [done|].
      apply Forall_cons in Hall as [Hb Hall].
      rewrite filter_cons. destruct (decide (b < k)); [lia|]. by apply IHl. }
    rewrite Hnone. simpl. split; [|lia]. intros Hx.
    destruct i as [|i]; simpl in *; [inversion Hi; subst; lia|].
    rewrite Forall_forall in Hall.
    assert (a < x) by (apply Hall; by eapply list_elem_of_lookup_2). lia.
Qed.

Lemma sorted_upto (l : list Z) (k : Z) i x :
  StronglySorted Z.lt l → l !! i = Some x →
  x ≤ k ↔ (i < samplesUpTo l k)%nat.
Proof.
  unfold samplesUpTo.
  intros Hs. revert i. induction Hs as [|a l Hs IH Hall]; intros i Hi; [done|].
  rewrite filter_cons. destruct (decide (a ≤ k)) as [Ha|Ha].
  - destruct i as [|i]; simpl in *.
    + inversion Hi; subst. split; intros; [lia|done].
    + rewrite IH by done. lia.
  - assert (Hnone : filter (λ p, p ≤ k) l = []).
    { clear -Hall Ha. induction l as [|b l IHl]; [done|].
      apply Forall_cons in Hall as [Hb Hall].
      rewrite filter_cons. destruct (decide (b ≤ k)); [lia|]. by apply IHl. }
    rewrite Hnone. simpl. split; [|lia]. intros Hx.
    destruct i as [|i]; simpl in *; [inversion Hi; subst; lia|].
    rewrite Forall_forall in Hall.
    assert (a < x) by (apply Hall; by eapply list_elem_of_lookup_2). lia.
Qed.

Lemma higherLoop_exact (offsets : list Z) (k : Z) index max :
  StronglySorted Z.lt offsets →
  (index < length offsets)%nat →
  (samplesBelow offsets k ≤ index)%nat →
  offsets !! Nat.min (index + 1) (length offsets - 1) = Some max →
  higherLoop offsets k index max =
    offsets !! Nat.min (samplesBelow offsets k + 1) (length offsets - 1).
Proof.
  intros Hs. set (j := samplesBelow offsets k).
  revert max. induction index as [|index IH]; intros max Hlt Hj Hmax; simpl.
  - replace j with 0%nat by lia. done.
  - assert (k ≤ max) as Hk.
    { destruct (decide (max < k)) as [Hlow|]; [|lia].
      apply (sorted_below offsets k _ _ Hs Hmax) in Hlow. fold j in Hlow. lia. }
    destruct (k <=? max) eqn:E; [|lia].
    destruct (lookup_lt_is_Some_2 offsets index ltac:(lia)) as [prev Hprev].
    rewrite Hprev. simpl.
    destruct (prev <? k) eqn:Hpk.
    + apply Z.ltb_lt in Hpk.
      apply (sorted_below offsets k _ _ Hs Hprev) in Hpk. fold j in Hpk.
      replace j with (S index) by lia. by rewrite <- Hmax.
    + apply Z.ltb_ge in Hpk.
      assert (¬ (index < j)%nat) as Hnj.
      { intros Hc. apply (sorted_below offsets k _ _ Hs Hprev) in Hc. lia. }
      destruct (lookup_lt_is_Some_2 offsets (S index) ltac:(lia)) as [cur Hcur].
      rewrite Hcur. simpl. apply IH; [lia|lia|].
      replace (Nat.min (index + 1) (length offsets - 1)) with (S index) by lia. done.
Qed.

Lemma lowerLoop_exact (offsets : list Z) (k : Z) rem index min :
  StronglySorted Z.lt offsets →
  (rem + index + 1 = length offsets)%nat →
  (index + 1 ≤ samplesUpTo offsets k)%nat →
  offsets !! (index - 1)%nat = Some min →
  lowerLoop offsets k rem index min =
    offsets !! (samplesUpTo offsets k - 2)%nat.
Proof.
  intros Hs. set (m := samplesUpTo offsets k).
  assert (m ≤ length offsets)%nat as Hm by (unfold m, samplesUpTo; apply length_filter).
  revert index min. induction rem as [|rem IH]; intros index min Hlen Hi Hmin; simpl.
  - rewrite <- Hmin. f_equal. lia.
  - assert (min ≤ k) as Hk.
    { apply (sorted_upto offsets k _ _ Hs Hmin). fold m. lia. }
    destruct (min <=? k) eqn:E; [|lia].
    destruct (lookup_lt_is_Some_2 offsets (S index) ltac:(lia)) as [next Hnext].
    rewrite Hnext. simpl.
    destruct (k <? next) eqn:Hkn.
    + apply Z.ltb_lt in Hkn.
      assert (¬ (S index < m)%nat) as Hnm.
      { intros Hc. apply (sorted_upto offsets k _ _ Hs Hnext) in Hc. lia. }
      rewrite <- Hmin. f_equal. lia.
    + apply Z.ltb_ge in Hkn.
      apply (sorted_upto offsets k _ _ Hs Hnext) in Hkn. fold m in Hkn.
      destruct (lookup_lt_is_Some_2 offsets index ltac:(lia)) as [cur Hcur].
      rewrite Hcur. simpl. apply IH; [lia|lia|].
      replace (S index - 1)%nat with index by lia. done.
Qed.

(** X2. On an increasing slice of [n] samples, of which [b] are below [k]
    and [m] are at most [k], [getNextHigherOffset] returns the sample at
    position [min(b+1, n-1)] and [getNextLowerOffset] the sample at position
    [max(m-2, 0)]: one position above the smallest sample that is at least
    [k], and one position below the largest sample that is at most [k],
    where the slice has such positions. *)
Theorem bounds_exact (offsets : list Z) (k : Z) :
  StronglySorted Z.lt offsets →
  getNextHigherOffset offsets k =
    offsets !! Nat.min (samplesBelow offsets k + 1) (length offsets - 1) ∧
  getNextLowerOffset offsets k =
    offsets !! (samplesUpTo offsets k - 2)%nat.
Proof.
  intros Hs.
  assert (samplesBelow offsets k ≤ length offsets)%nat as Hb
    by (unfold samplesBelow; apply length_filter).
  destruct (decide (length offsets = 0)%nat) as [Hnil|Hlen].
  { destruct offsets; [done|simpl in Hnil; lia]. }
  split.
  - unfold getNextHigherOffset.
    destruct (length offsets) as [|n] eqn:El; [lia|].
    destruct (lookup_lt_is_Some_2 offsets n ltac:(lia)) as [max Hmax].
    destruct (decide (samplesBelow offsets k = S n)) as [Hall|Hnot].
    + assert (max < k) as Hlow.
      { apply (sorted_below offsets k _ _ Hs Hmax). lia. }
      replace (Nat.min (samplesBelow offsets k + 1) (S n - 1)) with n by lia.
      rewrite Hmax. simpl. destruct n as [|n]; simpl; [done|].
      destruct (k <=? max) eqn:E; [lia|done].
    + pose proof (higherLoop_exact offsets k n max Hs) as Hloop.
      rewrite El in Hloop. rewrite Hmax. simpl. apply Hloop; [lia|lia|].
      replace (Nat.min (n + 1) (S n - 1)) with n by lia. done.
  - unfold getNextLowerOffset.
    destruct (lookup_lt_is_Some_2 offsets 0 ltac:(lia)) as [min Hmin].
    rewrite Hmin. simpl.
    destruct (decide (samplesUpTo offsets k = 0)%nat) as [Hnone|Hsome].
    + assert (¬ min ≤ k) as Hhigh.
      { intros Hc. apply (sorted_upto offsets k _ _ Hs Hmin) in Hc. lia. }
      rewrite Hnone. simpl. rewrite Hmin.
      destruct (length offsets - 1)%nat; simpl; [done|].
      destruct (min <=? k) eqn:E; [lia|done].
    + apply lowerLoop_exact; [done|lia|lia|done].
Qed.

(** X2 on the samples 100, 200, 300, 400 and [k = 250]: positions 3 and 0. *)
Lemma bounds_exact_witness :
  getNextHigherOffset [100; 200; 300; 400] 250 = Some 400 ∧
  getNextLowerOffset [100; 200; 300; 400] 250 = Some 100.
Proof.
  apply (bounds_exact [100; 200; 300; 400] 250).
  repeat constructor; lia.
Defined.

(** ** The lag pass *)

(** One iteration of the lag pass in the interpolation branch: the two
    bounds are sampled offsets of the entry, so the instants read from the
    timeline are sampled instants, never the zero [time.Time]. *)
Lemma interpolation_of_partition now group topic partition (offsets : gmap Z Time) c L :
  (2 ≤ size offsets)%nat →
  is_Some (offsets !! L) → (∀ o, is_Some (offsets !! o) → L ≤ o) → L ≤ c →
  ∃ U D tU tD,
    getNextHigherOffset (producedOffsets offsets) c = Some U ∧
    getNextLowerOffset (producedOffsets offsets) c = Some D ∧
    offsets !! U = Some tU ∧ offsets !! D = Some tD ∧ D < U ∧
    lagForPartition now group topic partition offsets (Some c) =
      Some [ counter lagDatapointUsedInterpolation (float64 1)
               [group; topic; FormatInt partition];
             gauge topicPartitionLagMillis
               (PrimFloat.sub (float64 (unixMillis now)) (extrapolated_px tU tD U D c))
               [group; topic; FormatInt partition] ].
Proof.
  intros Hsz HL Hmin Hc.
  destruct (interpolation_bounds_of_entry offsets c Hsz)
    as (U & D & HU & HD & [tU HtU] & [tD HtD] & Hlt).
  exists U, D, tU, tD. repeat (split; [done|]).
  unfold lagForPartition.
  destruct (size offsets <? 2)%nat eqn:E; [apply Nat.ltb_lt in E; lia|].
  rewrite (producedOffsets_first offsets L HL Hmin). simpl.
  destruct (c <? L) eqn:HcL; [lia|].
  rewrite HU, HD. simpl.
  unfold px, lagMillis, extrapolated_px, at_offset, counter, gauge, lagLabels.
  by rewrite HtU, HtD.
Qed.

(** X4. For a key of the timeline with two samples or more whose committed
    offset [c] the lag pass obtains and is not below the smallest sampled
    offset: the metrics the pass emits for the key are the interpolation
    counter and [consumer_lag_millis = now_ms − px_ms], where
    [px_ms = t(U)_ms − (U − c)·(t(U) − t(D))_ms/(U − D)] and [U], [D] are
    what [getNextHigherOffset] and [getNextLowerOffset] return on the sorted
    offsets, both sampled offsets of the key with [D < U]. *)
Theorem interpolation_branch e clk (iMap : IMap) admin response failed evs group topics
    topic partitionMap partition (offsets : gmap Z Time) block L :
  NewClusterAdminFromClient (client e) = Some admin →
  iMap !! group = Some topics → topics !! topic = Some partitionMap →
  partitionMap !! partition = Some offsets →
  ListConsumerGroupOffsets admin group {[topic := (map_to_list partitionMap).*1]}
    = (Some response, failed) →
  metricsForLag e clk iMap = Some evs →
  (2 ≤ size offsets)%nat →
  Blocks response !! topic ≫= (λ m, m !! partition) = Some block →
  is_Some (offsets !! L) → (∀ o, is_Some (offsets !! o) → L ≤ o) →
  L ≤ Offset block →
  ∃ U D tU tD,
    getNextHigherOffset (producedOffsets offsets) (Offset block) = Some U ∧
    getNextLowerOffset (producedOffsets offsets) (Offset block) = Some D ∧
    offsets !! U = Some tU ∧ offsets !! D = Some tD ∧ D < U ∧
    ∀ ev, ev ∈ evs ∧ labelled group topic partition ev ↔
          ev ∈ [ counter lagDatapointUsedInterpolation (float64 1)
                   [group; topic; FormatInt partition];
                 gauge topicPartitionLagMillis
                   (PrimFloat.sub
                      (float64 (unixMillis (lagNow clk group topic partition)))
                      (extrapolated_px tU tD U D (Offset block)))
                   [group; topic; FormatInt partition] ].
Proof.
  intros Hadmin Hg Ht Hp Hresp Heq Hsz Hblock HL Hmin Hc.
  destruct (interpolation_of_partition (lagNow clk group topic partition) group topic
              partition offsets (Offset block) L Hsz HL Hmin Hc)
    as (U & D & tU & tD & HU & HD & HtU & HtD & Hlt & Hlag).
  exists U, D, tU, tD. repeat (split; [done|]). intros ev.
  rewrite (lag_pass_of_key e clk iMap admin response failed evs group topics topic
             partitionMap partition offsets ev Hadmin Hg Ht Hp Hresp Heq).
  rewrite Hblock. simpl. rewrite Hlag. split.
  - by intros (evs' & [= <-] & Hin & _).
  - intros Hin. eexists. split; [done|]. split; [done|].
    rewrite !elem_of_cons, elem_of_nil in Hin.
    destruct Hin as [-> | [-> | []]]; unfold labelled, counter, gauge; eauto.
Qed.

Lemma scenarioTimeline_lowest o : is_Some (scenarioTimeline !! o) → 100 ≤ o.
Proof. intros Ho. by apply scenarioTimeline_keys in Ho as [? _]. Qed.

(** X4 on the timeline of the interpolation scenario, with committed offset
    250 read thirty seconds after the first sample: the bounds are 300 and
    100, the lag is 15000 ms. *)
Lemma interpolation_branch_witness :
  ∃ U D tU tD,
    getNextHigherOffset (producedOffsets scenarioTimeline) 250 = Some U ∧
    getNextLowerOffset (producedOffsets scenarioTimeline) 250 = Some D ∧
    scenarioTimeline !! U = Some tU ∧ scenarioTimeline !! D = Some tD ∧ D < U ∧
    ∀ ev,
      ev ∈ [ counter lagDatapointUsedInterpolation (float64 1) ["g"; "orders"; "0"];
             gauge topicPartitionLagMillis (float64 15000) ["g"; "orders"; "0"] ] ∧
      labelled "g" "orders" 0 ev ↔
      ev ∈ [ counter lagDatapointUsedInterpolation (float64 1)
               ["g"; "orders"; FormatInt 0];
             gauge topicPartitionLagMillis
               (PrimFloat.sub (float64 (unixMillis (lagNow lagClock "g" "orders" 0)))
                  (extrapolated_px tU tD U D 250))
               ["g"; "orders"; FormatInt 0] ].
Proof.
  apply (interpolation_branch (lagExporter 250) lagClock scenarioTable
           (mkAdmin (λ _ req, (Some (committedBlocks 250 req), false)))
           (committedBlocks 250 {[ "orders" := [0] ]}) false
           [ counter lagDatapointUsedInterpolation (float64 1) ["g"; "orders"; "0"];
             gauge topicPartitionLagMillis (float64 15000) ["g"; "orders"; "0"] ]
           "g" {[ "orders" := {[ 0 := scenarioTimeline ]} ]} "orders"
           {[ 0 := scenarioTimeline ]} 0 scenarioTimeline (mkBlock 250 ErrNoError) 100
           eq_refl eq_refl eq_refl eq_refl eq_refl eq_refl).
  - vm_compute. lia.
  - reflexivity.
  - by eexists.
  - apply scenarioTimeline_lowest.
  - simpl. lia.
Defined.

(** X5. The lag pass never panics, whatever the timeline and whatever the
    cluster admin answers: no index is out of range. Everything it produces
    is an error log or a metric labelled with a key of the timeline that
    holds two samples or more; it never touches the timeline. *)
Theorem lag_pass_is_safe e clk (iMap : IMap) :
  ∃ evs, metricsForLag e clk iMap = Some evs ∧
    ∀ ev, ev ∈ evs →
      (∃ msg, ev = LogError msg) ∨
      ∃ group topics topic partitionMap partition (offsets : gmap Z Time),
        iMap !! group = Some topics ∧ topics !! topic = Some partitionMap ∧
        partitionMap !! partition = Some offsets ∧ (2 ≤ size offsets)%nat ∧
        labelled group topic partition ev.
Proof.
  destruct (metricsForLag_total e clk iMap) as [evs Hevs].
  exists evs. split; [done|]. intros ev Hin.
  destruct (NewClusterAdminFromClient (client e)) as [admin|] eqn:Hadmin.
  - destruct (proj1 (elem_of_metricsForLag e clk iMap admin evs ev Hadmin Hevs) Hin)
      as (group & topics & topic & partitionMap & Hg & Ht & Hrest).
    destruct Hrest as [[_ ->] | Hrest]; [left; eauto|].
    destruct (ListConsumerGroupOffsets admin group _).1 as [response|].
    + destruct Hrest as (partition & offsets & evs' & Hp & Hlag & Hin').
      destruct (lagForPartition_labels _ _ _ _ _ _ _ _ Hlag Hin') as [Hlog|Hlab];
        [by left|].
      right. exists group, topics, topic, partitionMap, partition, offsets.
      repeat (split; [done|]). split; [|done].
      destruct (decide (2 ≤ size offsets)%nat) as [|Hsmall]; [done|].
      rewrite (proj1 (extrapolation_of_partition _ _ _ _ _ _)) in Hlag by lia.
      inversion Hlag; subst evs'. by apply elem_of_nil in Hin'.
    + left. eauto.
  - unfold metricsForLag in Hevs. rewrite Hadmin in Hevs.
    inversion Hevs; subst evs. apply list_elem_of_singleton in Hin. left. eauto.
Qed.

(** ** The offset-fetch request of a group *)

Lemma requested_AddPartition r t p t' p' :
  requested (AddPartition r t p) t' p' ↔ requested r t' p' ∨ (t' = t ∧ p' = p).
Proof.
  unfold requested, AddPartition. simpl. rewrite lookup_insert. case_decide as Ht.
  - subst t'. simpl. rewrite elem_of_app, list_elem_of_singleton. tauto.
  - split; [tauto|]. intros [?|[? _]]; [done|congruence].
Qed.

Lemma requested_addPartitions r t ps t' p' :
  requested (addPartitions r t ps) t' p' ↔ requested r t' p' ∨ (t' = t ∧ p' ∈ ps).
Proof.
  unfold addPartitions. revert r. induction ps as [|p ps IH]; intros r; simpl.
  - rewrite elem_of_nil. tauto.
  - rewrite IH, requested_AddPartition, elem_of_cons. tauto.
Qed.

Lemma requested_addTopics r (tps : list (string * list Z)) t' p' :
  requested (addTopics r tps) t' p' ↔
  requested r t' p' ∨ ∃ ps, (t', ps) ∈ tps ∧ p' ∈ ps.
Proof.
  unfold addTopics. revert r. induction tps as [|[t ps] tps IH]; intros r; simpl.
  - split; [tauto|]. intros [?|(ps & Hin & _)]; [done|by apply elem_of_nil in Hin].
  - rewrite IH, requested_addPartitions. split.
    + intros [[?|[-> ?]]|(ps' & Hin & ?)]; [by left| |].
      * right. exists ps. split; [apply list_elem_of_here|done].
      * right. exists ps'. split; [by apply list_elem_of_further|done].
    + intros [?|(ps' & Hin & ?)]; [tauto|].
      apply elem_of_cons in Hin as [[= -> ->]|Hin]; [tauto|]. right. eauto.
Qed.

Lemma requested_addMembers r members req t p :
  addMembers r members = Built req →
  requested req t p ↔
  requested r t p ∨
  ∃ member topics ps, member ∈ members ∧ GetMemberAssignment member = Assigned topics ∧
                      topics !! t = Some ps ∧ p ∈ ps.
Proof.
  revert r. induction members as [|member members IH]; intros r Hreq; simpl in Hreq.
  - inversion Hreq; subst req. split; [tauto|].
    intros [?|(m & ? & ? & Hin & _)]; [done|by apply elem_of_nil in Hin].
  - destruct (GetMemberAssignment member) as [topics| |] eqn:Hm; [|done..].
    rewrite (IH _ Hreq), requested_addTopics. split.
    + intros [[?|(ps & Hin & ?)]|(m & ts & ps & Hin & ? & ? & ?)]; [by left| |].
      * right. exists member, topics, ps. apply elem_of_map_to_list in Hin.
        repeat split; [apply list_elem_of_here|done..].
      * right. exists m, ts, ps. repeat split; [by apply list_elem_of_further|done..].
    + intros [?|(m & ts & ps & Hin & Hts & Hps & ?)]; [tauto|].
      apply elem_of_cons in Hin as [->|Hin].
      * left. right. exists ps. rewrite Hm in Hts. inversion Hts; subst ts.
        split; [by apply elem_of_map_to_list|done].
      * right. exists m, ts, ps. done.
Qed.

Lemma addPartitions_header r t ps :
  ConsumerGroup (addPartitions r t ps) = ConsumerGroup r ∧
  Version (addPartitions r t ps) = Version r.
Proof.
  unfold addPartitions. revert r. induction ps as [|p ps IH]; intros r; simpl; [done|].
  by rewrite !(proj1 (IH _)), !(proj2 (IH _)).
Qed.

Lemma addTopics_header r (tps : list (string * list Z)) :
  ConsumerGroup (addTopics r tps) = ConsumerGroup r ∧
  Version (addTopics r tps) = Version r.
Proof.
  unfold addTopics. revert r. induction tps as [|[t ps] tps IH]; intros r; simpl; [done|].
  rewrite !(proj1 (IH _)), !(proj2 (IH _)). apply addPartitions_header.
Qed.

Lemma addMembers_header r members req :
  addMembers r members = Built req →
  ConsumerGroup req = ConsumerGroup r ∧ Version req = Version r.
Proof.
  revert r. induction members as [|member members IH]; intros r Hreq; simpl in Hreq.
  - by inversion Hreq.
  - destruct (GetMemberAssignment member) as [topics| |]; [|done..].
    destruct (IH _ Hreq) as [-> ->]. apply addTopics_header.
Qed.

(** X6. The request built for a described group names the group, has
    version 1, and asks for these partitions: with [offsetShowAll], every
    (topic, partition) the topic pass recorded in the offset map, whatever
    the members are assigned; otherwise every (topic, partition) assigned to
    a member of the group. *)
Theorem offset_fetch_request_partitions e (offset : OffsetMap) group req t p :
  offsetFetchRequest e offset group = Built req →
  ConsumerGroup req = GroupId group ∧ Version req = 1 ∧
  (requested req t p ↔
     if offsetShowAll e then is_Some (lookupOffset offset t p)
     else ∃ member topics ps,
            member ∈ Members group ∧ GetMemberAssignment member = Assigned topics ∧
            topics !! t = Some ps ∧ p ∈ ps).
Proof.
  unfold offsetFetchRequest. intros Hreq.
  assert (Hempty : ¬ requested (mkRequest (GroupId group) 1 ∅) t p).
  { unfold requested. simpl. rewrite lookup_empty. apply not_elem_of_nil. }
  destruct (offsetShowAll e).
  - inversion Hreq; subst req. clear Hreq.
    split; [apply addTopics_header|]. split; [apply addTopics_header|].
    rewrite requested_addTopics. unfold lookupOffset. split.
    + intros [?|(ps & Hin & Hp)]; [done|].
      apply elem_of_map_to_list in Hin. rewrite lookup_fmap in Hin.
      destruct (offset !! t) as [parts|]; [|done]. simpl in *.
      inversion Hin; subst ps.
      apply list_elem_of_fmap in Hp as ([p' v] & -> & Hpv).
      apply elem_of_map_to_list in Hpv. simpl. by rewrite Hpv.
    + intros [v Hv]. right.
      destruct (offset !! t) as [parts|] eqn:Ht; [|done]. simpl in Hv.
      exists (map_to_list parts).*1. split.
      * apply elem_of_map_to_list. by rewrite lookup_fmap, Ht.
      * apply list_elem_of_fmap. exists (p, v). split; [done|].
        by apply elem_of_map_to_list.
  - destruct (addMembers_header _ _ _ Hreq) as [Hc Hv].
    split; [done|]. split; [done|].
    rewrite (requested_addMembers _ _ _ t p Hreq). tauto.
Qed.

(** X6 for a group with one member assigned partition 0 of [orders]. *)
Lemma offset_fetch_request_partitions_witness :
  let group := mkGroup "g" [mkMember (Assigned {[ "orders" := [0] ]})] in
  let req := mkRequest "g" 1 {[ "orders" := [0] ]} in
  ConsumerGroup req = GroupId group ∧ Version req = 1 ∧
  (requested req "orders" 0 ↔
     if offsetShowAll (sampleExporter None 100) then is_Some (lookupOffset ∅ "orders" 0)
     else ∃ member topics ps,
            member ∈ Members group ∧ GetMemberAssignment member = Assigned topics ∧
            topics !! "orders" = Some ps ∧ 0 ∈ ps).
Proof.
  apply (offset_fetch_request_partitions (sampleExporter None 100) ∅
           (mkGroup "g" [mkMember (Assigned {[ "orders" := [0] ]})])
           (mkRequest "g" 1 {[ "orders" := [0] ]}) "orders" 0).
  reflexivity.
Defined.

(** ** Failures inside the pass over the groups of a broker *)

(** X7. A member assignment that comes with an error ends the pass over the
    broker's groups: the groups before it are handled, the error is logged,
    and neither the group itself nor any group after it gets a metric. *)
Theorem assignment_failure_ends_broker_pass e offset broker pre group post :
  (∀ g, g ∈ pre → built (offsetFetchRequest e offset g)) →
  offsetFetchRequest e offset group = AssignmentFailed →
  describeGroupsLoop e offset broker (pre ++ group :: post) =
  describeGroupsLoop e offset broker pre ++
  [LogError "Cannot get GetMemberAssignment of group member"].
Proof.
  intros Hpre Hfail. rewrite describeGroupsLoop_app by done.
  simpl. by rewrite Hfail.
Qed.

(** X7 for a group whose only member has an assignment that does not
    decode, followed by a healthy group. *)
Lemma assignment_failure_ends_broker_pass_witness :
  describeGroupsLoop (sampleExporter None 100) ∅ sampleBroker
    ([] ++ mkGroup "broken" [mkMember AssignmentError]
        :: [mkGroup "g" [mkMember (Assigned {[ "orders" := [0] ]})]]) =
  describeGroupsLoop (sampleExporter None 100) ∅ sampleBroker [] ++
  [LogError "Cannot get GetMemberAssignment of group member"].
Proof.
  apply (assignment_failure_ends_broker_pass (sampleExporter None 100) ∅ sampleBroker []
           (mkGroup "broken" [mkMember AssignmentError])
           [mkGroup "g" [mkMember (Assigned {[ "orders" := [0] ]})]]).
  - intros g Hg. by apply elem_of_nil in Hg.
  - reflexivity.
Defined.

(** X8. A failed [FetchOffset] costs a group its offset and lag metrics
    only: its member count is emitted before the call, the failure is
    logged, and the groups after it are handled as if nothing happened. *)
Theorem fetch_failure_skips_one_group e offset broker pre group req post :
  (∀ g, g ∈ pre → built (offsetFetchRequest e offset g)) →
  offsetFetchRequest e offset group = Built req →
  FetchOffset broker req = None →
  describeGroupsLoop e offset broker (pre ++ group :: post) =
  describeGroupsLoop e offset broker pre ++
  [ gauge consumergroupMembers (float64_len (Members group)) [GroupId group];
    LogError "Cannot get offset of group" ] ++
  describeGroupsLoop e offset broker post.
Proof.
  intros Hpre Hreq Hfail. rewrite describeGroupsLoop_app by done.
  cbn [describeGroupsLoop]. unfold groupMetrics. by rewrite Hreq, Hfail.
Qed.

(** X8 for a broker that answers no offset fetch. *)
Lemma fetch_failure_skips_one_group_witness :
  let broker := mkBroker 1 "kafka-1:9092" OpenOk None (λ _, None) (λ _, None) in
  let group := mkGroup "g" [mkMember (Assigned {[ "orders" := [0] ]})] in
  describeGroupsLoop (sampleExporter None 100) ∅ broker ([] ++ group :: [group]) =
  describeGroupsLoop (sampleExporter None 100) ∅ broker [] ++
  [ gauge consumergroupMembers (float64_len (Members group)) [GroupId group];
    LogError "Cannot get offset of group" ] ++
  describeGroupsLoop (sampleExporter None 100) ∅ broker [group].
Proof.
  apply (fetch_failure_skips_one_group (sampleExporter None 100) ∅
           (mkBroker 1 "kafka-1:9092" OpenOk None (λ _, None) (λ _, None)) []
           (mkGroup "g" [mkMember (Assigned {[ "orders" := [0] ]})])
           (mkRequest "g" 1 {[ "orders" := [0] ]})
           [mkGroup "g" [mkMember (Assigned {[ "orders" := [0] ]})]]).
  - intros g Hg. by apply elem_of_nil in Hg.
  - reflexivity.
  - reflexivity.
Defined.

(** ** The metrics of one (group, topic) of a fetch response *)

Lemma wrap64_plus_l a b : wrap64 (wrap64 a + b) = wrap64 (a + b).
Proof.
  unfold wrap64. f_equal.
  replace ((a + 2 ^ 63) `mod` 2 ^ 64 - 2 ^ 63 + b + 2 ^ 63)
    with ((a + 2 ^ 63) `mod` 2 ^ 64 + b) by lia.
  rewrite Zplus_mod_idemp_l. f_equal. lia.
Qed.

Lemma wrap64_plus_r a b : wrap64 (a + wrap64 b) = wrap64 (a + b).
Proof. rewrite Z.add_comm, wrap64_plus_l. f_equal. lia. Qed.

Lemma committedOffsets_cons partition block blocks :
  committedOffsets ((partition, block) :: blocks) =
  match Err block with
  | ErrNoError => Offset block :: committedOffsets blocks
  | KErr _ => committedOffsets blocks
  end.
Proof. unfold committedOffsets. simpl. by destruct (Err block). Qed.

Lemma partitionLags_cons offset topic partition block blocks :
  partitionLags offset topic ((partition, block) :: blocks) =
  match Err block, lookupOffset offset topic partition with
  | ErrNoError, Some newest =>
      if Offset block =? -1 then partitionLags offset topic blocks
      else (newest - Offset block) :: partitionLags offset topic blocks
  | _, _ => partitionLags offset topic blocks
  end.
Proof.
  unfold partitionLags. simpl. destruct (Err block); [|done].
  destruct (lookupOffset offset topic partition); [|done].
  by destruct (Offset block =? -1).
Qed.

(** The two running sums are the wrapped mathematical sums. *)
Lemma groupPartitionsLoop_sums offset group topic blocks cs ls :
  (groupPartitionsLoop offset group topic blocks (wrap64 cs, wrap64 ls)).2 =
  ( wrap64 (cs + sumZ (committedOffsets blocks)),
    wrap64 (ls + sumZ (partitionLags offset topic blocks)) ).
Proof.
  revert cs ls. induction blocks as [|[partition block] blocks IH]; intros cs ls.
  - simpl. by rewrite !Z.add_0_r.
  - rewrite groupPartitionsLoop_cons. cbn [snd fst].
    rewrite groupPartitionMetrics_sums, committedOffsets_cons, partitionLags_cons.
    destruct (Err block); [|by rewrite IH].
    unfold lagSumAfter, add64, sub64.
    destruct (lookupOffset offset topic partition) as [newest|];
      [destruct (Offset block =? -1)|].
    + rewrite wrap64_plus_l, IH. cbn [sumZ foldr]. by rewrite Z.add_assoc.
    + rewrite wrap64_plus_l, wrap64_plus_r, wrap64_plus_l, IH. cbn [sumZ foldr].
      by rewrite !Z.add_assoc.
    + rewrite wrap64_plus_l, IH. cbn [sumZ foldr]. by rewrite Z.add_assoc.
Qed.

Lemma sum_gauge_not_in_partitionEvents offset group topic pb d v :
  d = consumergroupCurrentOffsetSum ∨ d = consumergroupLagSum →
  gauge d v [group; topic] ∉ partitionEvents offset group topic pb.
Proof.
  intros Hd Hin. destruct pb as [partition block].
  apply elem_of_partitionEvents in Hin.
  destruct (Err block); [|unfold gauge in Hin; discriminate Hin].
  destruct Hin as [Hin|Hin]; [unfold gauge in Hin; by inversion Hin|].
  destruct (lookupOffset offset topic partition).
  - destruct Hin as [Hin|Hin]; unfold gauge in Hin; by inversion Hin.
  - unfold gauge in Hin. discriminate Hin.
Qed.

(** X9. For a (group, topic) whose metrics are emitted,
    [kafka_consumergroup_current_offset_sum] is the int64 wrap of the sum of
    the committed offsets of all partitions without an error, the ones
    committed at −1 included; [kafka_consumergroup_lag_sum] is the int64 wrap
    of the sum of newest − committed over the partitions without an error
    that have a committed offset other than −1 and an entry in the offset
    map. Each of the two metrics has exactly this value. *)
Theorem group_topic_sums e offset group topic (parts : gmap Z OffsetFetchResponseBlock) :
  topicFilter e topic = true → topicConsumed parts →
  let evs := groupTopicMetrics e offset group topic parts in
  (∀ v, gauge consumergroupCurrentOffsetSum v [group; topic] ∈ evs ↔
        v = float64 (wrap64 (sumZ (committedOffsets (map_to_list parts))))) ∧
  (∀ v, gauge consumergroupLagSum v [group; topic] ∈ evs ↔
        v = float64 (wrap64 (sumZ (partitionLags offset topic (map_to_list parts))))).
Proof.
  intros Hf Hc evs. subst evs.
  rewrite (groupTopicMetrics_consumed e offset group topic parts Hf Hc).
  pose proof (groupPartitionsLoop_sums offset group topic (map_to_list parts) 0 0) as Hs.
  change (wrap64 0) with 0 in Hs. rewrite Hs. cbn [fst snd]. rewrite !Z.add_0_l.
  split; intros v; rewrite elem_of_app, elem_of_flat_map, !elem_of_cons, elem_of_nil.
  - split.
    + intros [(pb & _ & Hin)|[Heq|[Heq|[]]]].
      * by apply sum_gauge_not_in_partitionEvents in Hin; [|left].
      * unfold gauge in Heq. by inversion Heq.
      * unfold gauge in Heq. by inversion Heq.
    + intros ->. right. by left.
  - split.
    + intros [(pb & _ & Hin)|[Heq|[Heq|[]]]].
      * by apply sum_gauge_not_in_partitionEvents in Hin; [|right].
      * unfold gauge in Heq. by inversion Heq.
      * unfold gauge in Heq. by inversion Heq.
    + intros ->. right. right. by left.
Qed.

(** X9 for partition 0 committed at 40 and partition 1 committed at −1,
    both with newest offset 100. *)
Lemma group_topic_sums_witness :
  let offset : OffsetMap := {[ "orders" := {[ 0 := 100; 1 := 100 ]} ]} in
  let parts : gmap Z OffsetFetchResponseBlock :=
    {[ 0 := mkBlock 40 ErrNoError; 1 := mkBlock (-1) ErrNoError ]} in
  let evs := groupTopicMetrics (sampleExporter None 100) offset "g" "orders" parts in
  (∀ v, gauge consumergroupCurrentOffsetSum v ["g"; "orders"] ∈ evs ↔
        v = float64 (wrap64 (sumZ (committedOffsets (map_to_list parts))))) ∧
  (∀ v, gauge consumergroupLagSum v ["g"; "orders"] ∈ evs ↔
        v = float64 (wrap64 (sumZ (partitionLags offset "orders" (map_to_list parts))))).
Proof.
  apply (group_topic_sums (sampleExporter None 100)
           {[ "orders" := {[ 0 := 100; 1 := 100 ]} ]} "g" "orders"
           {[ 0 := mkBlock 40 ErrNoError; 1 := mkBlock (-1) ErrNoError ]}).
  - reflexivity.
  - exists 0, (mkBlock 40 ErrNoError). split; [reflexivity|simpl; lia].
Defined.

Example group_topic_sums_values :
  let offset : OffsetMap := {[ "orders" := {[ 0 := 100; 1 := 100 ]} ]} in
  let parts : gmap Z OffsetFetchResponseBlock :=
    {[ 0 := mkBlock 40 ErrNoError; 1 := mkBlock (-1) ErrNoError ]} in
  wrap64 (sumZ (committedOffsets (map_to_list parts))) = 39 ∧
  wrap64 (sumZ (partitionLags offset "orders" (map_to_list parts))) = 60.
Proof. vm_compute. done. Qed.

(** What is emitted for a (group, topic) is emitted for a topic that matches
    the include filter and has a committed partition. *)
Lemma groupTopicMetrics_emitted e offset group topic
    (parts : gmap Z OffsetFetchResponseBlock) :
  groupTopicMetrics e offset group topic parts ≠ [] →
  topicFilter e topic = true ∧ topicConsumed parts.
Proof.
  intros Hne. unfold groupTopicMetrics in Hne.
  destruct (topicFilter e topic) eqn:Hf; [|done]. simpl in Hne.
  split; [done|].
  destruct (existsb _ (map_to_list parts)) eqn:Hex; [|done].
  apply existsb_exists in Hex as ([p b] & Hin & Hb).
  exists p, b. split.
  - apply elem_of_map_to_list. by apply list_elem_of_In.
  - simpl in Hb. apply negb_true_iff, Z.eqb_neq in Hb. done.
Qed.

(** X10. The metrics of a (group, topic) of a fetch response are emitted if
    and only if the topic matches the include filter and some partition of
    the block, with or without an error, has a committed offset other than
    −1. *)
Theorem group_topic_emitted_iff e offset group topic
    (parts : gmap Z OffsetFetchResponseBlock) :
  groupTopicMetrics e offset group topic parts ≠ [] ↔
  topicFilter e topic = true ∧ topicConsumed parts.
Proof.
  split; [apply groupTopicMetrics_emitted|].
  intros [Hf Hc]. rewrite (groupTopicMetrics_consumed e offset group topic parts Hf Hc).
  intros Hnil. apply app_eq_nil in Hnil as [_ Hnil]. discriminate Hnil.
Qed.

(** X11. In [exporter/exporter.go] the timeline update of a (group, topic)
    of a fetch response is called for exactly the partitions of an emitted
    block that carry no error and are recorded in the offset map, with the
    offset the map holds. *)
Theorem timeline_updates_of_group_topic e offset group topic
    (parts : gmap Z OffsetFetchResponseBlock) g t p v :
  CreateOrUpdate g t p v ∈ groupTopicMetrics e offset group topic parts ↔
  g = group ∧ t = topic ∧ topicFilter e topic = true ∧ topicConsumed parts ∧
  ∃ block, parts !! p = Some block ∧ Err block = ErrNoError ∧
           lookupOffset offset topic p = Some v.
Proof.
  split.
  - intros Hin.
    assert (Hne : groupTopicMetrics e offset group topic parts ≠ []).
    { intros Hnil. rewrite Hnil in Hin. by apply elem_of_nil in Hin. }
    apply groupTopicMetrics_emitted in Hne as [Hf Hc].
    rewrite (groupTopicMetrics_consumed e offset group topic parts Hf Hc) in Hin.
    rewrite elem_of_app, elem_of_flat_map, !elem_of_cons, elem_of_nil in Hin.
    destruct Hin as [([partition block] & Hpb & Hin)|[Heq|[Heq|[]]]];
      [|unfold gauge in Heq; discriminate Heq..].
    apply elem_of_partitionEvents in Hin.
    destruct (Err block) eqn:Herr; [|discriminate Hin].
    destruct Hin as [Hin|Hin]; [unfold gauge in Hin; discriminate Hin|].
    destruct (lookupOffset offset topic partition) as [newest|] eqn:Hl;
      [|discriminate Hin].
    destruct Hin as [Hin|Hin]; [|unfold gauge in Hin; discriminate Hin].
    inversion Hin; subst g t p v. repeat (split; [done|]).
    exists block. split; [by apply elem_of_map_to_list|done].
  - intros (-> & -> & Hf & Hc & block & Hp & Herr & Hl).
    rewrite (groupTopicMetrics_consumed e offset group topic parts Hf Hc).
    rewrite elem_of_app, elem_of_flat_map. left.
    exists (p, block). split; [by apply elem_of_map_to_list|].
    apply elem_of_partitionEvents. rewrite Herr, Hl. right. by left.
Qed.

(** ** The timeline updates of the older variant *)

Lemma legacy_update_in_loop offset group topic blocks sums g t p v :
  CreateOrUpdate g t p v ∈ (Legacy.groupPartitionsLoop offset group topic blocks sums).1 ↔
  g = group ∧ t = topic ∧
  ∃ block, (p, block) ∈ blocks ∧ Err block = ErrNoError ∧ v = Offset block.
Proof.
  revert sums. induction blocks as [|[partition block] blocks IH]; intros [cs ls].
  - simpl. rewrite elem_of_nil. split; [done|].
    intros (_ & _ & b & Hin & _). by apply elem_of_nil in Hin.
  - cbn [Legacy.groupPartitionsLoop].
    destruct (Legacy.groupPartitionMetrics offset group topic partition block (cs, ls))
      as [evs sums'] eqn:Hone.
    destruct (Legacy.groupPartitionsLoop offset group topic blocks sums')
      as [evs' sums''] eqn:Hloop.
    simpl. rewrite elem_of_app.
    specialize (IH sums'). rewrite Hloop in IH. simpl in IH. rewrite IH. clear IH.
    unfold Legacy.groupPartitionMetrics in Hone.
    assert (Hsplit : ∀ P : OffsetFetchResponseBlock → Prop,
              (∃ b, (p, b) ∈ (partition, block) :: blocks ∧ P b) ↔
              (p = partition ∧ P block) ∨ ∃ b, (p, b) ∈ blocks ∧ P b).
    { intros P. split.
      - intros (b & Hin & Hb). apply elem_of_cons in Hin as [[= -> ->]|Hin]; eauto.
      - intros [[-> Hb]|(b & Hin & Hb)].
        + exists block. split; [apply list_elem_of_here|done].
        + exists b. split; [by apply list_elem_of_further|done]. }
    rewrite Hsplit. clear Hsplit.
    destruct (Err block) eqn:Herr.
    + inversion Hone; subst evs sums'. clear Hone.
      rewrite !elem_of_cons. split.
      * intros [[Heq|[Heq|Hin]]|(-> & -> & Hrest)].
        -- unfold gauge in Heq. discriminate Heq.
        -- inversion Heq; subst. tauto.
        -- destruct (lookupOffset offset topic partition);
             rewrite ?elem_of_cons, elem_of_nil in Hin.
           ++ destruct Hin as [Heq|[]]. unfold gauge in Heq. discriminate Heq.
           ++ destruct Hin as [Heq|[]]. discriminate Heq.
        -- tauto.
      * intros (-> & -> & [(-> & _ & ->)|Hrest]).
        -- left. right. by left.
        -- right. tauto.
    + inversion Hone; subst evs sums'. clear Hone.
      rewrite list_elem_of_singleton. split.
      * intros [Heq|(-> & -> & Hrest)]; [discriminate Heq|]. tauto.
      * intros (-> & -> & [(-> & Hb & ->)|Hrest]); [congruence|].
        right. tauto.
Qed.

(** X12. In the older variant the timeline update of a (group, topic) of a
    fetch response is called for every partition of an emitted block that
    carries no error, recorded in the offset map or not, and always with the
    consumer's committed offset. *)
Theorem legacy_timeline_updates offset group topic
    (parts : gmap Z OffsetFetchResponseBlock) g t p v :
  CreateOrUpdate g t p v ∈ Legacy.groupTopicMetrics offset group topic parts ↔
  g = group ∧ t = topic ∧ topicConsumed parts ∧
  ∃ block, parts !! p = Some block ∧ Err block = ErrNoError ∧ v = Offset block.
Proof.
  unfold Legacy.groupTopicMetrics.
  destruct (existsb _ (map_to_list parts)) eqn:Hex; simpl.
  - assert (Hc : topicConsumed parts).
    { apply existsb_exists in Hex as ([p' b'] & Hin & Hb).
      exists p', b'. split; [apply elem_of_map_to_list; by apply list_elem_of_In|].
      simpl in Hb. by apply negb_true_iff, Z.eqb_neq in Hb. }
    pose proof (legacy_update_in_loop offset group topic (map_to_list parts) (0, 0)
                  g t p v) as Hloop.
    destruct (Legacy.groupPartitionsLoop offset group topic (map_to_list parts) (0, 0))
      as [evs [cs ls]].
    simpl in Hloop. rewrite elem_of_app, Hloop, !elem_of_cons, elem_of_nil.
    split.
    + intros [(-> & -> & b & Hin & Hb)|[Heq|[Heq|[]]]];
        [|unfold gauge in Heq; discriminate Heq..].
      repeat (split; [done|]). exists b. split; [by apply elem_of_map_to_list|exact Hb].
    + intros (-> & -> & _ & b & Hin & Hb). left. repeat (split; [done|]).
      exists b. split; [by apply elem_of_map_to_list|exact Hb].
  - rewrite elem_of_nil. split; [done|]. intros (_ & _ & Hc & _).
    rewrite existsb_committed in Hex by done. discriminate Hex.
Qed.

(** ** The offset map the topic pass hands to the group pass *)

(** X13. After the topic pass over a queue of topics, the offset map holds
    an offset for a (topic, partition) exactly when the topic was in the
    queue and passes the filters, the partition is one of the partitions the
    client lists for it, and the client's [GetOffset(OffsetNewest)]
    succeeded; the offset held is the one that call returned. *)
Theorem offset_map_records_newest e queue t p v :
  lookupOffset (topicPhase e queue ∅).2 t p = Some v ↔ t ∈ queue ∧ newestOf e t p v.
Proof.
  split.
  - intros Hv. split.
    + destruct (recorded_in_queue e queue ∅ t p v Hv) as [?|Hempty]; [done|].
      unfold lookupOffset in Hempty. by rewrite lookup_empty in Hempty.
    + apply (recorded_sound e queue ∅ t p v); [|done].
      intros t' p' v' Hempty. unfold lookupOffset in Hempty.
      by rewrite lookup_empty in Hempty.
  - intros [Hq Hnew]. apply recorded_complete; [done|by left].
Qed.

(** ** The metrics of a partition *)

Lemma metric_of_call {A} (r : option A) msg d0 (f : A → float) l0 d v labels :
  gauge d v labels ∈ match r with
                     | None => [LogError msg]
                     | Some x => [gauge d0 (f x) l0]
                     end ↔
  labels = l0 ∧ d = d0 ∧ ∃ x, r = Some x ∧ v = f x.
Proof.
  destruct r as [x|]; rewrite list_elem_of_singleton; unfold gauge; split.
  - intros [= -> -> ->]. eauto.
  - by intros (-> & -> & x' & [= <-] & ->).
  - discriminate.
  - by intros (_ & _ & x' & [=] & _).
Qed.

Lemma gauge_eq d v labels d0 v0 l0 :
  gauge d v labels = gauge d0 v0 l0 ↔ labels = l0 ∧ d = d0 ∧ v = v0.
Proof.
  unfold gauge. split; [by intros [= -> -> ->]|by intros (-> & -> & ->)].
Qed.

Lemma metric_unless_failed (failed : bool) msg d0 v0 l0 d v labels :
  gauge d v labels ∈ (if failed then [LogError msg] else [gauge d0 v0 l0]) ↔
  labels = l0 ∧ d = d0 ∧ failed = false ∧ v = v0.
Proof.
  destruct failed; rewrite list_elem_of_singleton; unfold gauge; split.
  - discriminate.
  - by intros (_ & _ & [=] & _).
  - by intros [= -> -> ->].
  - by intros (-> & -> & _ & ->).
Qed.

(** X14. The metrics of one partition of a topic. [Leader] and the two
    [GetOffset] calls yield their metric exactly when they succeed, with the
    value returned; [Replicas] and [InSyncReplicas] yield theirs exactly
    when they return no error, with the length of the slice returned (0 for
    a nil slice); each whatever the other calls do. The two flags are always
    emitted, and they are computed from the leader and the slices as they
    were returned, whether or not an error came with a slice: the first is 1
    when a leader is known, the replica slice is not empty and starts with
    the leader's id, the second is 1 when neither slice is nil and fewer
    replicas are in sync than assigned. Besides these the partition only has
    its Zookeeper lag metrics. *)
Theorem partition_metric e topic partition offset d v labels :
  gauge d v labels ∈ (topicPartitionMetrics e topic partition offset).1 ↔
  labels = [topic; FormatInt partition] ∧
  ( (d = topicPartitionLeader ∧
     ∃ b, Leader (client e) topic partition = Some b ∧ v = float64 (ID b)) ∨
    (d = topicCurrentOffset ∧
     ∃ o, GetOffset (client e) topic partition OffsetNewest = Some o ∧ v = float64 o) ∨
    (d = topicOldestOffset ∧
     ∃ o, GetOffset (client e) topic partition OffsetOldest = Some o ∧ v = float64 o) ∨
    (d = topicPartitionReplicas ∧
     (Replicas (client e) topic partition).2 = false ∧
     v = float64_len (default [] (Replicas (client e) topic partition).1)) ∨
    (d = topicPartitionInSyncReplicas ∧
     (InSyncReplicas (client e) topic partition).2 = false ∧
     v = float64_len (default [] (InSyncReplicas (client e) topic partition).1)) ∨
    (d = topicPartitionUsesPreferredReplica ∧
     v = flag match Leader (client e) topic partition,
                    (Replicas (client e) topic partition).1 with
              | Some b, Some (r0 :: _) => ID b =? r0
              | _, _ => false
              end) ∨
    (d = topicUnderReplicatedPartition ∧
     v = flag match (Replicas (client e) topic partition).1,
                    (InSyncReplicas (client e) topic partition).1 with
              | Some rs, Some isr => (length isr <? length rs)%nat
              | _, _ => false
              end) ) ∨
  gauge d v labels ∈
    zookeeperLag e topic partition
      (default (-1) (GetOffset (client e) topic partition OffsetNewest)).
Proof.
  unfold topicPartitionMetrics, partitionLabels. cbn [fst].
  rewrite !elem_of_app, !list_elem_of_singleton.
  rewrite (metric_of_call (Leader (client e) topic partition) _ topicPartitionLeader
             (λ b, float64 (ID b))).
  rewrite (metric_of_call (GetOffset (client e) topic partition OffsetNewest) _
             topicCurrentOffset float64).
  rewrite (metric_of_call (GetOffset (client e) topic partition OffsetOldest) _
             topicOldestOffset float64).
  rewrite !metric_unless_failed.
  rewrite !gauge_eq. tauto.
Qed.

(** X14 on a partition whose replicas come with an error: no replica count
    is emitted, and the flag is 1 all the same. *)
Example replica_flag_after_error :
  let e := mkExporter
             (mkClient [] true None (λ _, None) (λ _ _, Some sampleBroker)
                (λ _ _ _, None) (λ _ _, (Some [1; 2], true)) (λ _ _, (Some [1], false))
                None)
             (λ _, true) (λ _, false) (λ _, true) (λ _, false)
             false (mkKazoo ([], false)) (mkTime 0) 0 false 1 false ∅ in
  (topicPartitionMetrics e "orders" 0 ∅).1 =
  [ gauge topicPartitionLeader (float64 1) ["orders"; "0"];
    LogError "Cannot get current offset of topic";
    LogError "Cannot get oldest offset of topic";
    LogError "Cannot get replicas of topic";
    gauge topicPartitionInSyncReplicas (float64 1) ["orders"; "0"];
    gauge topicPartitionUsesPreferredReplica (float64 1) ["orders"; "0"];
    gauge topicUnderReplicatedPartition (float64 1) ["orders"; "0"] ].
Proof. reflexivity. Qed.

(** ** The Zookeeper lag of a partition *)

(** X15. The Zookeeper lag metrics of a partition: one for every consumer
    group Zookeeper lists whose fetched offset is above zero, with the value
    newest − fetched in int64 and the group's name as first label; none when
    [useZooKeeperLag] is off. A failure of [Consumergroups] does not stop the
    loop over the groups returned with it. *)
Theorem zookeeper_lag_metric e topic partition currentOffset d v labels :
  gauge d v labels ∈ zookeeperLag e topic partition currentOffset ↔
  useZooKeeperLag e = true ∧ d = consumergroupLagZookeeper ∧
  ∃ group, group ∈ (Consumergroups (zookeeperClient e)).1 ∧
           0 < ZkFetchOffset group topic partition ∧
           labels = [Name group; topic; FormatInt partition] ∧
           v = float64 (sub64 currentOffset (ZkFetchOffset group topic partition)).
Proof.
  unfold zookeeperLag.
  destruct (useZooKeeperLag e); [|rewrite elem_of_nil; by split; [|intros [[=] _]]].
  destruct (Consumergroups (zookeeperClient e)) as [groups failed]. cbn [fst].
  rewrite elem_of_app, elem_of_flat_map. split.
  - intros [Hin|(group & Hg & Hin)].
    + destruct failed; [|by apply elem_of_nil in Hin].
      apply list_elem_of_singleton in Hin. discriminate Hin.
    + destruct (0 <? ZkFetchOffset group topic partition) eqn:Hpos;
        [|by apply elem_of_nil in Hin].
      apply list_elem_of_singleton in Hin. unfold gauge in Hin.
      inversion Hin; subst. apply Z.ltb_lt in Hpos. eauto 10.
  - intros (_ & -> & group & Hg & Hpos & -> & ->). right.
    exists group. split; [done|].
    apply Z.ltb_lt in Hpos. rewrite Hpos. apply list_elem_of_here.
Qed.

(** ** How a scrape ends, and what it leaves behind *)

(** X16. How [collect] ends. It blocks forever exactly when the topic list
    is obtained and the worker pool started for it cannot bring the producer
    to the end of [wg.Wait()]. It panics exactly when the topic phase ends,
    the member assignments are read ([offsetShowAll] is off) and the pass
    over some broker reaches a group, after groups whose requests were
    built, with a member that has no assignment before any member whose
    assignment comes with an error: [assignment.Topics] then dereferences a
    nil pointer; the lag pass never panics. In every other case [collect]
    returns. *)
Theorem collect_outcome e clk :
  (status (collect e clk) = Blocked ↔
     ∃ topics, Topics (client e) = Some topics ∧
               ¬ terminates Current (start (program e topics))) ∧
  (status (collect e clk) = Panicked ↔
     ∃ topics broker groups pre group post mpre member mpost,
       Topics (client e) = Some topics ∧
       terminates Current (start (program e topics)) ∧
       offsetShowAll e = false ∧
       broker ∈ Brokers (client e) ∧ Open broker ≠ OpenFailed ∧
       ListGroups broker = Some groups ∧
       DescribeGroups broker (groupIds e groups) = Some (pre ++ group :: post) ∧
       (∀ g, g ∈ pre → built (offsetFetchRequest e (offsetsOf e topics) g)) ∧
       Members group = mpre ++ member :: mpost ∧
       (∀ m, m ∈ mpre → ∃ assigned, GetMemberAssignment m = Assigned assigned) ∧
       GetMemberAssignment member = NotAssigned) ∧
  (status (collect e clk) ≠ Blocked → status (collect e clk) ≠ Panicked →
   status (collect e clk) = Returned).
Proof.
  split; [|split; [|by destruct (status (collect e clk))]].
  - unfold collect.
    destruct (refreshMetadata e (scrapeNow clk)) as [ev1 e1].
    destruct (Topics (client e)) as [topics|].
    + destruct ((poolSize e topics <? 1) && negb (bool_decide (enqueued e topics = [])))
        eqn:Hblocked.
      * cbn [status]. split; [|done]. intros _.
        exists topics. split; [done|]. rewrite topic_phase_terminates_iff.
        apply andb_true_iff in Hblocked as [Hp Hq].
        apply Z.ltb_lt in Hp. apply negb_true_iff, bool_decide_eq_false in Hq.
        intros [?|?]; [lia|done].
      * assert (Hnot : ¬ ∃ topics', Some topics = Some topics' ∧
                           ¬ terminates Current (start (program e topics'))).
        { intros (topics' & [= <-] & Hnot). apply Hnot.
          apply topic_phase_terminates_iff.
          apply andb_false_iff in Hblocked as [Hp|Hq].
          - left. apply Z.ltb_ge in Hp. lia.
          - right. apply negb_false_iff, bool_decide_eq_true in Hq. done. }
        destruct (topicPhase e (enqueued e topics) ∅) as [ev2 offset].
        destruct (panics (groupPhase e offset)); [by cbn [status]|].
        destruct (metricsForLag e clk _); by cbn [status].
    + cbn [status]. split; [done|]. by intros (topics & [=] & _).
  - destruct (Topics (client e)) as [topics|] eqn:Ht.
    + destruct (decide (1 ≤ poolSize e topics ∨ enqueued e topics = [])) as [Hpool|Hpool].
      * destruct (panics (groupPhase e (offsetsOf e topics))) eqn:Hp.
        -- apply panics_spec in Hp.
           rewrite (collect_panicked e clk topics Ht Hpool Hp). split; [intros _|done].
           apply panic_in_groupPhase in Hp
             as (broker & groups & pre & group & post & Hin & Ho & Hl & Hd & Hpre & Hnil).
           apply offsetFetchRequest_nil in Hnil
             as (Hall & mpre & member & mpost & Hmem & Hmpre & Hnone).
           exists topics, broker, groups, pre, group, post, mpre, member, mpost.
           repeat (split; [done|]). split; [|done].
           by apply topic_phase_terminates_iff.
        -- assert (Hcalm : Panic ∉ groupPhase e (offsetsOf e topics)).
           { intros Hin. apply panics_spec in Hin. congruence. }
           destruct (collect_unfold e clk topics Ht Hpool Hcalm) as (lag & _ & ->).
           cbn [status]. split; [done|].
           intros (topics' & broker & groups & pre & group & post & mpre & member & mpost
                   & [= <-] & _ & Hall & Hin & Ho & Hl & Hd & Hpre & Hmem & Hmpre & Hnone).
           exfalso. apply Hcalm. apply panic_in_groupPhase.
           exists broker, groups, pre, group, post. repeat (split; [done|]).
           apply offsetFetchRequest_nil. split; [done|]. by exists mpre, member, mpost.
      * assert (Hblocked : status (collect e clk) = Blocked).
        { unfold collect. rewrite Ht.
          destruct (refreshMetadata e (scrapeNow clk)) as [ev1 e1].
          assert ((poolSize e topics <? 1)
                  && negb (bool_decide (enqueued e topics = [])) = true) as ->; [|done].
          apply andb_true_iff. split.
          - apply Z.ltb_lt. destruct (decide (poolSize e topics < 1)); [done|].
            exfalso. apply Hpool. left. lia.
          - apply negb_true_iff, bool_decide_eq_false. intros Hq. apply Hpool. by right. }
        rewrite Hblocked. split; [done|].
        intros (topics' & broker & groups & pre & group & post & mpre & member & mpost
                & [= <-] & Hterm & _). exfalso. apply Hpool.
        by apply topic_phase_terminates_iff.
    + assert (Hret : status (collect e clk) = Returned).
      { unfold collect. rewrite Ht. by destruct (refreshMetadata e (scrapeNow clk)). }
      rewrite Hret. split; [done|].
      by intros (topics & broker & groups & pre & group & post & mpre & member & mpost
                 & [=] & _).
Qed.

(** X16 on a cluster whose only group has a member without assignment: the
    scrape panics after the topic phase. *)
Example collect_panics_on_nil_assignment :
  let broker := mkBroker 1 "kafka-1:9092" OpenOk (Some {[ "g" := "consumer" ]})
                  (λ ids, Some (map (λ id, mkGroup id [mkMember NotAssigned]) ids))
                  (λ req, Some (committedBlocks 40 (partitions req))) in
  let e := mkExporter
             (mkClient [broker] true (Some ["orders"]) (λ _, Some [0])
                (λ _ _, Some broker) (λ _ _ _, Some 100)
                (λ _ _, (Some [1], false)) (λ _ _, (Some [1], false)) None)
             (λ _, true) (λ _, false) (λ _, true) (λ _, false)
             false (mkKazoo ([], false)) (mkTime 0) 0 false 1 false ∅ in
  status (collect e sampleClock) = Panicked.
Proof. reflexivity. Qed.

(** X17. A scrape changes nothing of the exporter but the timeline and the
    instant of the next metadata refresh. That instant moves to
    [now + metadataRefreshInterval] exactly when [now] is after it, whether
    or not the refresh succeeds and however the scrape ends. *)
Theorem collect_keeps_configuration e clk :
  let e' := after (collect e clk) in
  client e' = client e ∧
  topicFilter e' = topicFilter e ∧ topicExclude e' = topicExclude e ∧
  groupFilter e' = groupFilter e ∧ groupExclude e' = groupExclude e ∧
  useZooKeeperLag e' = useZooKeeperLag e ∧ zookeeperClient e' = zookeeperClient e ∧
  metadataRefreshInterval e' = metadataRefreshInterval e ∧
  offsetShowAll e' = offsetShowAll e ∧ topicWorkers e' = topicWorkers e ∧
  allowConcurrent e' = allowConcurrent e ∧
  nextMetadataRefresh e' =
    if After (scrapeNow clk) (nextMetadataRefresh e)
    then Add (scrapeNow clk) (metadataRefreshInterval e)
    else nextMetadataRefresh e.
Proof.
  unfold collect, refreshMetadata.
  destruct (After (scrapeNow clk) (nextMetadataRefresh e));
    destruct (Topics (client e)) as [topics|]; cbn [after]; try done;
    destruct ((poolSize e topics <? 1) && negb (bool_decide (enqueued e topics = [])));
    cbn [after]; try done;
    destruct (topicPhase e (enqueued e topics) ∅) as [ev2 offset];
    destruct (panics (groupPhase e offset)); cbn [after]; try done;
    destruct (metricsForLag e clk _); cbn [after]; done.
Qed.

(** ** Label values and descriptors *)

Section WellLabelled.

Variable Labels : string.

Lemma wellLabelled_flat_map {A} (f : A → list Event) (l : list A) :
  (∀ x, x ∈ l → Forall (wellLabelled Labels) (f x)) →
  Forall (wellLabelled Labels) (flat_map f l).
Proof.
  intros Hf. induction l as [|x l IH]; simpl; [constructor|].
  apply Forall_app. split; [apply Hf, list_elem_of_here|].
  apply IH. intros y Hy. apply Hf. by apply list_elem_of_further.
Qed.

Lemma wellLabelled_forEach {A} (body : A → option (list Event)) (l : list A) evs :
  (∀ x evs', body x = Some evs' → Forall (wellLabelled Labels) evs') →
  forEach body l = Some evs → Forall (wellLabelled Labels) evs.
Proof.
  intros Hbody. revert evs. induction l as [|x l IH]; intros evs; simpl.
  - intros [= <-]. constructor.
  - destruct (body x) as [evs1|] eqn:Hx; [|done]. simpl.
    destruct (forEach body l) as [evs2|]; [|done]. simpl.
    intros [= <-]. apply Forall_app. split; [by eapply Hbody|by apply IH].
Qed.

Lemma wellLabelled_brokerMetrics e : Forall (wellLabelled Labels) (brokerMetrics e).
Proof.
  unfold brokerMetrics. constructor; [done|].
  induction (Brokers (client e)); simpl; by constructor.
Qed.

Lemma wellLabelled_topicEvents e topic : Forall (wellLabelled Labels) (topicEvents e topic).
Proof.
  unfold topicEvents, getTopicMetrics.
  destruct (negb (topicFilter e topic) || topicExclude e topic); [constructor|].
  destruct (Partitions (client e) topic) as [parts|]; [|by repeat constructor].
  pose proof (topicPartitionsLoop_events e topic parts (<[topic:=∅]> ∅)) as Hev.
  destruct (topicPartitionsLoop e topic parts (<[topic:=∅]> ∅)) as [evs o1].
  simpl in *. subst evs. constructor; [done|].
  apply wellLabelled_flat_map. intros partition _.
  unfold topicPartitionMetrics, partitionLabels. cbn [fst].
  repeat (apply Forall_app; split).
  - by destruct (Leader _ _ _); repeat constructor.
  - by destruct (GetOffset _ _ _ OffsetNewest); repeat constructor.
  - by destruct (GetOffset _ _ _ OffsetOldest); repeat constructor.
  - by destruct (Replicas _ _ _).2; repeat constructor.
  - by destruct (InSyncReplicas _ _ _).2; repeat constructor.
  - constructor; [done|]. constructor; [done|].
    unfold zookeeperLag. destruct (useZooKeeperLag e); [|constructor].
    destruct (Consumergroups (zookeeperClient e)) as [groups failed].
    apply Forall_app. split; [by destruct failed; repeat constructor|].
    apply wellLabelled_flat_map. intros zg _.
    by destruct (0 <? _); repeat constructor.
Qed.

Lemma wellLabelled_groupTopicMetrics e offset group topic parts :
  Forall (wellLabelled Labels) (groupTopicMetrics e offset group topic parts).
Proof.
  unfold groupTopicMetrics.
  destruct (negb (topicFilter e topic)); [constructor|].
  destruct (negb (existsb _ _)); [constructor|].
  pose proof (groupPartitionsLoop_events offset group topic (map_to_list parts) (0, 0))
    as Hev.
  destruct (groupPartitionsLoop offset group topic (map_to_list parts) (0, 0))
    as [evs [cs ls]].
  simpl in Hev. subst evs. apply Forall_app. split; [|by repeat constructor].
  apply wellLabelled_flat_map. intros [partition block] _.
  unfold partitionEvents, groupPartitionMetrics. cbn [fst snd].
  destruct (Err block); [|by repeat constructor].
  cbn [fst]. constructor; [done|].
  by destruct (lookupOffset offset topic partition); repeat constructor.
Qed.

Lemma wellLabelled_groupPhase e offset : Forall (wellLabelled Labels) (groupPhase e offset).
Proof.
  unfold groupPhase.
  assert (Hb : ∀ broker, Forall (wellLabelled Labels) (getConsumerGroupMetrics e offset broker)).
  { intros broker. unfold getConsumerGroupMetrics.
    assert (Hloop : ∀ groups,
              Forall (wellLabelled Labels) (describeGroupsLoop e offset broker groups)).
    { induction groups as [|g groups IH]; [constructor|]. cbn [describeGroupsLoop].
      destruct (offsetFetchRequest e offset g) as [req| |]; [|by repeat constructor..].
      apply Forall_app. split; [|done]. unfold groupMetrics.
      constructor; [done|].
      destruct (FetchOffset broker req) as [response|]; [|by repeat constructor].
      apply wellLabelled_flat_map. intros [t parts] _.
      apply wellLabelled_groupTopicMetrics. }
    destruct (Open broker); try (by repeat constructor);
      (destruct (ListGroups broker) as [groups|]; [|by repeat constructor]);
      (destruct (DescribeGroups broker _) as [descr|]; [|by repeat constructor]);
      apply Hloop. }
  destruct (Brokers (client e)) as [|b brokers]; [by repeat constructor|].
  apply wellLabelled_flat_map. intros broker _. apply Hb.
Qed.

Lemma wellLabelled_metricsForLag e clk (iMap : IMap) evs :
  metricsForLag e clk iMap = Some evs → Forall (wellLabelled Labels) evs.
Proof.
  unfold metricsForLag.
  destruct (NewClusterAdminFromClient (client e)) as [admin|];
    [|intros [= <-]; by repeat constructor].
  apply wellLabelled_forEach. intros [group topics] evs1.
  apply wellLabelled_forEach. intros [topic partitionMap] evs2.
  unfold lagForGroupTopic. cbn [fst snd].
  destruct (ListConsumerGroupOffsets admin group _) as [[response|] failed];
    cbn [fst snd];
    [|intros [= <-]; by destruct failed; repeat constructor].
  destruct (lagForTopic clk group topic partitionMap response) as [evs3|] eqn:Htopic;
    [|done].
  simpl. intros [= <-]. apply Forall_app.
  split; [by destruct failed; repeat constructor|].
  revert Htopic.
  unfold lagForTopic. apply wellLabelled_forEach. intros [partition offsets] evs4.
  cbn [fst snd]. unfold lagForPartition, lagLabels.
  destruct (size offsets <? 2)%nat; [intros [= <-]; constructor|].
  destruct (Offset <$> _) as [c|]; [|intros [= <-]; by repeat constructor].
  destruct (producedOffsets offsets !! 0%nat) as [lowest|]; [|done]. simpl.
  destruct (c <? lowest).
  - destruct (producedOffsets offsets !! _) as [highest|]; [|done]. simpl.
    intros [= <-]. by repeat constructor.
  - destruct (getNextHigherOffset _ _) as [U|]; [|done]. simpl.
    destruct (getNextLowerOffset _ _) as [D|]; [|done]. simpl.
    intros [= <-]. by repeat constructor.
Qed.

End WellLabelled.

(** X18. Every metric a scrape emits carries exactly as many label values
    as [initializeMetrics] declares variable labels for its descriptor, so
    no call of [MustNewConstMetric] panics on the label count, whatever the
    cluster answers. *)
Theorem scrape_metrics_match_descriptors Labels e clk m :
  Emit m ∈ events (collect e clk) →
  length (m_labels m) =
  length (Config.variableLabels (Config.initializeMetrics Labels (m_desc m))).
Proof.
  assert (Hall : Forall (wellLabelled Labels) (events (collect e clk))).
  { unfold collect.
    pose proof (wellLabelled_brokerMetrics Labels e) as H0.
    assert (H1 : Forall (wellLabelled Labels) (refreshMetadata e (scrapeNow clk)).1).
    { unfold refreshMetadata. destruct (After _ _); [|constructor].
      by destruct (RefreshMetadata (client e)); repeat constructor. }
    destruct (refreshMetadata e (scrapeNow clk)) as [ev1 e1]. simpl in H1.
    destruct (Topics (client e)) as [topics|].
    - destruct ((poolSize e topics <? 1) && _); cbn [events].
      + by apply Forall_app.
      + pose proof (topicPhase_events e (enqueued e topics) ∅) as Hev.
        destruct (topicPhase e (enqueued e topics) ∅) as [ev2 offset].
        simpl in Hev. subst ev2.
        assert (H2 : Forall (wellLabelled Labels)
                       (flat_map (topicEvents e) (enqueued e topics))).
        { apply wellLabelled_flat_map. intros t _. apply wellLabelled_topicEvents. }
        pose proof (wellLabelled_groupPhase Labels e offset) as H3.
        destruct (panics (groupPhase e offset)); cbn [events].
        { repeat (apply Forall_app; split); done. }
        destruct (metricsForLag e clk _) as [ev4|] eqn:Hlag; cbn [events].
        * apply wellLabelled_metricsForLag with (Labels := Labels) in Hlag.
          repeat (apply Forall_app; split); done.
        * repeat (apply Forall_app; split); done.
    - cbn [events]. repeat (apply Forall_app; split); try done.
      by repeat constructor. }
  intros Hin. rewrite Forall_forall in Hall. apply (Hall _ Hin).
Qed.

(** X18 for the committed offset of group [g] on partition 0 of [orders],
    a metric with three labels that a scrape of the sample cluster emits. *)
Lemma scrape_metrics_match_descriptors_witness :
  length (m_labels (MustNewConstMetric consumergroupCurrentOffset GaugeValue (float64 40)
                      ["g"; "orders"; "0"])) =
  length (Config.variableLabels
            (Config.initializeMetrics "env=prod"
               (m_desc (MustNewConstMetric consumergroupCurrentOffset GaugeValue
                          (float64 40) ["g"; "orders"; "0"])))).
Proof.
  apply (scrape_metrics_match_descriptors "env=prod"
           (sampleExporter (Some ["orders"]) 100) sampleClock
           (MustNewConstMetric consumergroupCurrentOffset GaugeValue (float64 40)
              ["g"; "orders"; "0"])).
  apply list_elem_of_In. vm_compute. tauto.
Defined.

(** ** Construction of the exporter *)

(** X19. [CanReadCertAndKey] answers true exactly when both files can be
    opened, and returns an error exactly when one of them can and the other
    cannot; the error then names the file that cannot be opened. *)
Theorem cert_and_key_as_a_pair readable certPath keyPath :
  let r := Config.CanReadCertAndKey readable certPath keyPath in
  r.1 = readable certPath && readable keyPath ∧
  (is_Some r.2 ↔ readable certPath ≠ readable keyPath) ∧
  ∀ msg, r.2 = Some msg →
    ∃ path, (path = certPath ∨ path = keyPath) ∧ readable path = false ∧
            msg = ("error reading " ++ path ++
                   ", certificate and key must be supplied as a pair")%string.
Proof.
  unfold Config.CanReadCertAndKey, Config.canReadFile.
  destruct (readable certPath) eqn:Hc, (readable keyPath) eqn:Hk; cbn.
  - split; [done|]. split; [|done]. split; [by intros [? [=]]|done].
  - split; [done|]. split; [split; [done|eauto]|].
    intros msg [= <-]. exists keyPath. split; [by right|done].
  - split; [done|]. split; [split; [done|eauto]|].
    intros msg [= <-]. exists certPath. split; [by left|done].
  - split; [done|]. split; [|done]. split; [by intros [? [=]]|done].
Qed.

(** ** The labels option *)

Lemma Split_nonempty s sep : Config.Split s sep ≠ [].
Proof.
  destruct s as [|c rest]; simpl; [done|].
  destruct (Ascii.eqb c sep); [done|]. by destruct (Config.Split rest sep).
Qed.

Lemma Split_plain s sep : occurs sep s = false → Config.Split s sep = [s].
Proof.
  induction s as [|c rest IH]; simpl; [done|].
  intros Hocc. apply orb_false_iff in Hocc as [Hc Hrest].
  rewrite Hc, (IH Hrest). done.
Qed.

Lemma Split_app s sep t :
  occurs sep s = false →
  Config.Split (s ++ String sep t) sep = s :: Config.Split t sep.
Proof.
  induction s as [|c rest IH]; simpl.
  - intros _. by rewrite Ascii.eqb_refl.
  - intros Hocc. apply orb_false_iff in Hocc as [Hc Hrest].
    rewrite Hc, (IH Hrest). done.
Qed.

Lemma occurs_app c s t : occurs c (s ++ t) = occurs c s || occurs c t.
Proof. induction s as [|c' s IH]; simpl; [done|]. by rewrite IH, orb_assoc. Qed.

Lemma Split_renderLabel kv :
  plain kv.1 → plain kv.2 →
  Config.Split (renderLabel kv) Config.equals = [kv.1; kv.2].
Proof.
  intros [_ Hk] [_ Hv]. unfold renderLabel.
  change ("=" ++ kv.2)%string with (String Config.equals kv.2).
  by rewrite Split_app, Split_plain.
Qed.

Lemma occurs_renderLabel kv :
  plain kv.1 → plain kv.2 → occurs Config.comma (renderLabel kv) = false.
Proof.
  intros [Hk _] [Hv _]. unfold renderLabel.
  change ("=" ++ kv.2)%string with (String Config.equals kv.2).
  rewrite occurs_app. simpl. by rewrite Hk, Hv.
Qed.

Lemma concat_cons (sep x y : string) (l : list string) :
  String.concat sep (x :: y :: l) = (x ++ sep ++ String.concat sep (y :: l))%string.
Proof. reflexivity. Qed.

Lemma Split_renderLabels kv kvs :
  Forall (λ kv, plain kv.1 ∧ plain kv.2) (kv :: kvs) →
  Config.Split (renderLabels (kv :: kvs)) Config.comma = map renderLabel (kv :: kvs).
Proof.
  revert kv. induction kvs as [|kv' kvs IH]; intros kv Hall.
  - apply Forall_cons in Hall as [[Hk Hv] _]. unfold renderLabels. simpl.
    apply Split_plain. by apply occurs_renderLabel.
  - apply Forall_cons in Hall as [[Hk Hv] Hall].
    unfold renderLabels in *. rewrite !map_cons, concat_cons.
    replace ("," ++ String.concat "," (renderLabel kv' :: map renderLabel kvs))%string
      with (String Config.comma (String.concat "," (map renderLabel (kv' :: kvs))))
      by reflexivity.
    rewrite Split_app by by apply occurs_renderLabel.
    by rewrite (IH kv' Hall).
Qed.

Lemma renderLabels_nonempty kv kvs : renderLabels (kv :: kvs) ≠ ""%string.
Proof.
  unfold renderLabels, renderLabel. destruct kv as [k v]. simpl.
  destruct kvs; simpl; by destruct k.
Qed.

(** X20. Parsing the labels option inverts writing it: for labels whose
    keys and values contain neither [,] nor [=], [initializeMetrics] reads
    from the string [k1=v1,...,kn=vn] the map that holds each key with the
    value of its last occurrence; from the empty list of labels it reads
    the empty map. *)
Theorem parseLabels_renderLabels (kvs : list (string * string)) :
  Forall (λ kv, plain kv.1 ∧ plain kv.2) kvs →
  Config.parseLabels (renderLabels kvs) = list_to_map (reverse kvs).
Proof.
  intros Hall. unfold Config.parseLabels.
  destruct kvs as [|kv kvs]; [done|].
  destruct (String.eqb (renderLabels (kv :: kvs)) "") eqn:Heq.
  { apply String.eqb_eq in Heq. by apply renderLabels_nonempty in Heq. }
  rewrite (Split_renderLabels kv kvs Hall).
  clear Heq. induction (kv :: kvs) as [|x l IH] using rev_ind; [done|].
  apply Forall_app in Hall as [Hl Hx]. apply Forall_cons in Hx as [[Hk Hv] _].
  rewrite map_app, foldl_app, reverse_app. simpl.
  rewrite (Split_renderLabel x Hk Hv). by rewrite (IH Hl).
Qed.

(** X20 for the labels [env=prod,team=data,env=test]. *)
Lemma parseLabels_renderLabels_witness :
  Config.parseLabels "env=prod,team=data,env=test" =
  list_to_map (reverse [("env", "prod"); ("team", "data"); ("env", "test")]%string).
Proof.
  apply (parseLabels_renderLabels [("env", "prod"); ("team", "data"); ("env", "test")]%string).
  repeat constructor.
Defined.

(** ** The descriptors *)

(** X21. [Describe] announces every descriptor, each once, and
    [initializeMetrics] gives the descriptors pairwise distinct
    fully-qualified names, all in the namespace [kafka]. *)
Theorem descriptors_are_announced_once Labels :
  (∀ d, d ∈ Config.Describe) ∧ NoDup Config.Describe ∧
  (∀ d d', Config.fqName (Config.initializeMetrics Labels d) =
           Config.fqName (Config.initializeMetrics Labels d') → d = d') ∧
  (∀ d, ∃ name, Config.fqName (Config.initializeMetrics Labels d) =
                ("kafka_" ++ name)%string).
Proof.
  split; [|split; [|split]].
  - intros d. apply (bool_decide_unpack _). by destruct d.
  - apply (bool_decide_unpack _). reflexivity.
  - intros d d'. destruct d, d'; (done || (cbn; discriminate)).
  - intros d. destruct d; cbn; eauto.
Qed.

(** ** Every topic is handled once *)

Lemma inFlight_insert (ws : list Worker) i x y :
  ws !! i = Some x →
  inFlight (<[i := y]> ws) ++ flight x ≡ₚ inFlight ws ++ flight y.
Proof.
  unfold inFlight. revert i. induction ws as [|w ws IH]; intros i Hi; [done|].
  destruct i as [|i]; simpl in *.
  - inversion Hi; subst w.
    rewrite <- !app_assoc. rewrite (Permutation_app_comm (flat_map flight ws) (flight x)).
    rewrite (Permutation_app_comm (flat_map flight ws) (flight y)).
    rewrite !app_assoc. apply Permutation_app_tail, Permutation_app_comm.
  - rewrite <- !app_assoc. by rewrite (IH i Hi).
Qed.

Lemma inFlight_replicate n d : inFlight (replicate n (Receiving d)) = [].
Proof. unfold inFlight. induction n as [|n IH]; simpl; done. Qed.

Lemma inFlight_app ws ws' : inFlight (ws ++ ws') = inFlight ws ++ inFlight ws'.
Proof. unfold inFlight. induction ws as [|w ws IH]; simpl; [done|]. by rewrite IH, app_assoc. Qed.

Lemma toSend_sends sends tail : toSend (map Send sends ++ tail) = sends ++ toSend tail.
Proof. unfold toSend. induction sends as [|t sends IH]; simpl; [done|]. by rewrite IH. Qed.

Lemma last_tail {A} (x : A) (l : list A) : l ≠ [] → last (x :: l) = last l.
Proof. by destruct l. Qed.

Lemma announced_notSending (p : list Instr) : Forall notSending p → announced p = 0%nat.
Proof. destruct p as [|[] p]; try done. intros Hp. by apply Forall_cons in Hp as [[] _]. Qed.

Lemma notSending_tail (p : list Instr) : Forall notSending p → Forall notSending (tail p).
Proof. destruct p as [|i p]; [done|]. intros Hp. by apply Forall_cons in Hp as [_ ?]. Qed.

Lemma notSending_sends sends tail :
  Forall notSending tail → Forall notSending (map Send sends ++ tail).
Proof. intros Ht. induction sends as [|t sends IH]; [done|]. by constructor. Qed.

Lemma Accounted_start e topics : Accounted (enqueued e topics) (start (program e topics)).
Proof.
  unfold Accounted, start, program. cbn [handled workers prog wg tail].
  split; [|split; [|split; [|split; [|split]]]].
  - simpl. rewrite toSend_sends. simpl. by rewrite app_nil_r.
  - done.
  - constructor.
  - apply notSending_sends. by repeat constructor.
  - intros _. rewrite last_tail by (by destruct (enqueued e topics)).
    induction (enqueued e topics) as [|t l IH]; [done|].
    simpl map. rewrite <- app_comm_cons, last_tail; [done|by destruct l].
  - done.
Qed.

Lemma Accounted_step queue s s' :
  Accounted queue s → TopicPool.step Current s s' → Accounted queue s'.
Proof.
  intros (Hperm & Hwg & Hcalm & Htail & Hlast & Hdone) Hstep.
  inversion Hstep as
    [ n rest ws cl w hd
    | topic rest ws cl w hd
    | topic rest ws w hd i d Hi
    | p ws cl w hd i d topic Hi
    | rest ws cl w hd
    | p ws w hd i d Hi
    | rest ws cl hd ]; subst; unfold Accounted in *;
    cbn [handled workers prog wg tail] in *.
  - (* spawn *)
    rewrite inFlight_app, inFlight_replicate, app_nil_r.
    split; [done|]. split; [by rewrite (announced_notSending rest Htail)|].
    split; [apply Forall_app; split; [done|by apply Forall_replicate]|].
    split; [by apply notSending_tail|].
    split.
    + intros Hne. rewrite <- (Hlast ltac:(done)). symmetry. by apply last_tail.
    + intros ->. by specialize (Hlast ltac:(done)).
  - (* wg.Add(1) *)
    split; [done|]. split; [simpl in *; lia|]. split; [done|]. split; [done|].
    split; [|done].
    intros _. specialize (Hlast ltac:(done)).
    destruct rest as [|i rest]; [done|]. by rewrite last_tail in * by done.
  - (* the send meets a receive *)
    pose proof (inFlight_insert ws i (Receiving d) (Working d topic) Hi) as Hins.
    simpl in Hins. rewrite app_nil_r in Hins.
    split.
    + rewrite <- Hperm. simpl. rewrite Hins.
      rewrite <- !app_assoc. simpl. done.
    + split.
      { rewrite (announced_notSending rest Htail), Hins, length_app. simpl in *. lia. }
      split.
      { apply Forall_insert; [done|]. rewrite Forall_forall in Hcalm.
        apply (Hcalm (Receiving d)). by eapply list_elem_of_lookup_2. }
      split; [by apply notSending_tail|].
      split.
      * intros Hne. rewrite <- (Hlast ltac:(done)). symmetry. by apply last_tail.
      * intros ->. by specialize (Hlast ltac:(done)).
  - (* a worker returns from getTopicMetrics *)
    pose proof (inFlight_insert ws i (Working d topic) (Receiving d) Hi) as Hins.
    simpl in Hins. rewrite app_nil_r in Hins.
    split.
    + rewrite <- Hperm, <- Hins. rewrite <- !app_assoc. simpl.
      apply Permutation_app_head. apply Permutation_middle.
    + split; [rewrite <- Hins, length_app in Hwg; simpl in Hwg; lia|].
      split.
      { apply Forall_insert; [done|]. rewrite Forall_forall in Hcalm.
        apply (Hcalm (Working d topic)). by eapply list_elem_of_lookup_2. }
      split; [done|]. split; [done|].
      intros Hp. specialize (Hdone Hp). rewrite Hdone in Hins.
      apply Permutation_nil_r in Hins. by destruct (inFlight (<[i:=Receiving d]> ws)).
  - (* close *)
    split; [done|]. split; [by rewrite (announced_notSending rest Htail)|].
    split; [done|]. split; [by apply notSending_tail|]. split.
    + intros Hne. rewrite <- (Hlast ltac:(done)). symmetry. by apply last_tail.
    + intros ->. by specialize (Hlast ltac:(done)).
  - (* exit *)
    pose proof (inFlight_insert ws i (Receiving d) Exited Hi) as Hins.
    simpl in Hins. rewrite !app_nil_r in Hins.
    assert (d = 0%nat) as ->.
    { rewrite Forall_forall in Hcalm.
      apply (Hcalm (Receiving d)). by eapply list_elem_of_lookup_2. }
    split; [by rewrite Hins|].
    split; [rewrite Hins; lia|].
    split; [by apply Forall_insert|].
    split; [done|].
    split; [done|]. intros Hp. specialize (Hdone Hp). rewrite Hdone in Hins.
    apply Permutation_nil_r in Hins. done.
  - (* wait *)
    split; [done|]. split; [by rewrite (announced_notSending rest Htail) in *|].
    split; [done|]. split; [by apply notSending_tail|]. split.
    + intros Hne. rewrite <- (Hlast ltac:(done)). symmetry. by apply last_tail.
    + intros _. simpl in Hwg. by destruct (inFlight ws).
Qed.

(** X22. In the worker pool of [exporter/exporter.go], at every point of
    every execution each enqueued topic is in exactly one place: still to be
    sent, in the hands of a worker, or handled. The wait-group counter is the
    number of topics in the hands of workers, plus one while the producer,
    having called [wg.Add(1)], is blocked in the send of the next topic; so
    it never goes below zero. And when the producer has passed [wg.Wait()],
    every enqueued topic has been handled exactly once. *)
Theorem topics_are_handled_once e topics s :
  rtc (TopicPool.step Current) (start (program e topics)) s →
  handled s ++ inFlight (workers s) ++ toSend (prog s) ≡ₚ enqueued e topics ∧
  wg s = Z.of_nat (length (inFlight (workers s)) + announced (prog s)) ∧
  (prog s = [] → handled s ≡ₚ enqueued e topics).
Proof.
  intros Hreach.
  assert (Hacc : Accounted (enqueued e topics) s).
  { revert s Hreach. apply rtc_ind_r; [apply Accounted_start|].
    intros y z _ Hstep Hy. by eapply Accounted_step. }
  destruct Hacc as (Hperm & Hwg & _ & _ & _ & Hdone).
  split; [done|]. split; [done|].
  intros Hp. rewrite Hp, (Hdone Hp) in Hperm. simpl in Hperm.
  by rewrite app_nil_r in Hperm.
Qed.

(** X22 after the first four steps of a scrape of two topics: the worker is
    started and has received [orders], and the producer, having added to the
    wait group, is blocked in the send of [payments]; the counter is 2 with
    one topic in the hands of the worker. *)
Lemma topics_are_handled_once_witness :
  let e := sampleExporter (Some ["orders"; "payments"]) 100 in
  let s := mkPool [Sending "payments"; Close; Wait] [Working 0 "orders"] false 2 [] in
  handled s ++ inFlight (workers s) ++ toSend (prog s)
    ≡ₚ enqueued e ["orders"; "payments"] ∧
  wg s = Z.of_nat (length (inFlight (workers s)) + announced (prog s)) ∧
  (prog s = [] → handled s ≡ₚ enqueued e ["orders"; "payments"]).
Proof.
  apply (topics_are_handled_once (sampleExporter (Some ["orders"; "payments"]) 100)
           ["orders"; "payments"]
           (mkPool [Sending "payments"; Close; Wait] [Working 0 "orders"] false 2 [])).
  eapply rtc_l; [apply step_spawn|].
  eapply rtc_l; [apply step_add|].
  eapply rtc_l; [apply (step_send Current "orders" _ [Receiving 0] 1 [] 0%nat 0%nat);
                 reflexivity|].
  eapply rtc_l; [apply step_add|].
  apply rtc_refl.
Defined.

(** ** Scrapers wait for the collection they registered with *)

Local Close Scope Z_scope.

Lemma Served_init : Served init.
Proof.
  unfold Served, init. simpl. split; [|split].
  - intros w Hw. by apply elem_of_nil in Hw.
  - intros q Hq. by apply elem_of_nil in Hq.
  - intros ch wo Hin. by apply elem_of_nil in Hin.
Qed.

Lemma Served_step s a s' :
  CoalescerInv s → Served s → Coalescer.step s a = Some s' → Served s'.
Proof.
  intros Hinv (Hclosed & Hrun & Hwait) Hstep. destruct a as [ch|quit collected late|ch].
  - (* a scraper arrives *)
    simpl in Hstep. inversion Hstep; subst s'. clear Hstep.
    destruct (decide (sgChans s = [])) as [Hidle|Hbusy].
    + rewrite (arrive_idle s ch Hidle).
      assert (running s = []) as Hnone.
      { unfold CoalescerInv in Hinv. destruct (running s) as [|q [|q' l]]; [done| |done].
        by destruct Hinv. }
      unfold Served. simpl. rewrite Hnone. simpl. split; [|split].
      * intros w Hw. apply Hclosed in Hw. lia.
      * intros q Hq. apply list_elem_of_singleton in Hq as ->. split; [lia|].
        intros Hc. apply Hclosed in Hc. lia.
      * intros ch' wo Hin. apply elem_of_app in Hin as [Hin|Hin].
        -- destruct (Hwait ch' wo Hin) as (w & -> & Hserved & Hopen).
           exists w. split; [done|]. split; [done|].
           intros Hnc. destruct (Hopen Hnc) as [Hr _]. rewrite Hnone in Hr.
           by apply elem_of_nil in Hr.
        -- apply list_elem_of_singleton in Hin. inversion Hin; subst ch' wo.
           exists (fresh s). split; [done|]. split.
           ++ intros Hc. apply Hclosed in Hc. lia.
           ++ intros _. split; apply list_elem_of_here.
    + rewrite (arrive_busy s ch Hbusy).
      assert (∃ quit, running s = [quit] ∧ sgWaitCh s = Some quit) as (quit & Hq & Hw).
      { unfold CoalescerInv in Hinv. destruct (running s) as [|q [|q' l]]; [done| |done].
        destruct Hinv as [_ ?]. eauto. }
      unfold Served. simpl. split; [done|]. split; [done|].
      intros ch' wo Hin. apply elem_of_app in Hin as [Hin|Hin].
      * destruct (Hwait ch' wo Hin) as (w & -> & Hserved & Hopen).
        exists w. split; [done|]. split; [done|].
        intros Hnc. destruct (Hopen Hnc) as [Hr Hc]. split; [done|].
        apply elem_of_app. by left.
      * apply list_elem_of_singleton in Hin. inversion Hin; subst ch' wo.
        exists quit. split; [done|].
        destruct (Hrun quit ltac:(rewrite Hq; apply list_elem_of_here)) as [_ Hopen].
        split; [done|]. intros _. split; [rewrite Hq; apply list_elem_of_here|].
        apply elem_of_app. right. apply list_elem_of_here.
  - (* a collection broadcasts *)
    simpl in Hstep. case_bool_decide as Hquit; [|done].
    inversion Hstep; subst s'. clear Hstep.
    assert (running s = [quit]) as Hq.
    { unfold CoalescerInv in Hinv. destruct (running s) as [|q [|q' l]]; [|..].
      - by apply elem_of_nil in Hquit.
      - by apply list_elem_of_singleton in Hquit as ->.
      - done. }
    unfold Served, broadcast. simpl. split; [|split].
    + intros w Hw. apply elem_of_app in Hw as [Hw|Hw]; [by apply Hclosed|].
      apply list_elem_of_singleton in Hw as ->. by apply Hrun.
    + intros q Hin. apply list_elem_of_filter in Hin as [Hne Hin].
      rewrite Hq in Hin. apply list_elem_of_singleton in Hin. done.
    + intros ch wo Hin. destruct (Hwait ch wo Hin) as (w & -> & Hserved & Hopen).
      exists w. split; [done|]. split.
      * intros _. destruct (decide (w ∈ closedChs s)) as [Hc|Hnc].
        -- destruct (Hserved Hc) as [c Hc']. exists c. apply elem_of_app. by left.
        -- destruct (Hopen Hnc) as [_ Hreg].
           apply list_elem_of_lookup_1 in Hreg as [i Hi].
           eexists. apply elem_of_app. right.
           apply (list_elem_of_lookup_2 _ i). by rewrite list_lookup_imap, Hi.
      * intros Hnc. exfalso. apply Hnc.
        destruct (decide (w ∈ closedChs s)) as [Hc|Hnc'];
          [apply elem_of_app; by left|].
        destruct (Hopen Hnc') as [Hr _]. rewrite Hq in Hr.
        apply list_elem_of_singleton in Hr as ->.
        apply elem_of_app. right. apply list_elem_of_here.
  - (* a scraper returns *)
    simpl in Hstep.
    destruct (list_find _ (waiting s)) as [[i cw]|] eqn:Hfind; [|done].
    inversion Hstep; subst s'. clear Hstep.
    unfold Served. simpl. split; [done|]. split; [done|].
    intros ch' wo Hin. apply (Hwait ch' wo). by eapply list_elem_of_delete_inv.
Qed.

Lemma Served_run s acts s' :
  CoalescerInv s → Served s → run s acts = Some s' → Served s'.
Proof.
  revert s. induction acts as [|a acts IH]; intros s Hinv Hs; simpl.
  - by intros [= <-].
  - destruct (Coalescer.step s a) as [s1|] eqn:Hstep; [|done]. simpl.
    apply IH; [by eapply CoalescerInv_step|by eapply Served_step].
Qed.

(** X24. In serialized mode, in every reachable state: a scraper never
    waits on a nil channel; while the channel it waits on is open, the
    collection that will close it is the one in flight and the scraper's
    sink is registered with it; and a scraper returns from [Collect] only
    after a broadcast has sent to its sink. *)
Theorem scrapers_wait_for_their_collection s :
  reachable s →
  (∀ ch wo, (ch, wo) ∈ waiting s → is_Some wo) ∧
  (∀ ch w, (ch, Some w) ∈ waiting s → w ∉ closedChs s →
           running s = [w] ∧ sgWaitCh s = Some w ∧ ch ∈ sgChans s) ∧
  (∀ ch s', Coalescer.step s (Leave ch) = Some s' →
            ∃ container, (ch, container) ∈ sent s).
Proof.
  intros Hreach. pose proof (reachable_inv s Hreach) as Hinv.
  destruct Hreach as [acts Hrun].
  pose proof (Served_run init acts s CoalescerInv_init Served_init Hrun)
    as (Hclosed & Hrunning & Hwait).
  split; [|split].
  - intros ch wo Hin. destruct (Hwait ch wo Hin) as (w & -> & _). eauto.
  - intros ch w Hin Hnc. destruct (Hwait ch (Some w) Hin) as (w' & [= <-] & _ & Hopen).
    destruct (Hopen Hnc) as [Hr Hreg].
    unfold CoalescerInv in Hinv. destruct (running s) as [|q [|q' l]]; [|..].
    + by apply elem_of_nil in Hr.
    + apply list_elem_of_singleton in Hr as ->. by destruct Hinv.
    + done.
  - intros ch s' Hstep. simpl in Hstep.
    destruct (list_find _ (waiting s)) as [[i [ch' wo]]|] eqn:Hfind; [|done].
    apply list_find_Some in Hfind as (Hi & Hrel & _).
    unfold released in Hrel. simpl in Hrel.
    apply andb_true_iff in Hrel as [Hch Hw].
    apply bool_decide_eq_true in Hch as ->.
    destruct wo as [w|]; [|done]. apply bool_decide_eq_true in Hw.
    destruct (Hwait ch (Some w) ltac:(by eapply list_elem_of_lookup_2))
      as (w' & [= <-] & Hserved & _).
    by apply Hserved.
Qed.

(** X24 in the state where a first scraper has arrived on sink 7. *)
Lemma scrapers_wait_for_their_collection_witness :
  (∀ ch wo, (ch, wo) ∈ waiting (arrive init 7) → is_Some wo) ∧
  (∀ ch w, (ch, Some w) ∈ waiting (arrive init 7) → w ∉ closedChs (arrive init 7) →
           running (arrive init 7) = [w] ∧ sgWaitCh (arrive init 7) = Some w ∧
           ch ∈ sgChans (arrive init 7)) ∧
  (∀ ch s', Coalescer.step (arrive init 7) (Leave ch) = Some s' →
            ∃ container, (ch, container) ∈ sent (arrive init 7)).
Proof.
  apply (scrapers_wait_for_their_collection (arrive init 7)).
  by exists [Arrive 7].
Defined.
(** X25. In serialized mode no scraper is stranded: in every reachable
    state a scraper that is waiting can return at once, or one collection is
    in flight and as soon as that collection broadcasts, whatever it
    collected and whenever the helper goroutine appends the last metric, the
    scraper can return. *)
Theorem no_scraper_is_stranded s ch wo :
  reachable s → (ch, wo) ∈ waiting s →
  is_Some (Coalescer.step s (Leave ch)) ∨
  ∃ quit, running s = [quit] ∧
          ∀ collected late,
            ∃ s', Coalescer.step s (Finish quit collected late) = Some s' ∧
                  is_Some (Coalescer.step s' (Leave ch)).
Proof.
  intros Hreach Hin. pose proof (reachable_inv s Hreach) as Hinv.
  destruct Hreach as [acts Hrun].
  pose proof (Served_run init acts s CoalescerInv_init Served_init Hrun)
    as (_ & _ & Hwait).
  destruct (Hwait ch wo Hin) as (w & -> & _ & Hopen).
  destruct (decide (w ∈ closedChs s)) as [Hc|Hnc]; [left; by eapply leave_enabled|].
  right. destruct (Hopen Hnc) as [Hr _].
  assert (running s = [w]) as Hq.
  { unfold CoalescerInv in Hinv. destruct (running s) as [|q [|q' l]]; [|..].
    - by apply elem_of_nil in Hr.
    - by apply list_elem_of_singleton in Hr as ->.
    - done. }
  exists w. split; [done|]. intros collected late.
  exists (broadcast s w collected late). split.
  - simpl. rewrite bool_decide_eq_true_2; [done|]. rewrite Hq. apply list_elem_of_here.
  - apply (leave_enabled _ ch w); simpl; [done|].
    apply elem_of_app. right. apply list_elem_of_here.
Qed.

(** X25 for the first scraper, on sink 7. *)
Lemma no_scraper_is_stranded_witness :
  is_Some (Coalescer.step (arrive init 7) (Leave 7)) ∨
  ∃ quit, running (arrive init 7) = [quit] ∧
          ∀ collected late,
            ∃ s', Coalescer.step (arrive init 7) (Finish quit collected late) = Some s' ∧
                  is_Some (Coalescer.step s' (Leave 7)).
Proof.
  apply (no_scraper_is_stranded (arrive init 7) 7 (Some 0)).
  - by exists [Arrive 7].
  - apply list_elem_of_here.
Defined.

Local Open Scope Z_scope.

(** ** The group filters *)

Lemma groupTopicMetrics_group_label e offset group topic parts m :
  Emit m ∈ groupTopicMetrics e offset group topic parts →
  ∃ rest, m_labels m = group :: rest.
Proof.
  unfold groupTopicMetrics.
  destruct (negb (topicFilter e topic)); [by rewrite elem_of_nil|].
  destruct (negb (existsb _ _)); [by rewrite elem_of_nil|].
  pose proof (groupPartitionsLoop_events offset group topic (map_to_list parts) (0, 0))
    as Hev.
  destruct (groupPartitionsLoop offset group topic (map_to_list parts) (0, 0))
    as [evs [cs ls]].
  simpl in Hev. subst evs.
  rewrite elem_of_app, elem_of_flat_map, !elem_of_cons, elem_of_nil.
  intros [([partition block] & _ & Hin)|[Heq|[Heq|[]]]].
  - apply elem_of_partitionEvents in Hin.
    destruct (Err block); [|discriminate Hin].
    destruct Hin as [Heq|Hin]; [unfold gauge in Heq; inversion Heq; simpl; eauto|].
    destruct (lookupOffset offset topic partition); [|discriminate Hin].
    destruct Hin as [Heq|Heq]; [discriminate Heq|].
    unfold gauge in Heq. inversion Heq. simpl. eauto.
  - unfold gauge in Heq. inversion Heq. simpl. eauto.
  - unfold gauge in Heq. inversion Heq. simpl. eauto.
Qed.

Lemma describeGroupsLoop_group_label e offset broker groups m :
  Emit m ∈ describeGroupsLoop e offset broker groups →
  ∃ g rest, g ∈ groups ∧ m_labels m = GroupId g :: rest.
Proof.
  induction groups as [|g groups IH]; [simpl; by rewrite elem_of_nil|].
  cbn [describeGroupsLoop].
  destruct (offsetFetchRequest e offset g) as [req| |];
    [|rewrite list_elem_of_singleton; discriminate..].
  unfold groupMetrics. rewrite elem_of_app, elem_of_cons. intros [[Heq|Hin]|Hin].
  - unfold gauge in Heq. inversion Heq. simpl.
    exists g, []. split; [apply list_elem_of_here|done].
  - destruct (FetchOffset broker req) as [response|].
    + apply elem_of_flat_map in Hin as ([t parts] & _ & Hin).
      apply groupTopicMetrics_group_label in Hin as [rest Hrest].
      exists g, rest. split; [apply list_elem_of_here|done].
    + apply list_elem_of_singleton in Hin. discriminate Hin.
  - destruct (IH Hin) as (g' & rest & Hg' & Hrest).
    exists g', rest. split; [by apply list_elem_of_further|done].
Qed.

(** X26. When the broker describes no other groups than the ones it is
    asked about, every metric of the pass over a broker has as its first
    label value a consumer group that matches the group include filter and
    does not match the group exclude filter. *)
Theorem group_metrics_respect_group_filters e offset broker m :
  (∀ ids descr g, DescribeGroups broker ids = Some descr → g ∈ descr → GroupId g ∈ ids) →
  Emit m ∈ getConsumerGroupMetrics e offset broker →
  ∃ group rest, m_labels m = group :: rest ∧
                groupFilter e group = true ∧ groupExclude e group = false.
Proof.
  intros Hdescr. unfold getConsumerGroupMetrics.
  assert (Hmain : Emit m ∈
            match ListGroups broker with
            | Some groups =>
                match DescribeGroups broker (groupIds e groups) with
                | Some describeGroups => describeGroupsLoop e offset broker describeGroups
                | None => [LogError "Cannot get describe groups"]
                end
            | None => [LogError "Cannot get consumer group"]
            end →
          ∃ group rest, m_labels m = group :: rest ∧
                        groupFilter e group = true ∧ groupExclude e group = false).
  { destruct (ListGroups broker) as [groups|];
      [|rewrite list_elem_of_singleton; discriminate].
    destruct (DescribeGroups broker (groupIds e groups)) as [descr|] eqn:Hd;
      [|rewrite list_elem_of_singleton; discriminate].
    intros Hin. apply describeGroupsLoop_group_label in Hin as (g & rest & Hg & Hrest).
    exists (GroupId g), rest. split; [done|].
    apply (groupIds_filtered e groups (GroupId g)). by eapply Hdescr. }
  destruct (Open broker); [done|done|].
  rewrite list_elem_of_singleton. discriminate.
Qed.

(** X26 for the member count of group [g] on the sample broker. *)
Lemma group_metrics_respect_group_filters_witness :
  ∃ group rest,
    m_labels (MustNewConstMetric consumergroupMembers GaugeValue (float64 1) ["g"]) =
      group :: rest ∧
    groupFilter (sampleExporter None 100) group = true ∧
    groupExclude (sampleExporter None 100) group = false.
Proof.
  apply (group_metrics_respect_group_filters (sampleExporter None 100) ∅ sampleBroker
           (MustNewConstMetric consumergroupMembers GaugeValue (float64 1) ["g"])).
  - intros ids descr g [= <-] Hin.
    apply list_elem_of_fmap in Hin as (id & -> & Hid). done.
  - apply list_elem_of_here.
Defined.

(** ** The pruner *)

(** X27. [RunPruner] prunes once per tick, in order, each time with the
    client made for that tick, for as long as the clients can be made: it is
    still selecting after the ticks, stops at the quit signal whatever
    follows it, and returns at the first tick whose client cannot be made,
    whatever follows it. *)
Theorem pruner_runs_tick_by_tick (Prune : Client → Z → IMap → IMap) (MaxOffsets : Z)
    (clients : list Client) (iMap : IMap) :
  let pruned := foldl (λ m c, Prune c MaxOffsets m) iMap clients in
  let ticks := map (λ c, Pruner.Tick (Some c)) clients in
  Pruner.RunPruner Prune MaxOffsets ticks iMap = (pruned, Pruner.Selecting) ∧
  (∀ rest, Pruner.RunPruner Prune MaxOffsets (ticks ++ Pruner.QuitSignal :: rest) iMap =
           (pruned, Pruner.Stopped)) ∧
  (∀ rest, Pruner.RunPruner Prune MaxOffsets (ticks ++ Pruner.Tick None :: rest) iMap =
           (pruned, Pruner.ReturnedOnError)).
Proof.
  revert iMap. induction clients as [|c clients IH]; intros iMap; simpl; [done|].
  apply IH.
Qed.

(** ** Witnesses of properties stated above *)

(** X3 on the timeline of the interpolation scenario. *)
Lemma bounds_enclose_witness :
  ∃ U D, getNextHigherOffset [100; 200; 300] 250 = Some U ∧
         getNextLowerOffset [100; 200; 300] 250 = Some D ∧ D ≤ 250 ≤ U.
Proof.
  apply (bounds_enclose [100; 200; 300] 250 100 300).
  - repeat constructor; lia.
  - simpl. lia.
  - reflexivity.
  - reflexivity.
  - lia.
Defined.

(** X23 for two topics that match the include filter. *)
Lemma old_variant_blocks_witness :
  ¬ terminates Old
      (start (programOld (sampleExporter (Some ["orders"; "payments"]) 100)
                ["orders"; "payments"])).
Proof.
  apply (old_variant_blocks (sampleExporter (Some ["orders"; "payments"]) 100)
           ["orders"; "payments"]).
  discriminate.
Defined.
